(** * A shallow embedding of recc's command parser, path mapper, make-rule
    dependency parser, product deriver and action builder.

    Strings are Stdlib [string]s (lists of 8-bit [ascii]).  A C++ [std::set]
    of strings is a strictly ascending list (ordered by [String.compare],
    which compares characters as unsigned bytes like [std::char_traits]);
    a [std::map] with [std::greater] is a strictly descending association
    list.  Fallible code returns [res]: a value, a thrown exception, or
    undefined behaviour (for instance [front()] on an empty list). *)

From Stdlib Require Import String Ascii List Bool Arith Lia ZArith Sorting.Sorted.
Import ListNotations.
Open Scope string_scope.
Open Scope list_scope.

(** ** Results of fallible code *)

Inductive res (A : Type) : Type :=
| Ok : A -> res A
| Throw : string -> res A     (** a C++ exception, named by its type *)
| UB : res A.                 (** undefined behaviour *)
Arguments Ok {A} _.
Arguments Throw {A} _.
Arguments UB {A}.

Definition rbind {A B} (r : res A) (k : A -> res B) : res B :=
  match r with
  | Ok a => k a
  | Throw e => Throw e
  | UB => UB
  end.

Notation "'let*' x := r 'in' k" := (rbind r (fun x => k))
  (at level 200, x ident, r at level 100, k at level 200).

(** ** String helpers *)

Definition str1 (c : ascii) : string := String c EmptyString.

(** [s.push_back(c)] / [s += c] *)
Definition push_char (s : string) (c : ascii) : string := append s (str1 c).

Definition is_empty (s : string) : bool :=
  match s with EmptyString => true | _ => false end.

Definition front_char (s : string) : option ascii :=
  match s with EmptyString => None | String c _ => Some c end.

(** [s.substr(0, n)] *)
Definition prefix_of_len (n : nat) (s : string) : string := substring 0 n s.

(** [s.substr(pos)] for [pos <= s.size()] *)
Definition suffix_from (pos : nat) (s : string) : string :=
  substring pos (String.length s - pos) s.

(** [s.find(c)]: position of the first occurrence of [c]. *)
Fixpoint find_char (c : ascii) (s : string) : option nat :=
  match s with
  | EmptyString => None
  | String d s' => if Ascii.eqb c d then Some 0
                   else option_map S (find_char c s')
  end.

(** [s.rfind(c)] / [s.find_last_of(c)]: position of the last occurrence. *)
Fixpoint rfind_char (c : ascii) (s : string) : option nat :=
  match s with
  | EmptyString => None
  | String d s' =>
      match rfind_char c s' with
      | Some i => Some (S i)
      | None => if Ascii.eqb c d then Some 0 else None
      end
  end.

(** [std::find_if]-free removal of the characters selected by [p]
    ([std::remove_if] followed by [erase]). *)
Fixpoint remove_chars (p : ascii -> bool) (s : string) : string :=
  match s with
  | EmptyString => EmptyString
  | String c s' => if p c then remove_chars p s' else String c (remove_chars p s')
  end.

(** [::isspace] in the "C" locale: space, \t, \n, \v, \f, \r. *)
Definition c_isspace (c : ascii) : bool :=
  let n := nat_of_ascii c in Nat.eqb n 32 || (Nat.leb 9 n && Nat.leb n 13).

Definition chr_dash : ascii := "-".
Definition chr_plus : ascii := "+".
Definition chr_eq : ascii := "=".
Definition chr_at : ascii := "@".
Definition chr_slash : ascii := "/".
Definition chr_dot : ascii := ".".
Definition chr_colon : ascii := ":".
Definition chr_space : ascii := " ".
Definition chr_bslash : ascii := "\".
Definition chr_nl : ascii := "010".
Definition chr_quote : ascii := "'".
Definition chr_comma : ascii := ",".

(** ** The order of [std::less<std::string>] *)

Definition slt (a b : string) : Prop := String.compare a b = Lt.

Lemma ascii_compare_lt_iff a b :
  Ascii.compare a b = Lt <-> (N_of_ascii a < N_of_ascii b)%N.
Proof. unfold Ascii.compare. apply N.compare_lt_iff. Qed.

Lemma ascii_compare_eq_iff a b : Ascii.compare a b = Eq <-> a = b.
Proof.
  unfold Ascii.compare. rewrite N.compare_eq_iff. split; intro H.
  - rewrite <- (ascii_N_embedding a), <- (ascii_N_embedding b), H. reflexivity.
  - subst. reflexivity.
Qed.

Lemma slt_trans a b c : slt a b -> slt b c -> slt a c.
Proof.
  unfold slt. revert b c.
  induction a as [|x a IH]; intros [|y b] [|z c]; simpl; try discriminate; auto.
  intros H1 H2.
  destruct (Ascii.compare x y) eqn:Hxy; try discriminate;
  destruct (Ascii.compare y z) eqn:Hyz; try discriminate.
  - apply ascii_compare_eq_iff in Hxy, Hyz. subst.
    replace (Ascii.compare z z) with Eq by (symmetry; apply ascii_compare_eq_iff; reflexivity).
    eauto.
  - apply ascii_compare_eq_iff in Hxy. subst. rewrite Hyz. reflexivity.
  - apply ascii_compare_eq_iff in Hyz. subst. rewrite Hxy. reflexivity.
  - apply ascii_compare_lt_iff in Hxy, Hyz.
    replace (Ascii.compare x z) with Lt by (symmetry; apply ascii_compare_lt_iff; eapply N.lt_trans; eassumption).
    reflexivity.
Qed.

Lemma str_compare_refl a : String.compare a a = Eq.
Proof.
  induction a as [|x a IH]; simpl; auto.
  replace (Ascii.compare x x) with Eq by (symmetry; apply ascii_compare_eq_iff; reflexivity).
  exact IH.
Qed.

Lemma slt_irrefl a : ~ slt a a.
Proof. unfold slt. rewrite str_compare_refl. discriminate. Qed.

Lemma slt_total a b : a <> b -> slt a b \/ slt b a.
Proof.
  intro Hne. unfold slt. rewrite (String.compare_antisym b a).
  destruct (String.compare a b) eqn:E; simpl; auto.
  apply String.compare_eq_iff in E. contradiction.
Qed.

Lemma compare_gt_slt a b : String.compare a b = Gt <-> slt b a.
Proof.
  unfold slt. rewrite (String.compare_antisym b a).
  destruct (String.compare a b); simpl; split; congruence.
Qed.

(** ** [std::set<std::string>]: a strictly ascending list *)

Module StdSet.

Fixpoint insert (x : string) (s : list string) : list string :=
  match s with
  | [] => [x]
  | y :: s' =>
      match String.compare x y with
      | Lt => x :: s
      | Eq => s
      | Gt => y :: insert x s'
      end
  end.

Definition of_list (l : list string) : list string :=
  fold_left (fun s x => insert x s) l [].

Definition mem (x : string) (s : list string) : bool :=
  existsb (String.eqb x) s.

Lemma In_insert x y s : In x (insert y s) <-> x = y \/ In x s.
Proof.
  induction s as [|z s IH]; simpl.
  - intuition congruence.
  - destruct (String.compare y z) eqn:E; simpl.
    + apply String.compare_eq_iff in E. subst. intuition congruence.
    + intuition congruence.
    + rewrite IH. intuition congruence.
Qed.

Lemma Forall_insert (P : string -> Prop) y s :
  P y -> Forall P s -> Forall P (insert y s).
Proof.
  intros Hy Hs. induction Hs as [|z s Hz Hs IH]; simpl; auto.
  destruct (String.compare y z); auto.
Qed.

Lemma sorted_insert y s :
  StronglySorted slt s -> StronglySorted slt (insert y s).
Proof.
  induction 1 as [|z s Hs IH Hall]; simpl.
  - repeat constructor.
  - destruct (String.compare y z) eqn:E.
    + constructor; auto.
    + constructor; [constructor; auto|]. constructor; [exact E|].
      eapply Forall_impl; [|exact Hall]. intros w Hw. eapply slt_trans; eauto.
    + constructor; auto. apply Forall_insert; auto. apply compare_gt_slt. exact E.
Qed.

Lemma sorted_of_list_aux l s :
  StronglySorted slt s -> StronglySorted slt (fold_left (fun s x => insert x s) l s).
Proof.
  revert s. induction l as [|x l IH]; simpl; auto.
  intros s Hs. apply IH. apply sorted_insert. exact Hs.
Qed.

Lemma sorted_of_list l : StronglySorted slt (of_list l).
Proof. apply sorted_of_list_aux. constructor. Qed.

Lemma In_of_list_aux l s x :
  In x (fold_left (fun s x => insert x s) l s) <-> In x l \/ In x s.
Proof.
  revert s. induction l as [|y l IH]; simpl; intro s.
  - tauto.
  - rewrite IH, In_insert. intuition congruence.
Qed.

Lemma In_of_list l x : In x (of_list l) <-> In x l.
Proof. unfold of_list. rewrite In_of_list_aux. simpl. tauto. Qed.

(** Two sets with the same members are the same list. *)
Lemma ext l1 l2 :
  StronglySorted slt l1 -> StronglySorted slt l2 ->
  (forall x, In x l1 <-> In x l2) -> l1 = l2.
Proof.
  intro H1. revert l2. induction H1 as [|x l1 Hs1 IH Hall1]; intros l2 H2 Heq.
  - destruct l2 as [|y l2]; auto. exfalso. apply (proj2 (Heq y)). left; auto.
  - destruct H2 as [|y l2 Hs2 Hall2].
    + exfalso. apply (proj1 (Heq x)). left; auto.
    + assert (Exy : x = y).
      { destruct (proj1 (Heq x) (or_introl eq_refl)) as [E|Hin]; auto.
        destruct (proj2 (Heq y) (or_introl eq_refl)) as [E|Hin']; auto.
        rewrite Forall_forall in Hall1, Hall2.
        exfalso. apply (slt_irrefl x). eapply slt_trans; eauto. }
      subst y. f_equal. apply IH; auto. intro z. split; intro Hz.
      * destruct (proj1 (Heq z) (or_intror Hz)) as [E|]; auto. subst.
        rewrite Forall_forall in Hall1. exfalso. exact (slt_irrefl _ (Hall1 _ Hz)).
      * destruct (proj2 (Heq z) (or_intror Hz)) as [E|]; auto. subst.
        rewrite Forall_forall in Hall2. exfalso. exact (slt_irrefl _ (Hall2 _ Hz)).
Qed.

End StdSet.

(** ** Parse rules (parsedcommandfactory.h / .cpp) *)

(** The handler functions of [ParseRule], one constructor each. *)
Inductive Handler : Type :=
| parseOptionSimple
| parseInterfersWithDepsOption
| parseIsInputPathOption
| parseIsEqualInputPathOption
| parseIsCompileOption
| parseOptionRedirectsOutput
| parseOptionRedirectsDepsOutput
| parseOptionDepsRuleTarget
| parseIsPreprocessorArgOption
| parseIsMacro
| parseOptionSetsGccLanguage
| parseOptionIsUnsupported
| parseOptionCoverageOutput
| parseOptionSplitDwarf
| parseOptionSolarisPhase
| parseOptionRedirectsCoverageOutput
| parseOptionNative
| parseOptionParam
| parseLdLibrary
| parseLdLibraryPath
| parseLdOptionDynamic
| parseLdOptionStatic
| parseLdOptionState
| parseLdOptionEmulation
| parseSolarisLdOptionB
| parseSolarisLdOptionD
| parseSolarisLdOptionY
| parseSolarisLdMapfile.

(** [CompilerParseRulesMap]: a [std::map<std::string, handler,
    std::greater<std::string>>], i.e. a list strictly descending in its keys. *)
Module RulesMap.

Definition t := list (string * Handler).

Definition key_gt (a b : string * Handler) : Prop := slt (fst b) (fst a).

(** [std::map::insert]: an existing key keeps its handler. *)
Fixpoint insert (k : string) (v : Handler) (m : t) : t :=
  match m with
  | [] => [(k, v)]
  | (k', v') :: m' =>
      match String.compare k k' with
      | Gt => (k, v) :: m
      | Eq => m
      | Lt => (k', v') :: insert k v m'
      end
  end.

(** The initializer-list constructor. *)
Definition of_list (init : list (string * Handler)) : t :=
  fold_left (fun m kv => insert (fst kv) (snd kv) m) init [].

(** [options.count(k) > 0] and [options.at(k)] *)
Fixpoint find (k : string) (m : t) : option Handler :=
  match m with
  | [] => None
  | (k', v) :: m' => if String.eqb k k' then Some v else find k m'
  end.

Lemma rm_Forall_insert (P : string * Handler -> Prop) k v m :
  P (k, v) -> Forall P m -> Forall P (insert k v m).
Proof.
  intros Hkv Hm. induction Hm as [|[k' v'] m Hk Hm IH]; simpl; auto.
  destruct (String.compare k k'); auto.
Qed.

Lemma rm_sorted_insert k v m :
  StronglySorted key_gt m -> StronglySorted key_gt (insert k v m).
Proof.
  induction 1 as [|[k' v'] m Hs IH Hall]; simpl.
  - repeat constructor.
  - destruct (String.compare k k') eqn:E.
    + constructor; auto.
    + constructor; auto. apply rm_Forall_insert; auto.
    + constructor; [constructor; auto|]. constructor.
      * unfold key_gt; simpl. apply compare_gt_slt. exact E.
      * eapply Forall_impl; [|exact Hall]. intros [w hw] Hw.
        unfold key_gt in *; simpl in *. eapply slt_trans; [exact Hw|].
        apply compare_gt_slt. exact E.
Qed.

Lemma rm_sorted_of_list init : StronglySorted key_gt (of_list init).
Proof.
  unfold of_list. generalize (@SSorted_nil _ key_gt).
  generalize (@nil (string * Handler)). induction init as [|kv init IH]; simpl; auto.
  intros m Hm. apply IH. apply rm_sorted_insert. exact Hm.
Qed.

(** Keys of a strictly sorted map are unique. *)
Lemma sorted_functional m k v1 v2 :
  StronglySorted key_gt m -> In (k, v1) m -> In (k, v2) m -> v1 = v2.
Proof.
  induction 1 as [|[k' v'] m Hs IH Hall]; simpl; [tauto|].
  rewrite Forall_forall in Hall.
  intros [E1|H1] [E2|H2].
  - congruence.
  - inversion E1; subst. exfalso. apply (slt_irrefl k). exact (Hall _ H2).
  - inversion E2; subst. exfalso. apply (slt_irrefl k). exact (Hall _ H1).
  - auto.
Qed.

Lemma find_In k m v : find k m = Some v -> In (k, v) m.
Proof.
  induction m as [|[k' v'] m IH]; simpl; [discriminate|].
  destruct (String.eqb_spec k k'); intro H.
  - inversion H; subst. left; reflexivity.
  - right. auto.
Qed.

End RulesMap.

(** The rule tables of parsedcommandfactory.cpp, in source order. *)
Definition GccRules : RulesMap.t := RulesMap.of_list [
  ("-MD", parseInterfersWithDepsOption);
  ("-MMD", parseInterfersWithDepsOption);
  ("-MG", parseInterfersWithDepsOption);
  ("-MP", parseInterfersWithDepsOption);
  ("-MV", parseInterfersWithDepsOption);
  ("-Wmissing-include-dirs", parseInterfersWithDepsOption);
  ("-Werror=missing-include-dirs", parseInterfersWithDepsOption);
  ("-c", parseIsCompileOption);
  ("-D", parseIsMacro);
  ("-o", parseOptionRedirectsOutput);
  ("-MF", parseOptionRedirectsDepsOutput);
  ("-MT", parseOptionDepsRuleTarget);
  ("-MQ", parseOptionDepsRuleTarget);
  ("--coverage", parseOptionCoverageOutput);
  ("-ftest-coverage", parseOptionCoverageOutput);
  ("-fprofile-note", parseOptionRedirectsCoverageOutput);
  ("-include", parseIsInputPathOption);
  ("-imacros", parseIsInputPathOption);
  ("-I", parseIsInputPathOption);
  ("-iquote", parseIsInputPathOption);
  ("-isystem", parseIsInputPathOption);
  ("-idirafter", parseIsInputPathOption);
  ("-iprefix", parseIsInputPathOption);
  ("-isysroot", parseIsInputPathOption);
  ("--sysroot", parseIsEqualInputPathOption);
  ("-Wp,", parseIsPreprocessorArgOption);
  ("-Xpreprocessor", parseIsPreprocessorArgOption);
  ("-x", parseOptionSetsGccLanguage);
  ("-gsplit-dwarf", parseOptionSplitDwarf);
  ("-fprofile-use", parseOptionIsUnsupported);
  ("-fauto-profile", parseOptionIsUnsupported);
  ("-fbranch-probabilities", parseOptionIsUnsupported);
  ("-specs", parseOptionIsUnsupported);
  ("-M", parseOptionIsUnsupported);
  ("-MM", parseOptionIsUnsupported);
  ("-E", parseOptionIsUnsupported);
  ("-S", parseOptionIsUnsupported);
  ("-save-temps", parseOptionIsUnsupported);
  ("-fdump", parseOptionIsUnsupported);
  ("-march", parseOptionNative);
  ("-mtune", parseOptionNative);
  ("-mcpu", parseOptionNative);
  ("--param", parseOptionParam);
  ("-z", parseOptionParam)].

Definition GccPreprocessorRules : RulesMap.t := RulesMap.of_list [
  ("-MD", parseInterfersWithDepsOption);
  ("-MMD", parseInterfersWithDepsOption);
  ("-M", parseOptionIsUnsupported);
  ("-MM", parseOptionIsUnsupported);
  ("-MG", parseInterfersWithDepsOption);
  ("-MP", parseInterfersWithDepsOption);
  ("-MV", parseInterfersWithDepsOption);
  ("-o", parseOptionRedirectsOutput);
  ("-MF", parseOptionRedirectsDepsOutput);
  ("-MT", parseOptionDepsRuleTarget);
  ("-MQ", parseOptionDepsRuleTarget);
  ("-include", parseIsInputPathOption);
  ("-imacros", parseIsInputPathOption);
  ("-I", parseIsInputPathOption);
  ("-iquote", parseIsInputPathOption);
  ("-isystem", parseIsInputPathOption);
  ("-idirafter", parseIsInputPathOption);
  ("-iprefix", parseIsInputPathOption);
  ("-isysroot", parseIsInputPathOption);
  ("--sysroot", parseIsEqualInputPathOption)].

Definition SunCPPRules : RulesMap.t := RulesMap.of_list [
  ("-Qoption", parseOptionSolarisPhase);
  ("-xMD", parseInterfersWithDepsOption);
  ("-xMMD", parseInterfersWithDepsOption);
  ("-D", parseIsMacro);
  ("-o", parseOptionRedirectsOutput);
  ("-xMF", parseOptionRedirectsDepsOutput);
  ("-I", parseIsInputPathOption);
  ("-include", parseIsInputPathOption);
  ("-c", parseIsCompileOption);
  ("-xarch", parseOptionSimple);
  ("-xar", parseOptionIsUnsupported);
  ("-xpch", parseOptionIsUnsupported);
  ("-xprofile", parseOptionIsUnsupported);
  ("-###", parseOptionIsUnsupported);
  ("-xM", parseOptionIsUnsupported);
  ("-xM1", parseOptionIsUnsupported);
  ("-E", parseOptionIsUnsupported);
  ("-S", parseOptionIsUnsupported)].

Definition AixRules : RulesMap.t := RulesMap.of_list [
  ("-qsyntaxonly", parseInterfersWithDepsOption);
  ("-M", parseInterfersWithDepsOption);
  ("-qmakedep", parseInterfersWithDepsOption);
  ("-qmakedep=gcc", parseInterfersWithDepsOption);
  ("-D", parseIsMacro);
  ("-o", parseOptionRedirectsOutput);
  ("-MF", parseOptionRedirectsDepsOutput);
  ("-qexpfile", parseOptionRedirectsOutput);
  ("-qinclude", parseIsInputPathOption);
  ("-I", parseIsInputPathOption);
  ("-qcinc", parseIsInputPathOption);
  ("-c", parseIsCompileOption);
  ("-#", parseOptionIsUnsupported);
  ("-qshowpdf", parseOptionIsUnsupported);
  ("-qdump_class_hierachy", parseOptionIsUnsupported);
  ("-E", parseOptionIsUnsupported);
  ("-S", parseOptionIsUnsupported)].

Definition LdRules : RulesMap.t := RulesMap.of_list [
  ("-o", parseOptionRedirectsOutput);
  ("-L", parseLdLibraryPath);
  ("--library-path", parseLdLibraryPath);
  ("-l", parseLdLibrary);
  ("--library", parseLdLibrary);
  ("-rpath-link", parseLdLibraryPath);
  ("--rpath-link", parseLdLibraryPath);
  ("-rpath", parseLdLibraryPath);
  ("--rpath", parseLdLibraryPath);
  ("-R", parseLdLibraryPath);
  ("-Bdynamic", parseLdOptionDynamic);
  ("-dy", parseLdOptionDynamic);
  ("-call_shared", parseLdOptionDynamic);
  ("-Bstatic", parseLdOptionStatic);
  ("-dn", parseLdOptionStatic);
  ("-non_shared", parseLdOptionStatic);
  ("-static", parseLdOptionStatic);
  ("--push-state", parseLdOptionState);
  ("--pop-state", parseLdOptionState);
  ("-m", parseLdOptionEmulation);
  ("-soname", parseOptionParam);
  ("--soname", parseOptionParam);
  ("-z", parseOptionParam);
  ("--dependency-file", parseOptionIsUnsupported);
  ("--just-symbols", parseOptionIsUnsupported);
  ("-T", parseOptionIsUnsupported);
  ("--script", parseOptionIsUnsupported);
  ("-dT", parseOptionIsUnsupported);
  ("--default-script", parseOptionIsUnsupported);
  ("-Y", parseOptionIsUnsupported);
  ("--dynamic-list", parseOptionIsUnsupported);
  ("-Map", parseOptionIsUnsupported);
  ("--error-handling-script", parseOptionIsUnsupported);
  ("--out-implib", parseOptionIsUnsupported);
  ("--retain-symbols-file", parseOptionIsUnsupported);
  ("--sysroot", parseOptionIsUnsupported);
  ("--version-script", parseOptionIsUnsupported);
  ("-a", parseOptionIsUnsupported)].

Definition SolarisLdRules : RulesMap.t := RulesMap.of_list [
  ("-o", parseOptionRedirectsOutput);
  ("-L", parseLdLibraryPath);
  ("--library-path", parseLdLibraryPath);
  ("-l", parseLdLibrary);
  ("--library", parseLdLibrary);
  ("-rpath", parseLdLibraryPath);
  ("-R", parseLdLibraryPath);
  ("-B", parseSolarisLdOptionB);
  ("-d", parseSolarisLdOptionD);
  ("-Y", parseSolarisLdOptionY);
  ("-h", parseOptionParam);
  ("-soname", parseOptionParam);
  ("-z", parseOptionParam);
  ("-u", parseIsMacro);
  ("-M", parseSolarisLdMapfile)].

(** [ParseRuleHelper::matchCompilerOptions] *)

(** [tempOption.substr(0, tempOption.find("="))] *)
Definition trim_at_equal (s : string) : string :=
  match find_char chr_eq s with
  | Some i => prefix_of_len i s
  | None => s
  end.

(** The substring search over the map, in the map's iteration order. *)
Fixpoint scan_prefix (opt : string) (m : RulesMap.t) : option (string * Handler) :=
  match m with
  | [] => None
  | (k, h) :: m' =>
      if String.eqb (prefix_of_len (String.length k) opt) k then Some (k, h)
      else scan_prefix opt m'
  end.

(** [None] stands for the returned pair [("", nullptr)]. *)
Definition matchCompilerOptions (opt : string) (options : RulesMap.t)
  : option (string * Handler) :=
  match front_char opt with
  | Some c =>
      if Ascii.eqb c chr_dash || Ascii.eqb c chr_plus then
        let tempOption := remove_chars c_isspace (trim_at_equal opt) in
        match RulesMap.find tempOption options with
        | Some h => Some (tempOption, h)
        | None => scan_prefix opt options
        end
      else None
  | None => None
  end.

(** The dispatch order as the spec words it: the table sorted by
    descending key length, the first key that is a prefix of the token. *)
Fixpoint insert_by_length (kv : string * Handler) (l : RulesMap.t) : RulesMap.t :=
  match l with
  | [] => [kv]
  | kv' :: l' =>
      if Nat.ltb (String.length (fst kv')) (String.length (fst kv)) then kv :: l
      else kv' :: insert_by_length kv l'
  end.

Definition sort_by_length_desc (m : RulesMap.t) : RulesMap.t :=
  fold_right insert_by_length [] m.

Definition spec_prefix_dispatch (opt : string) (m : RulesMap.t)
  : option (string * Handler) :=
  find (fun kv => String.prefix (fst kv) opt) (sort_by_length_desc m).

(** *** Prefix lemmas *)

Lemma prefix_of_len_spec k s :
  String.eqb (prefix_of_len (String.length k) s) k = String.prefix k s.
Proof.
  unfold prefix_of_len. revert s.
  induction k as [|x k IH]; intros [|y s]; simpl; auto.
  destruct (Ascii.eqb_spec y x); destruct (ascii_dec x y); subst; try congruence;
    try apply IH.
Qed.

Lemma prefix_chain k1 k2 s :
  String.prefix k1 s = true -> String.prefix k2 s = true ->
  String.length k1 <= String.length k2 -> String.prefix k1 k2 = true.
Proof.
  revert k2 s. induction k1 as [|x k1 IH]; intros [|y k2] [|z s]; simpl; auto; try lia;
    try discriminate.
  destruct (ascii_dec x z); destruct (ascii_dec y z); try discriminate; subst.
  destruct (ascii_dec z z); [|congruence]. intros H1 H2 Hl. eapply IH; eauto. lia.
Qed.

Lemma prefix_same_length k1 k2 :
  String.prefix k1 k2 = true -> String.length k1 = String.length k2 -> k1 = k2.
Proof.
  revert k2. induction k1 as [|x k1 IH]; intros [|y k2]; simpl; auto; try discriminate.
  destruct (ascii_dec x y); [|discriminate]. subst. intros H Hl. f_equal. auto.
Qed.

Lemma prefix_strict_slt k1 k2 :
  String.prefix k1 k2 = true -> k1 <> k2 -> slt k1 k2.
Proof.
  unfold slt. revert k2. induction k1 as [|x k1 IH]; intros [|y k2]; simpl; auto;
    try discriminate; try congruence.
  destruct (ascii_dec x y); [|discriminate]. subst. intros H Hne.
  replace (Ascii.compare y y) with Eq by (symmetry; apply ascii_compare_eq_iff; reflexivity).
  apply IH; auto. congruence.
Qed.

(** The entry of [m] whose key is the longest prefix of [opt]. *)
Definition longest_prefix_entry (opt : string) (m : RulesMap.t) (kv : string * Handler) : Prop :=
  In kv m /\ String.prefix (fst kv) opt = true /\
  forall kv', In kv' m -> String.prefix (fst kv') opt = true ->
              String.length (fst kv') <= String.length (fst kv).

(** Scanning a descending map, the first prefix found is the longest. *)
Lemma scan_prefix_longest opt m :
  StronglySorted RulesMap.key_gt m ->
  match scan_prefix opt m with
  | Some kv => longest_prefix_entry opt m kv
  | None => forall kv, In kv m -> String.prefix (fst kv) opt = false
  end.
Proof.
  induction 1 as [|[k h] m Hs IH Hall]; simpl; [tauto|].
  rewrite prefix_of_len_spec. rewrite Forall_forall in Hall.
  destruct (String.prefix k opt) eqn:Hk.
  - split; [left; reflexivity|]. split; [exact Hk|].
    intros [k' h'] [E|Hin] Hk'; simpl in *.
    + inversion E; subst. lia.
    + destruct (Nat.le_gt_cases (String.length k') (String.length k)) as [|Hlt]; auto.
      exfalso. specialize (Hall _ Hin). unfold RulesMap.key_gt in Hall; simpl in Hall.
      assert (Hpk : String.prefix k k' = true) by (eapply prefix_chain; eauto; lia).
      assert (Hne : k <> k') by (intro; subst; lia).
      apply (slt_irrefl k). eapply slt_trans; [apply prefix_strict_slt; eauto|exact Hall].
  - destruct (scan_prefix opt m) as [kv|] eqn:Hscan.
    + destruct IH as (Hin & Hp & Hmax). split; [right; exact Hin|]. split; [exact Hp|].
      intros kv' [E|Hin'] Hp'.
      * subst kv'. simpl in Hp'. congruence.
      * auto.
    + intros kv [E|Hin]; [subst; exact Hk|auto].
Qed.

Lemma In_insert_by_length kv kv' l :
  In kv' (insert_by_length kv l) <-> kv' = kv \/ In kv' l.
Proof.
  induction l as [|x l IH]; simpl; [intuition congruence|].
  destruct (Nat.ltb _ _); simpl; [intuition congruence|]. rewrite IH. intuition congruence.
Qed.

Lemma In_sort_by_length kv m : In kv (sort_by_length_desc m) <-> In kv m.
Proof.
  induction m as [|x m IH]; simpl; [tauto|].
  rewrite In_insert_by_length, IH. intuition congruence.
Qed.

Definition length_ge (a b : string * Handler) : Prop :=
  String.length (fst b) <= String.length (fst a).

Lemma sorted_insert_by_length kv l :
  StronglySorted length_ge l -> StronglySorted length_ge (insert_by_length kv l).
Proof.
  induction 1 as [|x l Hs IH Hall]; simpl; [repeat constructor|].
  unfold length_ge in *. rewrite Forall_forall in *.
  destruct (Nat.ltb_spec (String.length (fst x)) (String.length (fst kv))).
  - constructor; [constructor; auto; rewrite Forall_forall; auto|].
    constructor; [lia|]. rewrite Forall_forall. intros y Hy. specialize (Hall _ Hy). lia.
  - constructor; auto. rewrite Forall_forall. intros y Hy.
    apply In_insert_by_length in Hy as [E|Hy]; subst; auto.
Qed.

Lemma sorted_sort_by_length m : StronglySorted length_ge (sort_by_length_desc m).
Proof.
  induction m as [|x m IH]; simpl; [constructor|]. apply sorted_insert_by_length. exact IH.
Qed.

Lemma find_first_longest opt l kv :
  StronglySorted length_ge l ->
  find (fun kv => String.prefix (fst kv) opt) l = Some kv ->
  forall kv', In kv' l -> String.prefix (fst kv') opt = true ->
              String.length (fst kv') <= String.length (fst kv).
Proof.
  induction 1 as [|x l Hs IH Hall]; simpl; [discriminate|].
  rewrite Forall_forall in Hall. unfold length_ge in Hall.
  destruct (String.prefix (fst x) opt) eqn:Hx.
  - intro E. inversion E; subst. intros kv' [E'|Hin] _; [subst; lia|auto].
  - intros Hf kv' [E'|Hin] Hp; [subst; congruence|eauto].
Qed.

(** On a descending map, the code's scan and the spec's scan agree. *)
Lemma scan_prefix_spec opt m :
  StronglySorted RulesMap.key_gt m -> scan_prefix opt m = spec_prefix_dispatch opt m.
Proof.
  intro Hs. pose proof (scan_prefix_longest opt m Hs) as Hscan.
  unfold spec_prefix_dispatch.
  destruct (find (fun kv => String.prefix (fst kv) opt) (sort_by_length_desc m))
    as [kv2|] eqn:Hfind.
  - pose proof (find_some _ _ Hfind) as [Hin2 Hp2].
    pose proof (find_first_longest opt _ kv2 (sorted_sort_by_length m) Hfind) as Hmax2.
    rewrite In_sort_by_length in Hin2.
    destruct (scan_prefix opt m) as [kv1|].
    + destruct Hscan as (Hin1 & Hp1 & Hmax1).
      specialize (Hmax1 _ Hin2 Hp2).
      specialize (Hmax2 _ (proj2 (In_sort_by_length _ _) Hin1) Hp1).
      destruct kv1 as [k1 h1], kv2 as [k2 h2]; simpl in *.
      assert (Ek : k1 = k2).
      { apply prefix_same_length; [eapply prefix_chain; eauto|]; lia. }
      subst k2. f_equal. f_equal. eapply RulesMap.sorted_functional; eauto.
    + specialize (Hscan _ Hin2). congruence.
  - pose proof (find_none _ _ Hfind) as Hnone.
    destruct (scan_prefix opt m) as [kv1|]; auto.
    destruct Hscan as (Hin1 & Hp1 & _).
    specialize (Hnone _ (proj2 (In_sort_by_length _ _) Hin1)). congruence.
Qed.

(** ** Configuration and the host (fileutils.cpp, env.h) *)

(** The configuration variables that the modelled code reads. *)
Record Config : Type := mkConfig {
  RECC_PREFIX_REPLACEMENT : list (string * string);
  RECC_PROJECT_ROOT : string;
  RECC_NO_PATH_REWRITE : bool;
  RECC_DEPS_GLOBAL_PATHS : bool
}.

(** Primitives of the host and of the buildbox-common library, which are
    outside this repository; every theorem is stated for all of them. *)
Record Host : Type := mkHost {
  normalizePath : string -> string;             (* buildboxcommon::FileUtils::normalizePath *)
  makePathRelative : string -> string -> string; (* buildboxcommon::FileUtils::makePathRelative *)
  isDirectory : string -> bool;
  isRegularFile : string -> bool;
  getPathToCommand : string -> string;          (* buildboxcommon::SystemUtils::getPathToCommand *)
  isSymlink : string -> bool;
  getSymlinkContents : string -> string;        (* readlink *)
  temporaryFileName : string                    (* name of a new TemporaryFile *)
}.

Definition last_char (s : string) : option ascii :=
  match s with
  | EmptyString => None
  | _ => String.get (String.length s - 1) s
  end.

(** [FileUtils::hasPathPrefix] *)
Definition hasPathPrefix (path prefix : string) : bool :=
  if is_empty prefix then false
  else if String.eqb path prefix then true
  else
    let tmpPrefix :=
      match last_char prefix with
      | Some c => if Ascii.eqb c chr_slash then prefix else push_char prefix chr_slash
      | None => push_char prefix chr_slash
      end in
    String.eqb (prefix_of_len (String.length tmpPrefix) path) tmpPrefix.

(** [FileUtils::resolvePathFromPrefixMap] *)
Fixpoint resolve_with_pairs (host : Host) (pairs : list (string * string)) (path : string)
  : string :=
  match pairs with
  | [] => path
  | (from, to) :: rest =>
      if hasPathPrefix path from then
        let replaced_path := append (push_char to chr_slash)
                                    (suffix_from (String.length from) path) in
        normalizePath host replaced_path
      else resolve_with_pairs host rest path
  end.

Definition resolvePathFromPrefixMap (cfg : Config) (host : Host) (path : string) : string :=
  match RECC_PREFIX_REPLACEMENT cfg with
  | [] => path
  | pairs => resolve_with_pairs host pairs path
  end.

(** [FileUtils::rewritePathToRelative] *)
Definition rewritePathToRelative (cfg : Config) (host : Host) (path wd : string) : string :=
  if negb (RECC_NO_PATH_REWRITE cfg) && hasPathPrefix path (RECC_PROJECT_ROOT cfg)
  then makePathRelative host path wd
  else path.

(** [FileUtils::modifyPathForRemote] (the third argument defaults to true) *)
Definition modifyPathForRemote' (cfg : Config) (host : Host) (path wd : string)
  (normalize : bool) : string :=
  let replacedPath := resolvePathFromPrefixMap cfg host path in
  let replacedPath := rewritePathToRelative cfg host replacedPath wd in
  if normalize && negb (RECC_NO_PATH_REWRITE cfg)
  then normalizePath host replacedPath
  else replacedPath.

Definition modifyPathForRemote (cfg : Config) (host : Host) (path wd : string) : string :=
  modifyPathForRemote' cfg host path wd true.

(** [FileUtils::stripDirectory] *)
Definition stripDirectory (path : string) : string :=
  match rfind_char chr_slash path with
  | Some i => suffix_from (S i) path
  | None => path
  end.

(** [FileUtils::replaceSuffix]: [path.substr(0, path.rfind("."))] plus the
    suffix; [substr(0, npos)] is the whole path. *)
Definition replaceSuffix (path suffix : string) : string :=
  let base := match rfind_char chr_dot path with
              | Some i => prefix_of_len i path
              | None => path
              end in
  append base suffix.

(** ** [ParsedCommand] (parsedcommand.h)

    The members are grouped by their C++ type: the [bool] members, the
    [std::vector<std::string>] members and the [std::set<std::string>]
    members are each a function of the member's name, so that one handler
    updates one member without restating the others. *)

Inductive BoolField : Type :=
| d_compilerCommand | d_linkerCommand | d_md_option_set | d_qmakedep_option_set
| d_coverage_option_set | d_split_dwarf_option_set | d_isGcc | d_isClang
| d_isSunStudio | d_producesSunMakeRules | d_containsUnsupportedOptions
| d_upload_all_include_dirs | d_bstatic.

Inductive VecField : Type :=
| d_defaultDepsCommand | d_preProcessorOptions | d_command | d_dependenciesCommand
| d_inputFiles | d_auxInputFiles | d_libraryDirs | d_rpathLinkDirs | d_rpathDirs
| d_defaultLibraryDirs.

Inductive SetField : Type :=
| d_libraries | d_staticLibraries | d_commandProducts | d_commandDepsProducts
| d_commandCoverageProducts | d_includeDirs.

Scheme Equality for BoolField.
Scheme Equality for VecField.
Scheme Equality for SetField.

Record ParsedCommand : Type := mkParsedCommand {
  pc_bool : BoolField -> bool;
  pc_vec : VecField -> list string;
  pc_set : SetField -> list string;
  d_compiler : string;
  d_originalCommand : list string;          (* std::list<std::string> *)
  d_dependencyFileAIX : option string;      (* the AIX temporary file, if any *)
  d_bstaticStack : list bool                (* std::vector<bool>, back = last *)
}.

(** The default constructor: every member false or empty. *)
Definition emptyParsedCommand : ParsedCommand :=
  mkParsedCommand (fun _ => false) (fun _ => []) (fun _ => []) "" [] None [].

Definition set_bool (f : BoolField) (b : bool) (pc : ParsedCommand) : ParsedCommand :=
  mkParsedCommand (fun g => if BoolField_beq f g then b else pc_bool pc g)
    (pc_vec pc) (pc_set pc) (d_compiler pc) (d_originalCommand pc)
    (d_dependencyFileAIX pc) (d_bstaticStack pc).

Definition set_vec (f : VecField) (v : list string) (pc : ParsedCommand) : ParsedCommand :=
  mkParsedCommand (pc_bool pc) (fun g => if VecField_beq f g then v else pc_vec pc g)
    (pc_set pc) (d_compiler pc) (d_originalCommand pc)
    (d_dependencyFileAIX pc) (d_bstaticStack pc).

(** [v.push_back(x)] *)
Definition push_back (f : VecField) (x : string) (pc : ParsedCommand) : ParsedCommand :=
  set_vec f (pc_vec pc f ++ [x]) pc.

(** [v.insert(v.end(), xs.begin(), xs.end())] *)
Definition append_vec (f : VecField) (xs : list string) (pc : ParsedCommand) : ParsedCommand :=
  set_vec f (pc_vec pc f ++ xs) pc.

(** [s.insert(x)] / [s.emplace(x)] on a [std::set] *)
Definition set_insert (f : SetField) (x : string) (pc : ParsedCommand) : ParsedCommand :=
  mkParsedCommand (pc_bool pc) (pc_vec pc)
    (fun g => if SetField_beq f g then StdSet.insert x (pc_set pc g) else pc_set pc g)
    (d_compiler pc) (d_originalCommand pc) (d_dependencyFileAIX pc) (d_bstaticStack pc).

Definition set_originalCommand (l : list string) (pc : ParsedCommand) : ParsedCommand :=
  mkParsedCommand (pc_bool pc) (pc_vec pc) (pc_set pc) (d_compiler pc) l
    (d_dependencyFileAIX pc) (d_bstaticStack pc).

Definition set_bstaticStack (l : list bool) (pc : ParsedCommand) : ParsedCommand :=
  mkParsedCommand (pc_bool pc) (pc_vec pc) (pc_set pc) (d_compiler pc)
    (d_originalCommand pc) (d_dependencyFileAIX pc) l.

(** [d_originalCommand.front()]: undefined on an empty list. *)
Definition oc_front (pc : ParsedCommand) : res string :=
  match d_originalCommand pc with
  | [] => UB
  | x :: _ => Ok x
  end.

(** [d_originalCommand.pop_front()]: undefined on an empty list. *)
Definition oc_pop_front (pc : ParsedCommand) : res ParsedCommand :=
  match d_originalCommand pc with
  | [] => UB
  | _ :: rest => Ok (set_originalCommand rest pc)
  end.

Definition oc_push_front (x : string) (pc : ParsedCommand) : ParsedCommand :=
  set_originalCommand (x :: d_originalCommand pc) pc.

(** The accessors of [ParsedCommand]. *)
Definition is_compiler_command (pc : ParsedCommand) : bool := pc_bool pc d_compilerCommand.
Definition is_linker_command (pc : ParsedCommand) : bool := pc_bool pc d_linkerCommand.
Definition is_sun_studio (pc : ParsedCommand) : bool := pc_bool pc d_isSunStudio.
Definition is_clang (pc : ParsedCommand) : bool := pc_bool pc d_isClang.
Definition is_AIX (pc : ParsedCommand) : bool :=
  match d_dependencyFileAIX pc with Some _ => true | None => false end.
Definition contains_unsupported_options (pc : ParsedCommand) : bool :=
  pc_bool pc d_containsUnsupportedOptions.
Definition get_products (pc : ParsedCommand) : list string := pc_set pc d_commandProducts.
Definition get_deps_products (pc : ParsedCommand) : list string := pc_set pc d_commandDepsProducts.
Definition get_coverage_products (pc : ParsedCommand) : list string :=
  pc_set pc d_commandCoverageProducts.
Definition produces_sun_make_rules (pc : ParsedCommand) : bool :=
  pc_bool pc d_producesSunMakeRules.

(** ** The parse-rule handlers (parsedcommandfactory.cpp) *)

(** [s.substr(pos)]: throws [std::out_of_range] when [pos > s.size()]. *)
Definition substr_from (pos : nat) (s : string) : res string :=
  if Nat.leb pos (String.length s) then Ok (suffix_from pos s)
  else Throw "std::out_of_range".

(** Splitting with [std::getline(iss, token, sep)]: no token after a
    trailing separator, none at all for the empty string. *)
Fixpoint getline_split_aux (sep : ascii) (s cur : string) : list string :=
  match s with
  | EmptyString => if is_empty cur then [] else [cur]
  | String c s' =>
      if Ascii.eqb c sep then cur :: getline_split_aux sep s' EmptyString
      else getline_split_aux sep s' (push_char cur c)
  end.

Definition getline_split (sep : ascii) (s : string) : list string :=
  getline_split_aux sep s EmptyString.

(** [ParseRuleHelper::parseStageOptionList] *)
Fixpoint parseStageOptionList_aux (s : string) (quoted : bool) (current : string)
  : list string :=
  match s with
  | EmptyString => [current]
  | String c s' =>
      if Ascii.eqb c chr_quote then parseStageOptionList_aux s' (negb quoted) current
      else if Ascii.eqb c chr_comma && negb quoted
      then current :: parseStageOptionList_aux s' quoted EmptyString
      else parseStageOptionList_aux s' quoted (push_char current c)
  end.

Definition parseStageOptionList (option : string) : list string :=
  parseStageOptionList_aux option false EmptyString.

Definition mem_str (x : string) (l : list string) : bool := existsb (String.eqb x) l.

Section Handlers.

Variable cfg : Config.
Variable host : Host.
(** [SupportedCompilers::GccSupportedLanguages] (compilerdefaults.h) *)
Variable GccSupportedLanguages : list string.

(** [ParseRuleHelper::appendAndRemoveOption] *)
Definition appendAndRemoveOption (wd : string) (isPath toDeps isOutput depsOutput : bool)
  (pc : ParsedCommand) : res ParsedCommand :=
  let* option := oc_front pc in
  let pc :=
    if isPath then
      let replacedPath := modifyPathForRemote cfg host option wd in
      let local_normalized_path := normalizePath host option in
      let pc := if isDirectory host local_normalized_path
                then set_insert d_includeDirs replacedPath pc else pc in
      let pc := if toDeps then push_back d_dependenciesCommand option pc else pc in
      let pc := push_back d_command replacedPath pc in
      if isOutput && negb depsOutput then set_insert d_commandProducts replacedPath pc
      else if isOutput then set_insert d_commandDepsProducts replacedPath pc
      else pc
    else
      let pc := push_back d_command option pc in
      if toDeps then push_back d_dependenciesCommand option pc else pc in
  oc_pop_front pc.

(** [ParseRuleHelper::parseGccOption] *)
Definition parseGccOption (wd option : string) (toDeps isOutput depsOutput : bool)
  (pc : ParsedCommand) : res ParsedCommand :=
  let* val := oc_front pc in
  if String.eqb val option then
    let* pc := appendAndRemoveOption wd false toDeps false false pc in
    appendAndRemoveOption wd true toDeps isOutput depsOutput pc
  else
    let* optionPath0 := substr_from (String.length option) val in
    let* mo := match find_char chr_eq val with
               | Some equalPos =>
                   let* p := substr_from (S equalPos) val in Ok (append option "=", p)
               | None => Ok (option, optionPath0)
               end in
    let '(modifiedOption, optionPath) := mo in
    let replacedPath := modifyPathForRemote cfg host optionPath wd in
    let local_normalized_path := normalizePath host optionPath in
    let pc := if isDirectory host local_normalized_path
              then set_insert d_includeDirs replacedPath pc else pc in
    let pc := push_back d_command (append modifiedOption replacedPath) pc in
    let pc := if isOutput && negb depsOutput then set_insert d_commandProducts replacedPath pc
              else if isOutput then set_insert d_commandDepsProducts replacedPath pc
              else if toDeps
              then push_back d_dependenciesCommand (append modifiedOption optionPath) pc
              else pc in
    oc_pop_front pc.

(** [ParseRule::parseOptionIsUnsupported] *)
Definition parseOptionIsUnsupported_def (pc : ParsedCommand) : res ParsedCommand :=
  let pc := set_bool d_containsUnsupportedOptions true pc in
  let pc := append_vec d_dependenciesCommand (d_originalCommand pc) pc in
  let pc := append_vec d_command (d_originalCommand pc) pc in
  Ok (set_originalCommand [] pc).

Definition parseOptionSimple_def (wd : string) (pc : ParsedCommand) : res ParsedCommand :=
  appendAndRemoveOption wd false true false false pc.

Definition parseInterfersWithDepsOption_def (option : string) (pc : ParsedCommand)
  : res ParsedCommand :=
  let* f := oc_front pc in
  let pc :=
    if mem_str f ["-MMD"; "-MD"; "-xMMD"; "-xMD"] then set_bool d_md_option_set true pc
    else if is_AIX pc && (String.eqb option "-M" || String.eqb option "-qmakedep")
    then set_bool d_qmakedep_option_set true pc
    else if String.eqb f "-Wmissing-include-dirs" ||
            String.eqb f "-Werror=missing-include-dirs"
    then set_bool d_upload_all_include_dirs true pc
    else pc in
  let pc := push_back d_command f pc in
  oc_pop_front pc.

Definition parseIsCompileOption_def (wd : string) (pc : ParsedCommand) : res ParsedCommand :=
  let pc := set_bool d_compilerCommand true pc in
  appendAndRemoveOption wd false true false false pc.

Definition parseIsPreprocessorArgOption_def (option : string) (pc : ParsedCommand)
  : res ParsedCommand :=
  let* val := oc_front pc in
  let* pc :=
    if String.eqb option "-Wp," then
      let* optionList := substr_from (String.length option) val in
      Ok (append_vec d_preProcessorOptions (parseStageOptionList optionList) pc)
    else if String.eqb option "-Xpreprocessor" then
      let* pc := oc_pop_front pc in
      let* next := oc_front pc in
      Ok (push_back d_preProcessorOptions next pc)
    else Ok pc in
  oc_pop_front pc.

(** [parseIsMacro] and [parseLdOptionEmulation] have the same body. *)
Definition parseIsMacro_def (option : string) (pc : ParsedCommand) : res ParsedCommand :=
  let* token := oc_front pc in
  let pc := push_back d_dependenciesCommand token (push_back d_command token pc) in
  let* pc :=
    if String.eqb token option then
      let* pc := oc_pop_front pc in
      let* arg := oc_front pc in
      Ok (push_back d_dependenciesCommand arg (push_back d_command arg pc))
    else Ok pc in
  oc_pop_front pc.

Definition parseOptionSetsGccLanguage_def (wd option : string) (pc : ParsedCommand)
  : res ParsedCommand :=
  let* originalOption := oc_front pc in
  let* pc := oc_pop_front pc in
  let continue_with (language : string) (pc : ParsedCommand) :=
    let pc := oc_push_front originalOption pc in
    let pc := if mem_str language GccSupportedLanguages then pc
              else set_bool d_containsUnsupportedOptions true pc in
    parseGccOption wd option true false false pc in
  if String.eqb originalOption option then
    match d_originalCommand pc with
    | [] => Ok (set_bool d_containsUnsupportedOptions true pc)
    | language :: _ => continue_with language pc
    end
  else
    let* language := substr_from (String.length option) originalOption in
    continue_with language pc.

Definition parseOptionCoverageOutput_def (pc : ParsedCommand) : res ParsedCommand :=
  let* originalOption := oc_front pc in
  let* pc := oc_pop_front pc in
  let pc := set_bool d_coverage_option_set true pc in
  Ok (push_back d_command originalOption pc).

Definition parseOptionRedirectsCoverageOutput_def (wd : string) (pc : ParsedCommand)
  : res ParsedCommand :=
  let* originalOption := oc_front pc in
  let* pc := oc_pop_front pc in
  match find_char chr_eq originalOption with
  | Some equalPos =>
      let* optionPath := substr_from (S equalPos) originalOption in
      let replacedPath := modifyPathForRemote cfg host optionPath wd in
      let pc := set_insert d_commandCoverageProducts replacedPath pc in
      Ok (push_back d_command originalOption pc)
  | None => Ok (set_bool d_containsUnsupportedOptions true pc)
  end.

Definition parseOptionSplitDwarf_def (wd : string) (pc : ParsedCommand) : res ParsedCommand :=
  let pc := set_bool d_split_dwarf_option_set true pc in
  appendAndRemoveOption wd false true false false pc.

Definition parseOptionSolarisPhase_def (wd : string) (pc : ParsedCommand)
  : res ParsedCommand :=
  if Nat.ltb (List.length (d_originalCommand pc)) 3 then parseOptionIsUnsupported_def pc
  else
    let* pc := appendAndRemoveOption wd false true false false pc in
    let* pc := appendAndRemoveOption wd false true false false pc in
    appendAndRemoveOption wd false true false false pc.

Definition parseOptionNative_def (wd : string) (pc : ParsedCommand) : res ParsedCommand :=
  let* originalOption := oc_front pc in
  match find_char chr_eq originalOption with
  | Some equalPos =>
      let* machine := substr_from (S equalPos) originalOption in
      if String.eqb machine "native" then parseOptionIsUnsupported_def pc
      else appendAndRemoveOption wd false true false false pc
  | None => appendAndRemoveOption wd false true false false pc
  end.

Definition parseOptionParam_def (wd option : string) (pc : ParsedCommand)
  : res ParsedCommand :=
  let* val := oc_front pc in
  if String.eqb val option then
    if Nat.ltb (List.length (d_originalCommand pc)) 2 then parseOptionIsUnsupported_def pc
    else
      let* pc := appendAndRemoveOption wd false true false false pc in
      appendAndRemoveOption wd false true false false pc
  else appendAndRemoveOption wd false true false false pc.

Definition parseLdLibrary_def (wd option : string) (pc : ParsedCommand)
  : res ParsedCommand :=
  let* val := oc_front pc in
  let* r :=
    if String.eqb val option then
      let* pc := appendAndRemoveOption wd false false false false pc in
      let* library := oc_front pc in
      let* pc := appendAndRemoveOption wd false false false false pc in
      Ok (pc, library)
    else
      let* library0 := substr_from (String.length option) val in
      let* library := match find_char chr_eq val with
                      | Some equalPos => substr_from (S equalPos) val
                      | None => Ok library0
                      end in
      let* pc := appendAndRemoveOption wd false false false false pc in
      Ok (pc, library) in
  let '(pc, library) := r in
  if is_empty library then parseOptionIsUnsupported_def pc
  else if pc_bool pc d_bstatic then Ok (set_insert d_staticLibraries library pc)
  else Ok (set_insert d_libraries library pc).

Fixpoint parseLdLibraryPath_loop (wd option : string) (field : VecField)
  (tokens : list string) (pc : ParsedCommand) : res ParsedCommand :=
  match tokens with
  | [] => Ok pc
  | token :: rest =>
      if isDirectory host token then
        let pc := push_back d_command option pc in
        let pc := push_back d_command (modifyPathForRemote cfg host token wd) pc in
        parseLdLibraryPath_loop wd option field rest (push_back field token pc)
      else if String.eqb option "-R" && isRegularFile host token
      then parseOptionIsUnsupported_def pc
      else parseLdLibraryPath_loop wd option field rest pc
  end.

Definition parseLdLibraryPath_def (wd option : string) (pc : ParsedCommand)
  : res ParsedCommand :=
  let* val := oc_front pc in
  let* pc := oc_pop_front pc in
  let* r :=
    if String.eqb val option then
      let* libraryPath := oc_front pc in
      let* pc := oc_pop_front pc in
      Ok (pc, libraryPath)
    else
      let* libraryPath := substr_from (String.length option) val in
      Ok (pc, if String.eqb (prefix_of_len 1 libraryPath) "="
              then suffix_from 1 libraryPath else libraryPath) in
  let '(pc, libraryPath) := r in
  if is_empty libraryPath then parseOptionIsUnsupported_def pc
  else
    let field :=
      if String.eqb option "-rpath-link" || String.eqb option "--rpath-link"
      then d_rpathLinkDirs
      else if mem_str option ["-rpath"; "--rpath"; "-R"] then d_rpathDirs
      else d_libraryDirs in
    parseLdLibraryPath_loop wd option field (getline_split chr_colon libraryPath) pc.

Definition parseLdOptionDynamic_def (wd : string) (pc : ParsedCommand) : res ParsedCommand :=
  appendAndRemoveOption wd false true false false (set_bool d_bstatic false pc).

Definition parseLdOptionStatic_def (wd : string) (pc : ParsedCommand) : res ParsedCommand :=
  appendAndRemoveOption wd false true false false (set_bool d_bstatic true pc).

Definition parseLdOptionState_def (wd option : string) (pc : ParsedCommand)
  : res ParsedCommand :=
  if String.eqb option "--push-state" then
    let pc := set_bstaticStack (d_bstaticStack pc ++ [pc_bool pc d_bstatic]) pc in
    appendAndRemoveOption wd false true false false pc
  else if String.eqb option "--pop-state" then
    match List.rev (d_bstaticStack pc) with
    | top :: rest =>
        let pc := set_bool d_bstatic top pc in
        let pc := set_bstaticStack (List.rev rest) pc in
        appendAndRemoveOption wd false true false false pc
    | [] => parseOptionIsUnsupported_def pc
    end
  else parseOptionIsUnsupported_def pc.


Definition parseLdOptionEmulation_def (option : string) (pc : ParsedCommand)
  : res ParsedCommand :=
  parseIsMacro_def option pc.

(** The argument-reading prologue shared by [parseSolarisLdOptionB], [D] and
    [Y]: [inl] when it called [parseOptionIsUnsupported] and returned, [inr]
    with the argument otherwise. *)
Definition solarisLdArgument (wd option : string) (pc : ParsedCommand)
  : res (ParsedCommand + (ParsedCommand * string)) :=
  let* val := oc_front pc in
  if String.eqb val option then
    if Nat.ltb (List.length (d_originalCommand pc)) 2 then
      let* pc := parseOptionIsUnsupported_def pc in Ok (inl pc)
    else
      let* pc := appendAndRemoveOption wd false true false false pc in
      let* arg := oc_front pc in
      let* pc := appendAndRemoveOption wd false true false false pc in
      Ok (inr (pc, arg))
  else
    let* arg := substr_from (String.length option) val in
    let* pc := appendAndRemoveOption wd false true false false pc in
    Ok (inr (pc, arg)).

Definition parseSolarisLdOptionB_def (wd option : string) (pc : ParsedCommand)
  : res ParsedCommand :=
  let* r := solarisLdArgument wd option pc in
  match r with
  | inl pc => Ok pc
  | inr (pc, arg) =>
      Ok (if String.eqb arg "dynamic" then set_bool d_bstatic false pc
          else if String.eqb arg "static" then set_bool d_bstatic true pc
          else pc)
  end.

Definition parseSolarisLdOptionD_def (wd option : string) (pc : ParsedCommand)
  : res ParsedCommand :=
  let* r := solarisLdArgument wd option pc in
  match r with
  | inl pc => Ok pc
  | inr (pc, arg) =>
      Ok (if String.eqb arg "y" then set_bool d_bstatic false pc
          else if String.eqb arg "n" then set_bool d_bstatic true pc
          else pc)
  end.

Definition parseSolarisLdOptionY_def (wd option : string) (pc : ParsedCommand)
  : res ParsedCommand :=
  let* r := solarisLdArgument wd option pc in
  match r with
  | inl pc => Ok pc
  | inr (pc, arg) =>
      if String.eqb (prefix_of_len 2 arg) "P," then
        (* clear, then push back every token that is a directory *)
        Ok (set_vec d_defaultLibraryDirs
              (List.filter (isDirectory host) (getline_split chr_colon (suffix_from 2 arg)))
              pc)
      else parseOptionIsUnsupported_def pc
  end.

Definition parseSolarisLdMapfile_def (wd option : string) (pc : ParsedCommand)
  : res ParsedCommand :=
  let* val := oc_front pc in
  let* r :=
    if String.eqb val option then
      let* pc := appendAndRemoveOption wd false false false false pc in
      let* mapfile := oc_front pc in
      let* pc := appendAndRemoveOption wd false false false false pc in
      Ok (pc, mapfile)
    else
      let* mapfile := substr_from (String.length option) val in
      let* pc := appendAndRemoveOption wd false false false false pc in
      Ok (pc, mapfile) in
  let '(pc, mapfile) := r in
  if is_empty mapfile then parseOptionIsUnsupported_def pc
  else Ok (push_back d_auxInputFiles mapfile pc).

(** Calling the handler stored in a rule table, [handler(command, wd, option)]. *)
Definition run_handler (h : Handler) (wd option : string) (pc : ParsedCommand)
  : res ParsedCommand :=
  match h with
  | parseOptionSimple => parseOptionSimple_def wd pc
  | parseInterfersWithDepsOption => parseInterfersWithDepsOption_def option pc
  | parseIsInputPathOption => parseGccOption wd option true false false pc
  | parseIsEqualInputPathOption => parseGccOption wd option true false false pc
  | parseIsCompileOption => parseIsCompileOption_def wd pc
  | parseOptionRedirectsOutput => parseGccOption wd option false true false pc
  | parseOptionRedirectsDepsOutput => parseGccOption wd option false true true pc
  | parseOptionDepsRuleTarget => parseGccOption wd option false false false pc
  | parseIsPreprocessorArgOption => parseIsPreprocessorArgOption_def option pc
  | parseIsMacro => parseIsMacro_def option pc
  | parseOptionSetsGccLanguage => parseOptionSetsGccLanguage_def wd option pc
  | parseOptionIsUnsupported => parseOptionIsUnsupported_def pc
  | parseOptionCoverageOutput => parseOptionCoverageOutput_def pc
  | parseOptionSplitDwarf => parseOptionSplitDwarf_def wd pc
  | parseOptionSolarisPhase => parseOptionSolarisPhase_def wd pc
  | parseOptionRedirectsCoverageOutput => parseOptionRedirectsCoverageOutput_def wd pc
  | parseOptionNative => parseOptionNative_def wd pc
  | parseOptionParam => parseOptionParam_def wd option pc
  | parseLdLibrary => parseLdLibrary_def wd option pc
  | parseLdLibraryPath => parseLdLibraryPath_def wd option pc
  | parseLdOptionDynamic => parseLdOptionDynamic_def wd pc
  | parseLdOptionStatic => parseLdOptionStatic_def wd pc
  | parseLdOptionState => parseLdOptionState_def wd option pc
  | parseLdOptionEmulation => parseLdOptionEmulation_def option pc
  | parseSolarisLdOptionB => parseSolarisLdOptionB_def wd option pc
  | parseSolarisLdOptionD => parseSolarisLdOptionD_def wd option pc
  | parseSolarisLdOptionY => parseSolarisLdOptionY_def wd option pc
  | parseSolarisLdMapfile => parseSolarisLdMapfile_def wd option pc
  end.


(** One iteration of the [while] loop of [ParsedCommandFactory::parseCommand],
    for the front token [currToken]. *)
Definition parseCommand_step (parseRules : RulesMap.t) (wd currToken : string)
  (pc : ParsedCommand) : res ParsedCommand :=
  let positional (pc : ParsedCommand) :=
    let replacedPath := modifyPathForRemote cfg host currToken wd in
    let pc := push_back d_command replacedPath pc in
    let pc := push_back d_dependenciesCommand currToken pc in
    let pc := push_back d_inputFiles currToken pc in
    oc_pop_front pc in
  match matchCompilerOptions currToken parseRules with
  | Some (option, handler) => run_handler handler wd option pc
  | None =>
      if String.eqb currToken "-" then
        oc_pop_front (set_bool d_containsUnsupportedOptions true pc)
      else match front_char currToken with
      | Some c =>
          if Ascii.eqb c chr_at then
            oc_pop_front (set_bool d_containsUnsupportedOptions true pc)
          else if Ascii.eqb c chr_dash || (is_sun_studio pc && Ascii.eqb c chr_plus) then
            appendAndRemoveOption wd false true false false pc
          else positional pc
      | None => positional pc
      end
  end.

(** The loop, run with a bound on its iterations; every iteration removes at
    least one token (lemma [parseCommand_step_shrinks]), so the bound
    [1 + size] used by [parseCommand] is never reached. *)
Fixpoint parseCommand_loop (fuel : nat) (parseRules : RulesMap.t) (wd : string)
  (pc : ParsedCommand) : res ParsedCommand :=
  match d_originalCommand pc with
  | [] => Ok pc
  | currToken :: _ =>
      match fuel with
      | O => UB
      | S fuel' =>
          let* pc := parseCommand_step parseRules wd currToken pc in
          parseCommand_loop fuel' parseRules wd pc
      end
  end.

(** [ParsedCommandFactory::parseCommand] *)
Definition parseCommand (pc : ParsedCommand) (parseRules : RulesMap.t) (wd : string)
  : res ParsedCommand :=
  parseCommand_loop (S (List.length (d_originalCommand pc))) parseRules wd pc.


(** *** Every iteration of the loop removes at least one token *)

Definition oc_len (pc : ParsedCommand) : nat := List.length (d_originalCommand pc).

Lemma oc_pop_front_len pc pc' : oc_pop_front pc = Ok pc' -> oc_len pc' < oc_len pc.
Proof.
  unfold oc_pop_front, oc_len; destruct (d_originalCommand pc) eqn:E; intro H;
    inversion H; subst; simpl; lia.
Qed.

Lemma parseOptionIsUnsupported_len pc pc' :
  parseOptionIsUnsupported_def pc = Ok pc' -> oc_len pc' = 0.
Proof. unfold parseOptionIsUnsupported_def; intro H; inversion H; reflexivity. Qed.

Ltac res_inv :=
  repeat match goal with
  | H : rbind ?r _ = Ok _ |- _ =>
      let E := fresh "E" in destruct r eqn:E; cbn [rbind] in H; [| discriminate | discriminate]
  | H : Ok _ = Ok _ |- _ => injection H as H; subst
  | H : context [match ?x with _ => _ end] |- _ =>
      let E := fresh "E" in destruct x eqn:E
  end.

Ltac len_facts :=
  repeat match goal with
  | E : oc_pop_front _ = Ok _ |- _ => apply oc_pop_front_len in E
  | E : parseOptionIsUnsupported_def _ = Ok _ |- _ => apply parseOptionIsUnsupported_len in E
  end;
  unfold oc_len in *; simpl in *; try lia.

Lemma appendAndRemoveOption_len wd a b c d pc pc' :
  appendAndRemoveOption wd a b c d pc = Ok pc' -> oc_len pc' < oc_len pc.
Proof. unfold appendAndRemoveOption; intro H; res_inv; len_facts. Qed.

Lemma parseGccOption_len wd o a b c pc pc' :
  parseGccOption wd o a b c pc = Ok pc' -> oc_len pc' < oc_len pc.
Proof.
  unfold parseGccOption; intro H; res_inv;
  repeat match goal with
  | E : appendAndRemoveOption _ _ _ _ _ _ = Ok _ |- _ => apply appendAndRemoveOption_len in E
  end; len_facts.
Qed.


Lemma parseLdLibraryPath_loop_len wd o f toks pc pc' :
  parseLdLibraryPath_loop wd o f toks pc = Ok pc' -> oc_len pc' <= oc_len pc.
Proof.
  revert pc; induction toks as [|t toks IH]; simpl; intros pc H.
  - injection H as H; subst; lia.
  - destruct (isDirectory host t).
    + apply IH in H; unfold oc_len in *; simpl in *; lia.
    + destruct (String.eqb o "-R" && isRegularFile host t).
      * apply parseOptionIsUnsupported_len in H; lia.
      * apply IH in H; lia.
Qed.

Lemma solarisLdArgument_len wd o pc r :
  0 < oc_len pc -> solarisLdArgument wd o pc = Ok r ->
  match r with inl pc' | inr (pc', _) => oc_len pc' < oc_len pc end.
Proof.
  unfold solarisLdArgument; intros Hpos H; res_inv;
  repeat match goal with
  | E : appendAndRemoveOption _ _ _ _ _ _ = Ok _ |- _ => apply appendAndRemoveOption_len in E
  end; len_facts.
Qed.

Lemma run_handler_len h wd o pc pc' :
  0 < oc_len pc -> run_handler h wd o pc = Ok pc' -> oc_len pc' < oc_len pc.
Proof.
  intros Hpos H; destruct h; simpl in H;
  repeat match goal with
  | H : ?f _ = Ok _ |- _ => unfold f in H
  | H : ?f _ _ = Ok _ |- _ => unfold f in H
  | H : ?f _ _ _ = Ok _ |- _ => unfold f in H
  end; res_inv;
  repeat match goal with
  | E : appendAndRemoveOption _ _ _ _ _ _ = Ok _ |- _ => apply appendAndRemoveOption_len in E
  | E : parseGccOption _ _ _ _ _ _ = Ok _ |- _ => apply parseGccOption_len in E
  | E : parseLdLibraryPath_loop _ _ _ _ _ = Ok _ |- _ => apply parseLdLibraryPath_loop_len in E
  | E : solarisLdArgument _ _ _ = Ok _ |- _ => apply solarisLdArgument_len in E; [|assumption]
  end; len_facts;
  repeat match goal with |- context [if ?b then _ else _] => destruct b end;
  simpl; lia.
Qed.


Lemma parseCommand_step_shrinks rules wd t rest pc pc' :
  d_originalCommand pc = t :: rest ->
  parseCommand_step rules wd t pc = Ok pc' -> oc_len pc' < oc_len pc.
Proof.
  intros Hoc H; assert (Hpos : 0 < oc_len pc) by (unfold oc_len; rewrite Hoc; simpl; lia).
  unfold parseCommand_step in H.
  destruct (matchCompilerOptions t rules) as [[o h]|].
  - exact (run_handler_len h wd o pc pc' Hpos H).
  - res_inv;
    repeat match goal with
    | E : appendAndRemoveOption _ _ _ _ _ _ = Ok _ |- _ => apply appendAndRemoveOption_len in E
    end; len_facts.
Qed.

(** The bound on the iterations is never reached: any larger bound gives the
    same result. *)
Lemma parseCommand_loop_enough fuel rules wd pc k :
  oc_len pc < fuel ->
  parseCommand_loop fuel rules wd pc = parseCommand_loop (fuel + k) rules wd pc.
Proof.
  revert pc; induction fuel as [|fuel IH]; intros pc Hlt; [lia|].
  simpl. destruct (d_originalCommand pc) as [|t rest] eqn:Hoc; [reflexivity|].
  destruct (parseCommand_step rules wd t pc) as [pc1| |] eqn:Hs; cbn [rbind]; try reflexivity.
  apply IH. pose proof (parseCommand_step_shrinks rules wd t rest pc pc1 Hoc Hs). lia.
Qed.


(** *** Flags a parse step leaves alone *)

(** [d_linkerCommand] is untouched, and so is [d_compilerCommand] outside
    [parseIsCompileOption]. *)
Definition keeps_linker (pc pc' : ParsedCommand) : Prop :=
  pc_bool pc' d_linkerCommand = pc_bool pc d_linkerCommand.

Definition keeps_flags (pc pc' : ParsedCommand) : Prop :=
  pc_bool pc' d_linkerCommand = pc_bool pc d_linkerCommand /\
  pc_bool pc' d_compilerCommand = pc_bool pc d_compilerCommand.

Lemma oc_pop_front_flags pc pc' : oc_pop_front pc = Ok pc' -> keeps_flags pc pc'.
Proof.
  unfold oc_pop_front; destruct (d_originalCommand pc); intro H; inversion H; subst;
    split; reflexivity.
Qed.

Lemma parseOptionIsUnsupported_flags pc pc' :
  parseOptionIsUnsupported_def pc = Ok pc' -> keeps_flags pc pc'.
Proof. unfold parseOptionIsUnsupported_def; intro H; inversion H; split; reflexivity. Qed.

Ltac flag_facts :=
  repeat match goal with
  | E : oc_pop_front _ = Ok _ |- _ => apply oc_pop_front_flags in E
  | E : parseOptionIsUnsupported_def _ = Ok _ |- _ => apply parseOptionIsUnsupported_flags in E
  end;
  unfold keeps_flags, keeps_linker in *; simpl in *;
  repeat match goal with |- context [if ?b then _ else _] => destruct b end;
  simpl in *; intuition congruence.

Lemma appendAndRemoveOption_flags wd a b c d pc pc' :
  appendAndRemoveOption wd a b c d pc = Ok pc' -> keeps_flags pc pc'.
Proof. unfold appendAndRemoveOption; intro H; res_inv; flag_facts. Qed.

Ltac flag_facts2 :=
  repeat match goal with
  | E : appendAndRemoveOption _ _ _ _ _ _ = Ok _ |- _ => apply appendAndRemoveOption_flags in E
  end; flag_facts.

Lemma parseGccOption_flags wd o a b c pc pc' :
  parseGccOption wd o a b c pc = Ok pc' -> keeps_flags pc pc'.
Proof. unfold parseGccOption; intro H; res_inv; flag_facts2. Qed.

Lemma parseLdLibraryPath_loop_flags wd o f toks pc pc' :
  parseLdLibraryPath_loop wd o f toks pc = Ok pc' -> keeps_flags pc pc'.
Proof.
  revert pc; induction toks as [|t toks IH]; simpl; intros pc H.
  - injection H as H; subst; split; reflexivity.
  - destruct (isDirectory host t).
    + apply IH in H; unfold keeps_flags in *; simpl in *; exact H.
    + destruct (String.eqb o "-R" && isRegularFile host t).
      * apply parseOptionIsUnsupported_flags in H; exact H.
      * apply IH in H; exact H.
Qed.

Lemma solarisLdArgument_flags wd o pc r :
  solarisLdArgument wd o pc = Ok r ->
  match r with inl pc' | inr (pc', _) => keeps_flags pc pc' end.
Proof. unfold solarisLdArgument; intro H; res_inv; flag_facts2. Qed.

Lemma run_handler_flags h wd o pc pc' :
  run_handler h wd o pc = Ok pc' ->
  keeps_linker pc pc' /\ (h <> parseIsCompileOption -> keeps_flags pc pc').
Proof.
  intro H; destruct h; simpl in H;
  repeat match goal with
  | H : ?f _ = Ok _ |- _ => unfold f in H
  | H : ?f _ _ = Ok _ |- _ => unfold f in H
  | H : ?f _ _ _ = Ok _ |- _ => unfold f in H
  end; res_inv;
  repeat match goal with
  | E : appendAndRemoveOption _ _ _ _ _ _ = Ok _ |- _ => apply appendAndRemoveOption_flags in E
  | E : parseGccOption _ _ _ _ _ _ = Ok _ |- _ => apply parseGccOption_flags in E
  | E : parseLdLibraryPath_loop _ _ _ _ _ = Ok _ |- _ => apply parseLdLibraryPath_loop_flags in E
  | E : solarisLdArgument _ _ _ = Ok _ |- _ => apply solarisLdArgument_flags in E
  end; flag_facts.
Qed.


Lemma scan_prefix_In opt m o h :
  scan_prefix opt m = Some (o, h) -> In h (List.map snd m).
Proof.
  induction m as [|[k v] m IH]; simpl; [discriminate|].
  destruct (String.eqb _ k); [intro E; inversion E; subst; left; reflexivity|].
  intro E; right; auto.
Qed.

Lemma matchCompilerOptions_In t m o h :
  matchCompilerOptions t m = Some (o, h) -> In h (List.map snd m).
Proof.
  unfold matchCompilerOptions.
  destruct (front_char t); [|discriminate].
  destruct (_ || _); [|discriminate].
  destruct (RulesMap.find _ m) eqn:F.
  - intro E; inversion E; subst. apply RulesMap.find_In in F.
    change h with (snd (remove_chars c_isspace (trim_at_equal t), h)). apply in_map; exact F.
  - apply scan_prefix_In.
Qed.

Lemma parseCommand_step_flags rules wd t pc pc' :
  parseCommand_step rules wd t pc = Ok pc' ->
  keeps_linker pc pc' /\
  (~ In parseIsCompileOption (List.map snd rules) -> keeps_flags pc pc').
Proof.
  unfold parseCommand_step.
  destruct (matchCompilerOptions t rules) as [[o h]|] eqn:M; intro H.
  - apply run_handler_flags in H. destruct H as [H1 H2]. split; [exact H1|].
    intro Hn; apply H2; intro; subst; apply Hn; eapply matchCompilerOptions_In; exact M.
  - res_inv; flag_facts2.
Qed.

Lemma parseCommand_loop_flags fuel rules wd pc pc' :
  parseCommand_loop fuel rules wd pc = Ok pc' ->
  keeps_linker pc pc' /\
  (~ In parseIsCompileOption (List.map snd rules) -> keeps_flags pc pc').
Proof.
  revert pc; induction fuel as [|fuel IH]; intros pc H; simpl in H;
    destruct (d_originalCommand pc) as [|t rest];
    try (injection H as H; subst; unfold keeps_linker, keeps_flags; tauto); try discriminate.
  destruct (parseCommand_step rules wd t pc) as [pc1| |] eqn:S; cbn [rbind] in H; try discriminate.
  apply parseCommand_step_flags in S; apply IH in H.
  unfold keeps_linker, keeps_flags in *; intuition congruence.
Qed.

Lemma parseCommand_flags rules wd pc pc' :
  parseCommand pc rules wd = Ok pc' ->
  keeps_linker pc pc' /\
  (~ In parseIsCompileOption (List.map snd rules) -> keeps_flags pc pc').
Proof. apply parseCommand_loop_flags. Qed.


(** ** Constructing a [ParsedCommand] (parsedcommand.cpp) *)

(** Modelled from the spec: the compiler lists and default dependency
    commands of compilerdefaults.h, and the build-time
    [RECC_PLATFORM_COMPILER], which are not part of the sources; every
    theorem is stated for all of them. *)
Record CompilerDefaults : Type := mkCompilerDefaults {
  CCompilers : list string;
  Gcc : list string;
  GccPreprocessor : list string;
  SunCPP : list string;
  AIX : list string;
  GccDefaultDeps : list string;
  SunCPPDefaultDeps : list string;
  AIXDefaultDeps : list string;
  RECC_PLATFORM_COMPILER : option string
}.

Variable cd : CompilerDefaults.

Definition set_compiler (c : string) (pc : ParsedCommand) : ParsedCommand :=
  mkParsedCommand (pc_bool pc) (pc_vec pc) (pc_set pc) c (d_originalCommand pc)
    (d_dependencyFileAIX pc) (d_bstaticStack pc).

Definition set_dependencyFileAIX (f : option string) (pc : ParsedCommand) : ParsedCommand :=
  mkParsedCommand (pc_bool pc) (pc_vec pc) (pc_set pc) (d_compiler pc)
    (d_originalCommand pc) f (d_bstaticStack pc).

(** [FileUtils::isAbsolutePath] *)
Definition isAbsolutePath (path : string) : bool :=
  match front_char path with Some c => Ascii.eqb c chr_slash | None => false end.

(** [FileUtils::resolveSymlink] *)
Definition resolveSymlink (path : string) : string :=
  let target := getSymlinkContents host path in
  if isAbsolutePath target then target
  else
    let dirname := match rfind_char chr_slash path with
                   | Some lastSlash => prefix_of_len (S lastSlash) path
                   | None => EmptyString
                   end in
    append dirname target.

Definition is_version_character (c : ascii) : bool :=
  let n := nat_of_ascii c in
  (Nat.leb 48 n && Nat.leb n 57) || Ascii.eqb c chr_dot || Ascii.eqb c chr_dash.

(** [while (length > 0 && is_version_character(basename[length - 1])) --length;] *)
Fixpoint strip_version_length (length : nat) (basename : string) : nat :=
  match length with
  | O => O
  | S l =>
      match String.get l basename with
      | Some c => if is_version_character c then strip_version_length l basename else length
      | None => length
      end
  end.

(** The tail of [commandBasename] for names outside [CCompilers]. *)
Definition strip_compiler_suffixes (basename : string) : string :=
  let length := String.length basename in
  let length :=
    if Nat.ltb 2 length && String.eqb (suffix_from (length - 2) basename) "_r" then length - 2
    else if Nat.ltb 3 length && String.eqb (substring (length - 3) 2 basename) "_r"
    then length - 3
    else length in
  prefix_of_len (strip_version_length length basename) basename.

(** [ParsedCommand::commandBasename(path, symlinks)], with
    [budget = 40 - symlinks] links left to follow. *)
Fixpoint commandBasename_aux (budget : nat) (path : string) : res string :=
  let basename := match rfind_char chr_slash path with
                  | Some lastSlash => suffix_from (S lastSlash) path
                  | None => path
                  end in
  if mem_str basename (CCompilers cd) then
    let absolutePath := getPathToCommand host path in
    if negb (is_empty absolutePath) && isSymlink host absolutePath then
      match budget with
      | O => Throw "std::system_error"     (* ELOOP *)
      | S budget' => commandBasename_aux budget' (resolveSymlink absolutePath)
      end
    else Ok (match RECC_PLATFORM_COMPILER cd with Some c => c | None => basename end)
  else Ok (strip_compiler_suffixes basename).

Definition commandBasename (path : string) : res string := commandBasename_aux 40 path.

(** [ParsedCommand::ParsedCommand(command, workingDirectory)]; the AIX
    temporary file is named [temporaryFileName host]. *)
Definition makeParsedCommand (command : list string) (wd : string) : res ParsedCommand :=
  match command with
  | [] => Ok emptyParsedCommand
  | compiler :: args =>
      if is_empty compiler then Ok emptyParsedCommand
      else
        let* name := commandBasename compiler in
        let pc := set_compiler name emptyParsedCommand in
        let pc :=
          if mem_str name (Gcc cd) then
            let isClang := String.eqb name "clang" || String.eqb name "clang++" in
            let pc := set_vec d_defaultDepsCommand (GccDefaultDeps cd) pc in
            let pc := set_bool d_isClang isClang pc in
            set_bool d_isGcc (negb isClang) pc
          else if mem_str name (SunCPP cd) then
            let pc := set_vec d_defaultDepsCommand (SunCPPDefaultDeps cd) pc in
            let pc := set_bool d_producesSunMakeRules true pc in
            set_bool d_isSunStudio true pc
          else if mem_str name (AIX cd) then
            let pc := set_vec d_defaultDepsCommand (AIXDefaultDeps cd) pc in
            let pc := set_bool d_producesSunMakeRules true pc in
            let pc := set_dependencyFileAIX (Some (temporaryFileName host)) pc in
            push_back d_defaultDepsCommand (temporaryFileName host) pc
          else pc in
        let pc := if pc_bool pc d_isClang && RECC_DEPS_GLOBAL_PATHS cfg
                  then push_back d_defaultDepsCommand "-v" pc else pc in
        let replacedCompilerPath := modifyPathForRemote' cfg host compiler wd false in
        let pc := push_back d_command replacedCompilerPath pc in
        let pc := push_back d_dependenciesCommand compiler pc in
        Ok (set_originalCommand args pc)
  end.


(** ** The factory (parsedcommandfactory.cpp) *)

(** [getParsedCommandMap()], listed in the order written; the lookup below
    takes the first key set holding the compiler. *)
Definition getParsedCommandMap : list (list string * RulesMap.t) :=
  [(Gcc cd, GccRules); (GccPreprocessor cd, GccPreprocessorRules);
   (SunCPP cd, SunCPPRules); (AIX cd, AixRules)].

Fixpoint find_rules (compiler : string) (m : list (list string * RulesMap.t))
  : option RulesMap.t :=
  match m with
  | [] => None
  | (compilers, rules) :: m' =>
      if mem_str compiler compilers then Some rules else find_rules compiler m'
  end.

(** [for (a : xs) s.insert(a);] *)
Definition insert_all (f : SetField) (xs : list string) (pc : ParsedCommand) : ParsedCommand :=
  List.fold_left (fun pc a => set_insert f a pc) xs pc.

Definition with_Xpreprocessor (xs : list string) : list string :=
  List.flat_map (fun a => ["-Xpreprocessor"; a]) xs.

(** [ParsedCommandFactory::createParsedCommand(command, workingDirectory)] *)
Definition createParsedCommand (command : list string) (wd : string) : res ParsedCommand :=
  match command with
  | [] => Ok emptyParsedCommand
  | _ :: _ =>
      let* pc := makeParsedCommand command wd in
      match find_rules (d_compiler pc) getParsedCommandMap with
      | None => Ok (set_bool d_containsUnsupportedOptions true pc)
      | Some rulesToUse =>
          let* pc := parseCommand pc rulesToUse wd in
          match pc_bool pc d_containsUnsupportedOptions, pc_vec pc d_inputFiles with
          | true, _ | false, [] => Ok (set_bool d_compilerCommand false pc)
          | false, _ :: _ =>
              let pc := if negb (is_compiler_command pc)
                        then set_bool d_linkerCommand true pc else pc in
              let* pc :=
                match pc_vec pc d_preProcessorOptions with
                | [] => Ok pc
                | _ :: _ =>
                    let pre := set_originalCommand (pc_vec pc d_preProcessorOptions)
                                 emptyParsedCommand in
                    let* pre := parseCommand pre GccPreprocessorRules wd in
                    let pc := append_vec d_command
                                (with_Xpreprocessor (pc_vec pre d_command)) pc in
                    let pc := append_vec d_dependenciesCommand
                                (with_Xpreprocessor (pc_vec pre d_dependenciesCommand)) pc in
                    let pc := insert_all d_commandProducts (pc_set pre d_commandProducts) pc in
                    let pc := insert_all d_commandDepsProducts
                                (pc_set pre d_commandDepsProducts) pc in
                    Ok (set_bool d_md_option_set
                          (pc_bool pre d_md_option_set || pc_bool pc d_md_option_set) pc)
                end in
              let pc := append_vec d_dependenciesCommand (pc_vec pc d_defaultDepsCommand) pc in
              Ok (set_originalCommand (command ++ d_originalCommand pc) pc)
          end
      end
  end.

(** [ParsedCommandFactory::createParsedLinkerCommand]; [on_sun] is the
    [__sun] build switch choosing [SolarisLdRules] over [LdRules]. *)
Definition createParsedLinkerCommand (on_sun : bool) (command : list string) (wd : string)
  : res ParsedCommand :=
  let* pc := makeParsedCommand command wd in
  let* pc := parseCommand pc (if on_sun then SolarisLdRules else LdRules) wd in
  if pc_bool pc d_containsUnsupportedOptions || is_compiler_command pc then Ok pc
  else
    let pc := set_bool d_linkerCommand true pc in
    Ok (set_originalCommand (command ++ d_originalCommand pc) pc).

End Handlers.


(** *** Facts about the factory *)

Lemma makeParsedCommand_flags cfg host cd command wd pc :
  makeParsedCommand cfg host cd command wd = Ok pc ->
  pc_bool pc d_linkerCommand = false /\ pc_bool pc d_compilerCommand = false.
Proof.
  unfold makeParsedCommand; destruct command as [|compiler args];
    [intro H; injection H as <-; split; reflexivity|].
  destruct (is_empty compiler); [intro H; injection H as <-; split; reflexivity|].
  destruct (commandBasename _ _ compiler) as [name| |]; cbn [rbind];
    try discriminate; intro H; injection H as <-.
  repeat match goal with |- context [if ?b then _ else _] => destruct b end;
    split; reflexivity.
Qed.

Lemma insert_all_bool f xs pc : pc_bool (insert_all f xs pc) = pc_bool pc.
Proof.
  unfold insert_all; revert pc; induction xs as [|x xs IH]; intro pc; simpl;
    [reflexivity|rewrite IH; reflexivity].
Qed.

Definition not_compile_handler (h : Handler) : bool :=
  match h with parseIsCompileOption => false | _ => true end.

Lemma no_compile_handler (rules : RulesMap.t) :
  forallb not_compile_handler (List.map snd rules) = true ->
  ~ In parseIsCompileOption (List.map snd rules).
Proof.
  intros H Hin; rewrite forallb_forall in H; apply H in Hin; discriminate.
Qed.

Lemma LdRules_no_compile (on_sun : bool) :
  ~ In parseIsCompileOption (List.map snd (if on_sun then SolarisLdRules else LdRules)).
Proof. apply no_compile_handler; destruct on_sun; vm_compute; reflexivity. Qed.


(** ** [FileUtils::lastNSegments] (fileutils.cpp) *)

(** [s[i] == c], for [i < s.size()] *)
Definition char_at_is (s : string) (i : nat) (c : ascii) : bool :=
  match String.get i s with Some d => Ascii.eqb d c | None => false end.

(** The backwards scan: [i] is [substringStart - path_p], [len] is
    [substringLength]; it returns the segment string when the [n]-th slash is
    met, and the number of slashes seen otherwise. *)
Fixpoint lastNSegments_scan (path : string) (n : Z) (i len : nat) (slashesSeen : Z)
  : string + Z :=
  match i with
  | O => inr slashesSeen
  | S i' =>
      if char_at_is path i' chr_slash then
        let slashesSeen := (slashesSeen + 1)%Z in
        if Z.eqb slashesSeen n then inl (substring i len path)
        else lastNSegments_scan path n i' (S len) slashesSeen
      else lastNSegments_scan path n i' (S len) slashesSeen
  end.

(** [strlen(s.c_str())]: the number of characters before the first NUL. *)
Fixpoint strlen (s : string) : nat :=
  match s with
  | EmptyString => O
  | String c s' => if Ascii.eqb c "000"%char then O else S (strlen s')
  end.

(** The C string [path.c_str()] ends at its first NUL, so the function sees
    only [strlen(path_p)] characters; [path_p[pathLength - 1]] reads before
    the buffer when that length is 0. *)
Definition lastNSegments (path : string) (n : Z) : res string :=
  if Z.eqb n 0 then Ok EmptyString
  else
    let pathLength := strlen path in
    match pathLength with
    | O => UB
    | S last =>
        let substringLength :=
          if char_at_is path last chr_slash then 0 else 1 in
        match lastNSegments_scan path n last substringLength 0 with
        | inl s => Ok s
        | inr slashesSeen =>
            if Z.eqb slashesSeen 0 && Z.eqb n 1 then Ok (prefix_of_len pathLength path)
            else Throw "std::logic_error"
        end
    end.

(** ** Products of a compile command (deps.cpp) *)

Definition suffix_in (suffixes : list string) (file : string) : bool :=
  match rfind_char chr_dot file with
  | Some pos => mem_str (suffix_from (S pos) file) suffixes
  | None => false
  end.

Definition is_header_file (file : string) : bool :=
  suffix_in ["h"; "hh"; "H"; "hp"; "hxx"; "hpp"; "HPP"; "h++"; "tcc"] file.

Definition is_source_file (file : string) : bool :=
  suffix_in ["cc"; "c"; "cp"; "cxx"; "cpp"; "CPP"; "c++"; "C"] file.

Definition is_aux_input_file (file : string) (pc : ParsedCommand) : bool :=
  is_sun_studio pc && suffix_in ["il"] file.

Definition is_object_file (file : string) : bool := suffix_in ["a"; "o"; "so"] file.

(** The validation loop of [Deps::determine_products]: the sets of headers,
    sources and objects. *)
Fixpoint classify_inputs (pc : ParsedCommand) (inputs : list string)
  (acc : list string * list string * list string)
  : res (list string * list string * list string) :=
  match inputs with
  | [] => Ok acc
  | sourceFile :: rest =>
      let '(headers, sources, objects) := acc in
      if is_compiler_command pc && is_header_file sourceFile then
        classify_inputs pc rest (StdSet.insert sourceFile headers, sources, objects)
      else if is_compiler_command pc && is_source_file sourceFile then
        classify_inputs pc rest (headers, StdSet.insert sourceFile sources, objects)
      else if is_compiler_command pc && is_aux_input_file sourceFile pc then
        classify_inputs pc rest acc
      else if is_linker_command pc && is_object_file sourceFile then
        classify_inputs pc rest (headers, sources, StdSet.insert sourceFile objects)
      else Throw "std::invalid_argument"
  end.

Definition insert_list (xs result : list string) : list string :=
  List.fold_left (fun r x => StdSet.insert x r) xs result.

(** [Deps::determine_products] *)
Definition determine_products (pc : ParsedCommand) : res (list string) :=
  let* hso := classify_inputs pc (pc_vec pc d_inputFiles) ([], [], []) in
  let '(headers, sources, objects) := hso in
  match headers, sources, objects with
  | [], [], [] => Ok []
  | _, _, _ =>
      let products := get_products pc in
      let result :=
        match products with
        | _ :: _ => insert_list products []
        | [] =>
            if is_linker_command pc then ["a.out"]
            else insert_list (List.map (fun s => stripDirectory (replaceSuffix s ".o")) sources)
                   (insert_list (List.map (fun h => append h ".gch") headers) [])
        end in
      let per_input (suffix : string) (r : list string) :=
        insert_list (List.map (fun s => stripDirectory (replaceSuffix s suffix)) sources)
          (insert_list (List.map (fun h => stripDirectory (replaceSuffix h suffix)) headers) r) in
      let result :=
        if pc_bool pc d_md_option_set || pc_bool pc d_qmakedep_option_set then
          let suffix := if pc_bool pc d_md_option_set then ".d" else ".u" in
          match get_deps_products pc, products with
          | (_ :: _) as dp, _ => insert_list dp result
          | [], _ :: _ => insert_list (List.map (fun p => replaceSuffix p suffix) products) result
          | [], [] => per_input suffix result
          end
        else result in
      let result :=
        if pc_bool pc d_coverage_option_set then
          match get_coverage_products pc, products with
          | (_ :: _) as cp, _ => insert_list cp result
          | [], _ :: _ => insert_list (List.map (fun p => replaceSuffix p ".gcno") products) result
          | [], [] => per_input ".gcno" result
          end
        else result in
      let result :=
        if pc_bool pc d_split_dwarf_option_set then
          match products with
          | _ :: _ =>
              match sources with
              | _ :: _ => insert_list (List.map (fun p => replaceSuffix p ".dwo") products) result
              | [] => result
              end
          | [] => insert_list (List.map (fun s => stripDirectory (replaceSuffix s ".dwo")) sources)
                    result
          end
        else result in
      Ok result
  end.


(** [s.substr(pos)] with a [std::size_t] position given as an integer. *)
Definition substr_from_Z (pos : Z) (s : string) : res string :=
  if Z.leb pos (Z.of_nat (String.length s)) then Ok (suffix_from (Z.to_nat pos) s)
  else Throw "std::out_of_range".

(** [product.size() - 2] in [std::size_t] arithmetic (64 bits). *)
Definition size_minus_2 (s : string) : Z :=
  Z.modulo (Z.of_nat (String.length s) - 2) (2 ^ 64).

(** The loop of [Deps::get_file_info] over the products: the possible
    products (normalized) and the object targets. *)
Fixpoint product_loop (host : Host) (products : list string)
  (acc : list string * list string) : res (list string * list string) :=
  match products with
  | [] => Ok acc
  | product :: rest =>
      let '(possibleProducts, objectTargets) := acc in
      let possibleProducts := StdSet.insert (normalizePath host product) possibleProducts in
      let* suffix := substr_from_Z (size_minus_2 product) product in
      let objectTargets := if String.eqb suffix ".o"
                           then objectTargets ++ [product] else objectTargets in
      product_loop host rest (possibleProducts, objectTargets)
  end.

(** [Deps::get_file_info] up to the end of that loop; [None] is the
    [LinkDeps::get_file_info] branch for linker commands. *)
Definition get_file_info_products (host : Host) (pc : ParsedCommand)
  : res (option (list string * list string)) :=
  if is_linker_command pc then Ok None
  else
    let* products := determine_products pc in
    let* r := product_loop host products ([], []) in
    Ok (Some r).

(** ** A sample environment for evaluating the model *)

(** Every path is a plain relative or absolute name: normalization and
    relativization leave it alone, nothing is a directory or a symlink. *)
Definition example_host : Host :=
  mkHost (fun p => p) (fun p _ => p) (fun _ => false) (fun _ => false)
    (fun p => p) (fun _ => false) (fun p => p) "/tmp/recc-deps".

(** No prefix map, no project root, path rewriting on. *)
Definition example_config : Config := mkConfig [] "" false false.

Definition example_languages : list string := ["c"; "c++"; "assembler"].

(** A sample of the compiler lists of compilerdefaults.h. *)
Definition example_defaults : CompilerDefaults :=
  mkCompilerDefaults ["cc"; "c++"] ["gcc"; "g++"; "clang"; "clang++"] ["cpp"]
    ["CC"] ["xlc"; "xlc++"] ["-M"] ["-xM"] ["-qsyntaxonly"; "-M"; "-MF"] None.


(** Sample parsed commands. *)
Definition example_compile_pc (command : list string) : ParsedCommand :=
  match createParsedCommand example_config example_host example_languages example_defaults
          command "/w" with
  | Ok pc => pc
  | _ => emptyParsedCommand
  end.

Lemma product_loop_short host products acc :
  (exists p, In p products /\ String.length p < 2) ->
  product_loop host products acc = Throw "std::out_of_range".
Proof.
  revert acc; induction products as [|p ps IH]; intros [pa ob] [q [Hin Hlen]];
    [destruct Hin|].
  simpl. unfold substr_from_Z, size_minus_2.
  destruct Hin as [->|Hin].
  - replace (Z.leb _ _) with false; [reflexivity|].
    symmetry; apply Z.leb_gt.
    assert (String.length q = 0 \/ String.length q = 1) as [E|E] by lia; rewrite E;
      vm_compute; reflexivity.
  - destruct (Z.leb _ _); cbn [rbind]; [|reflexivity].
    apply IH; exists q; split; assumption.
Qed.


(** The inputs [determine_products] files as headers, sources and objects. *)
Definition recognized_input (pc : ParsedCommand) (f : string) : bool :=
  is_compiler_command pc && (is_header_file f || is_source_file f || is_aux_input_file f pc)
  || is_linker_command pc && is_object_file f.

Definition header_inputs (pc : ParsedCommand) (l : list string) : list string :=
  List.filter (fun f => is_compiler_command pc && is_header_file f) l.

Definition source_inputs (pc : ParsedCommand) (l : list string) : list string :=
  List.filter (fun f => is_compiler_command pc && negb (is_header_file f) && is_source_file f) l.

Definition object_inputs (pc : ParsedCommand) (l : list string) : list string :=
  List.filter (fun f => negb (is_compiler_command pc &&
                               (is_header_file f || is_source_file f || is_aux_input_file f pc))
                        && is_linker_command pc && is_object_file f) l.

Lemma insert_list_In x xs r : In x (insert_list xs r) <-> In x xs \/ In x r.
Proof.
  unfold insert_list; revert r; induction xs as [|y xs IH]; intro r; simpl.
  - tauto.
  - rewrite IH, StdSet.In_insert. intuition congruence.
Qed.

Lemma classify_inputs_fail pc inputs acc :
  forallb (recognized_input pc) inputs = false ->
  classify_inputs pc inputs acc = Throw "std::invalid_argument".
Proof.
  revert acc; induction inputs as [|f l IH]; intros [[h s] o]; simpl; [discriminate|].
  unfold recognized_input at 1.
  destruct (is_compiler_command pc), (is_header_file f), (is_source_file f),
    (is_aux_input_file f pc), (is_linker_command pc), (is_object_file f);
    simpl; intro H; try discriminate; try reflexivity; apply IH; exact H.
Qed.

Lemma classify_inputs_ok pc inputs h0 s0 o0 :
  forallb (recognized_input pc) inputs = true ->
  exists h s o, classify_inputs pc inputs (h0, s0, o0) = Ok (h, s, o) /\
    (forall x, In x h <-> In x h0 \/ In x (header_inputs pc inputs)) /\
    (forall x, In x s <-> In x s0 \/ In x (source_inputs pc inputs)) /\
    (forall x, In x o <-> In x o0 \/ In x (object_inputs pc inputs)).
Proof.
  revert h0 s0 o0; induction inputs as [|f l IH]; intros h0 s0 o0; simpl.
  - intros _. exists h0, s0, o0. repeat split; intuition.
  - unfold recognized_input at 1, header_inputs, source_inputs, object_inputs; simpl.
    fold (header_inputs pc l) (source_inputs pc l) (object_inputs pc l).
    destruct (is_compiler_command pc), (is_header_file f), (is_source_file f),
      (is_aux_input_file f pc), (is_linker_command pc), (is_object_file f);
      simpl; intro H; try discriminate;
      match goal with
      | |- exists h s o, classify_inputs _ _ (?h1, ?s1, ?o1) = _ /\ _ =>
          destruct (IH h1 s1 o1 H) as (h & s & o & E & Hh & Hs & Ho)
      end;
      exists h, s, o; (split; [exact E|]);
      (split; [|split]); intro x;
      rewrite ?Hh, ?Hs, ?Ho, ?StdSet.In_insert; simpl; intuition.
Qed.

Lemma nil_iff_same (a b : list string) :
  (forall x, In x a <-> In x b) -> (a = [] <-> b = []).
Proof.
  intro H; destruct a as [|x a], b as [|y b]; split; intro E; try reflexivity; try discriminate.
  - destruct (proj2 (H y) (or_introl eq_refl)).
  - destruct (proj1 (H x) (or_introl eq_refl)).
Qed.


(** ** Make rules (deps.cpp) *)

(** The loop state of [Deps::dependencies_from_make_rules]. *)
Record MakeState : Type := mkMakeState {
  ms_result : list string;
  ms_saw_colon_on_line : bool;
  ms_saw_backslash : bool;
  ms_current_filename : string
}.

Definition make_step (is_sun_format : bool) (st : MakeState) (character : ascii) : MakeState :=
  let '(mkMakeState result colon backslash current) := st in
  let insert_current := if is_empty current then result else StdSet.insert current result in
  if backslash then
    mkMakeState result colon false
      (if negb (Ascii.eqb character chr_nl) && colon then push_char current character
       else current)
  else if Ascii.eqb character chr_bslash then mkMakeState result colon true current
  else if Ascii.eqb character chr_colon && negb colon then mkMakeState result true false current
  else if Ascii.eqb character chr_nl then mkMakeState insert_current false false EmptyString
  else if Ascii.eqb character chr_space then
    if is_sun_format then
      mkMakeState result colon false
        (if negb (is_empty current) && colon then push_char current character else current)
    else mkMakeState insert_current colon false EmptyString
  else if colon then mkMakeState result colon false (push_char current character)
  else st.

Fixpoint make_run (is_sun_format : bool) (st : MakeState) (s : string) : MakeState :=
  match s with
  | EmptyString => st
  | String c s' => make_run is_sun_format (make_step is_sun_format st c) s'
  end.

(** The set the function returns from a loop state: the pending filename
    is inserted after the loop. *)
Definition make_final (st : MakeState) : list string :=
  if is_empty (ms_current_filename st) then ms_result st
  else StdSet.insert (ms_current_filename st) (ms_result st).

(** [Deps::dependencies_from_make_rules] *)
Definition dependencies_from_make_rules (rules : string) (is_sun_format : bool) : list string :=
  make_final (make_run is_sun_format (mkMakeState [] false false EmptyString) rules).

(** Rule strings [target ":" sep f1 sep f2 ... sep fn sep ["\n"]], the
    separators made of spaces and backslash-newline continuations. *)
Inductive SepPiece : Type := Space | Continuation.

Definition render_piece (p : SepPiece) : string :=
  match p with
  | Space => " "
  | Continuation => String chr_bslash (String chr_nl EmptyString)
  end.

Fixpoint render_sep (s : list SepPiece) : string :=
  match s with
  | [] => EmptyString
  | p :: s' => append (render_piece p) (render_sep s')
  end.

Fixpoint render_items (items : list (list SepPiece * string)) : string :=
  match items with
  | [] => EmptyString
  | (s, f) :: items' => append (render_sep s) (append f (render_items items'))
  end.

Definition make_rule (target : string) (items : list (list SepPiece * string))
  (trail : list SepPiece) (final_newline : bool) : string :=
  append target (append ":" (append (render_items items)
    (append (render_sep trail) (if final_newline then String chr_nl EmptyString
                                else EmptyString)))).

Definition has_space (s : list SepPiece) : bool :=
  existsb (fun p => match p with Space => true | Continuation => false end) s.

Fixpoint string_forall (P : ascii -> bool) (s : string) : bool :=
  match s with
  | EmptyString => true
  | String c s' => P c && string_forall P s'
  end.

Definition target_ok (target : string) : bool :=
  string_forall (fun c => negb (Ascii.eqb c chr_colon || Ascii.eqb c chr_bslash ||
                                Ascii.eqb c chr_nl)) target.

Definition filename_ok (f : string) : bool :=
  negb (is_empty f) &&
  string_forall (fun c => negb (Ascii.eqb c chr_space || Ascii.eqb c chr_bslash ||
                                Ascii.eqb c chr_nl)) f.

(** Two consecutive filenames are separated by at least one space. *)
Definition items_ok (items : list (list SepPiece * string)) : bool :=
  forallb (fun '(_, f) => filename_ok f) items &&
  forallb (fun '(s, _) => has_space s) (List.tl items).

(** The names a rule denotes when only the space character separates them:
    a filename whose separator holds no space is glued onto the name before
    it; empty names are dropped. *)
Fixpoint join_groups (cur : string) (items : list (list SepPiece * string)) : list string :=
  match items with
  | [] => [cur]
  | (s, f) :: items' =>
      if has_space s then cur :: join_groups f items'
      else join_groups (append cur f) items'
  end.

Definition joined_names (items : list (list SepPiece * string)) : list string :=
  List.filter (fun f => negb (is_empty f)) (join_groups EmptyString items).


Lemma append_assoc_str (a b c : string) : append (append a b) c = append a (append b c).
Proof. induction a as [|x a IH]; simpl; [reflexivity|rewrite IH; reflexivity]. Qed.

Lemma append_empty_r (a : string) : append a EmptyString = a.
Proof. induction a as [|x a IH]; simpl; [reflexivity|rewrite IH; reflexivity]. Qed.

Lemma make_run_app b st x y :
  make_run b st (append x y) = make_run b (make_run b st x) y.
Proof. revert st; induction x as [|c x IH]; intro st; simpl; [reflexivity|apply IH]. Qed.

Lemma make_run_target t :
  target_ok t = true ->
  make_run false (mkMakeState [] false false EmptyString) t = mkMakeState [] false false EmptyString.
Proof.
  induction t as [|c t IH]; simpl; [reflexivity|].
  intro H; apply andb_prop in H; destruct H as [Hc Ht].
  destruct (Ascii.eqb c chr_colon), (Ascii.eqb c chr_bslash), (Ascii.eqb c chr_nl);
    try discriminate.
  destruct (Ascii.eqb c chr_space); apply IH; exact Ht.
Qed.

Lemma make_run_sep s R c :
  make_run false (mkMakeState R true false c) (render_sep s) =
  if has_space s then mkMakeState (make_final (mkMakeState R true false c)) true false EmptyString
  else mkMakeState R true false c.
Proof.
  revert R c; induction s as [|[|] s IH]; intros R c; simpl; [reflexivity| |].
  - rewrite IH. unfold make_final; simpl.
    destruct (has_space s); reflexivity.
  - apply IH.
Qed.

Lemma make_run_filename f R c :
  string_forall (fun c => negb (Ascii.eqb c chr_space || Ascii.eqb c chr_bslash ||
                                Ascii.eqb c chr_nl)) f = true ->
  make_run false (mkMakeState R true false c) f = mkMakeState R true false (append c f).
Proof.
  revert c; induction f as [|ch f IH]; intros c H; simpl.
  - rewrite append_empty_r; reflexivity.
  - simpl in H; apply andb_prop in H; destruct H as [Hc Hf].
    destruct (Ascii.eqb ch chr_space), (Ascii.eqb ch chr_bslash), (Ascii.eqb ch chr_nl);
      try discriminate.
    destruct (Ascii.eqb ch chr_colon); simpl; rewrite (IH _ Hf);
      unfold push_char, str1; rewrite append_assoc_str; reflexivity.
Qed.

Lemma make_run_items items R c :
  forallb (fun '(_, f) => filename_ok f) items = true ->
  forallb (fun '(s, _) => has_space s) items = true ->
  exists R' c',
    make_run false (mkMakeState R true false c) (render_items items) = mkMakeState R' true false c' /\
    make_final (mkMakeState R' true false c') =
    List.fold_left (fun s x => StdSet.insert x s) (List.map snd items)
      (make_final (mkMakeState R true false c)).
Proof.
  revert R c; induction items as [|[s f] items IH]; intros R c Hf Hs; simpl in *.
  - exists R, c; split; reflexivity.
  - apply andb_prop in Hf; destruct Hf as [Hf1 Hf]; apply andb_prop in Hs; destruct Hs as [Hs1 Hs].
    unfold filename_ok in Hf1; apply andb_prop in Hf1; destruct Hf1 as [Hne Hchars].
    rewrite make_run_app, make_run_sep, Hs1, make_run_app, make_run_filename by exact Hchars.
    destruct (IH (make_final (mkMakeState R true false c)) (append EmptyString f) Hf Hs)
      as (R' & c' & E & F).
    exists R', c'; split; [exact E|]. rewrite F. simpl.
    unfold make_final at 2; simpl. destruct f; [discriminate|reflexivity].
Qed.

Lemma make_run_items_joined items R c :
  forallb (fun '(_, f) => filename_ok f) items = true ->
  exists R' c',
    make_run false (mkMakeState R true false c) (render_items items) = mkMakeState R' true false c' /\
    make_final (mkMakeState R' true false c') =
    List.fold_left (fun s x => StdSet.insert x s)
      (List.filter (fun f => negb (is_empty f)) (join_groups c items)) R.
Proof.
  revert R c; induction items as [|[s f] items IH]; intros R c Hf; simpl in *.
  - exists R, c; split; [reflexivity|].
    unfold make_final; simpl. destruct (is_empty c); reflexivity.
  - apply andb_prop in Hf; destruct Hf as [Hf1 Hf].
    unfold filename_ok in Hf1; apply andb_prop in Hf1; destruct Hf1 as [Hne Hchars].
    rewrite make_run_app, make_run_sep, make_run_app.
    destruct (has_space s).
    + rewrite make_run_filename by exact Hchars.
      destruct (IH (make_final (mkMakeState R true false c)) (append EmptyString f) Hf)
        as (R' & c' & E & F).
      exists R', c'; split; [exact E|]. rewrite F. simpl.
      unfold make_final; simpl. destruct (is_empty c); reflexivity.
    + rewrite make_run_filename by exact Hchars.
      exact (IH R (append c f) Hf).
Qed.

Lemma make_run_trail R c trail (final_newline : bool) :
  make_final (make_run false (make_run false (mkMakeState R true false c) (render_sep trail))
    (if final_newline then String chr_nl EmptyString else EmptyString)) =
  make_final (mkMakeState R true false c).
Proof.
  rewrite make_run_sep.
  destruct (has_space trail), final_newline; simpl; try reflexivity;
    unfold make_final; simpl; destruct (is_empty c); reflexivity.
Qed.


(** ** Building the Action (actionbuilder.cpp) *)

(** Modelled from the spec: env.cpp, which parses [RECC_REAPI_VERSION] into a
    (major, minor) pair and compares it, is not among the sources; the
    configured version is given as that pair, compared lexicographically. *)
Definition configured_reapi_version_equal_to_or_newer_than
  (RECC_REAPI_VERSION : nat * nat) (version : nat * nat) : bool :=
  let '(major, minor) := RECC_REAPI_VERSION in
  let '(rmajor, rminor) := version in
  Nat.ltb rmajor major || (Nat.eqb rmajor major && Nat.leb rminor minor).

(** [build.bazel.remote.execution.v2.Command] *)
Record Command : Type := mkCommand {
  cmd_arguments : list string;
  cmd_environment_variables : list (string * string);
  cmd_output_files : list string;
  cmd_output_directories : list string;
  cmd_output_paths : list string;
  cmd_platform : list (string * string);
  cmd_working_directory : string
}.

(** [build.bazel.remote.execution.v2.Action], over a digest type; a proto3
    string field that is not set reads as [""]. *)
Record Action (Digest : Type) : Type := mkAction {
  action_command_digest : Digest;
  action_input_root_digest : Digest;
  action_do_not_cache : bool;
  action_salt : string;
  action_platform : option (list (string * string))
}.
Arguments mkAction {Digest} _ _ _ _ _.
Arguments action_command_digest {Digest} _.
Arguments action_input_root_digest {Digest} _.
Arguments action_do_not_cache {Digest} _.
Arguments action_salt {Digest} _.
Arguments action_platform {Digest} _.

(** [ActionBuilder::populateCommandProto] *)
Definition populateCommandProto (RECC_REAPI_VERSION : nat * nat) (command : list string)
  (outputFiles outputDirectories : list string)
  (remoteEnvironment platformProperties : list (string * string))
  (workingDirectory : string) : Command :=
  let outputPathsSupported :=
    configured_reapi_version_equal_to_or_newer_than RECC_REAPI_VERSION (2, 1) in
  mkCommand command remoteEnvironment
    (if outputPathsSupported then [] else outputFiles)
    (if outputPathsSupported then [] else outputDirectories)
    (if outputPathsSupported then outputFiles ++ outputDirectories else [])
    (List.filter (fun '(_, v) => negb (is_empty v)) platformProperties)
    workingDirectory.

(** [ActionBuilder::generateCommandProto] *)
Definition generateCommandProto (cfg : Config) (host : Host) (RECC_REAPI_VERSION : nat * nat)
  (command products outputDirectories : list string)
  (remoteEnvironment platformProperties : list (string * string))
  (workingDirectory : string) : Command :=
  let resolvedWorkingDirectory := resolvePathFromPrefixMap cfg host workingDirectory in
  populateCommandProto RECC_REAPI_VERSION command products outputDirectories
    remoteEnvironment platformProperties resolvedWorkingDirectory.

(** The end of [ActionBuilder::BuildAction], from the command message to the
    Action: the command, its digest and the Action. *)
Definition buildActionTail {Digest : Type} (make_digest : Command -> Digest)
  (cfg : Config) (host : Host)
  (RECC_REAPI_VERSION : nat * nat) (RECC_ACTION_UNCACHEABLE : bool)
  (RECC_ACTION_SALT : string) (command products RECC_OUTPUT_DIRECTORIES_OVERRIDE : list string)
  (remoteEnv RECC_REMOTE_PLATFORM : list (string * string)) (commandWorkingDirectory : string)
  (directoryDigest : Digest) : Command * Digest * Action Digest :=
  let commandProto := generateCommandProto cfg host RECC_REAPI_VERSION command products
                        RECC_OUTPUT_DIRECTORIES_OVERRIDE remoteEnv RECC_REMOTE_PLATFORM
                        commandWorkingDirectory in
  let commandDigest := make_digest commandProto in
  let salt := if is_empty RECC_ACTION_SALT then EmptyString else RECC_ACTION_SALT in
  let action_platform :=
    if configured_reapi_version_equal_to_or_newer_than RECC_REAPI_VERSION (2, 2)
    then Some (cmd_platform commandProto) else None in
  (commandProto, commandDigest,
   mkAction commandDigest directoryDigest RECC_ACTION_UNCACHEABLE salt action_platform).

(** A structured encoding, used as an injective digest on examples. *)
#[local] Unset Elimination Schemes.
Inductive Blob : Type :=
| BStr : string -> Blob
| BBool : bool -> Blob
| BNode : list Blob -> Blob.
#[local] Set Elimination Schemes.

Definition blob_of_pairs (l : list (string * string)) : Blob :=
  BNode (List.map (fun '(k, v) => BNode [BStr k; BStr v]) l).

Definition blob_of_command (c : Command) : Blob :=
  BNode [BNode (List.map BStr (cmd_arguments c)); blob_of_pairs (cmd_environment_variables c);
         BNode (List.map BStr (cmd_output_files c));
         BNode (List.map BStr (cmd_output_directories c));
         BNode (List.map BStr (cmd_output_paths c)); blob_of_pairs (cmd_platform c);
         BStr (cmd_working_directory c)].

Definition blob_of_action (a : Action Blob) : Blob :=
  BNode [action_command_digest a; action_input_root_digest a; BBool (action_do_not_cache a);
         BStr (action_salt a);
         match action_platform a with
         | Some p => BNode [BBool true; blob_of_pairs p]
         | None => BBool false
         end].

Lemma blob_of_pairs_inj l1 l2 : blob_of_pairs l1 = blob_of_pairs l2 -> l1 = l2.
Proof.
  unfold blob_of_pairs; intro H; injection H as H; revert l2 H.
  induction l1 as [|[k v] l1 IH]; intros [|[k' v'] l2] H; simpl in H; try discriminate;
    [reflexivity|].
  injection H as Hk Hv Hl; subst; f_equal; apply IH; exact Hl.
Qed.

Lemma blob_of_action_inj a1 a2 : blob_of_action a1 = blob_of_action a2 -> a1 = a2.
Proof.
  destruct a1 as [c1 i1 d1 s1 p1], a2 as [c2 i2 d2 s2 p2]; unfold blob_of_action; simpl.
  intro H; injection H as Hc Hi Hd Hs Hp; subst.
  destruct p1 as [p1|], p2 as [p2|]; try discriminate; [|reflexivity].
  injection Hp as Hp.
  assert (E : blob_of_pairs p1 = blob_of_pairs p2) by (unfold blob_of_pairs; rewrite Hp; reflexivity).
  apply blob_of_pairs_inj in E; subst; reflexivity.
Qed.

(** * More of fileutils.cpp and actionbuilder.cpp *)

Definition chr_nul : ascii := "000".

(** [s] holds no [c]. *)
Definition no_char (c : ascii) (s : string) : bool :=
  string_forall (fun d => negb (Ascii.eqb d c)) s.

(** [FileUtils::hasPathPrefixes]: the prefixes of the [std::set] in order,
    true at the first one that matches. *)
Fixpoint hasPathPrefixes (path : string) (pathPrefixes : list string) : bool :=
  match pathPrefixes with
  | [] => false
  | prefix :: rest => if hasPathPrefix path prefix then true else hasPathPrefixes path rest
  end.

(** [FileUtils::parentDirectoryLevels]. The C string is read up to its first
    NUL. [seg] holds the characters from [path_p] to the next slash
    ([strchr]); at each slash the segment updates the levels; what follows
    the last slash is compared with [".."] ([strcmp]). The scan returns
    [lowestLevel]; the function returns its negation. *)
Fixpoint parentDirectoryLevels_scan (s seg : string) (currentLevel lowestLevel : Z) : Z :=
  let at_end :=
    if String.eqb seg ".." then Z.min lowestLevel (currentLevel - 1) else lowestLevel in
  match s with
  | EmptyString => at_end
  | String c s' =>
      if Ascii.eqb c chr_nul then at_end
      else if Ascii.eqb c chr_slash then
        if is_empty seg || String.eqb seg "." then
          parentDirectoryLevels_scan s' EmptyString currentLevel lowestLevel
        else if String.eqb seg ".." then
          parentDirectoryLevels_scan s' EmptyString (currentLevel - 1)
            (Z.min lowestLevel (currentLevel - 1))
        else parentDirectoryLevels_scan s' EmptyString (currentLevel + 1) lowestLevel
      else parentDirectoryLevels_scan s' (push_char seg c) currentLevel lowestLevel
  end.

Definition parentDirectoryLevels (path : string) : Z :=
  (- parentDirectoryLevels_scan path EmptyString 0 0)%Z.

(** [FileUtils::parseDirectories]: [std::strtok(path.c_str(), "/")] returns
    the maximal runs of characters other than '/', up to the first NUL;
    [token] is the run being read. ([strtok] also writes NULs into the
    argument's buffer; the caller does not read the string afterwards.) *)
Fixpoint parseDirectories_aux (s token : string) : list string :=
  let flush := if is_empty token then [] else [token] in
  match s with
  | EmptyString => flush
  | String c s' =>
      if Ascii.eqb c chr_nul then flush
      else if Ascii.eqb c chr_slash then flush ++ parseDirectories_aux s' EmptyString
      else parseDirectories_aux s' (push_char token c)
  end.

Definition parseDirectories (path : string) : list string :=
  parseDirectories_aux path EmptyString.

(** [ActionBuilder::commonAncestorPath]; [dependencies] are the
    (local path, remote path) pairs. *)
Definition commonAncestorPath (dependencies : list (string * string)) (products : list string)
  (workingDirectory : string) : res string :=
  let parentsNeeded :=
    List.fold_left (fun acc dep => Z.max acc (parentDirectoryLevels (snd dep))) dependencies 0%Z in
  let parentsNeeded :=
    List.fold_left (fun acc product => Z.max acc (parentDirectoryLevels product)) products
      parentsNeeded in
  lastNSegments workingDirectory parentsNeeded.

(** ** String lemmas *)

Lemma string_forall_app P a b :
  string_forall P (append a b) = string_forall P a && string_forall P b.
Proof. induction a as [|c a IH]; simpl; [reflexivity|]. rewrite IH. apply andb_assoc. Qed.

Lemma push_char_app (a : string) (c : ascii) (b : string) :
  append (push_char a c) b = append a (String c b).
Proof. unfold push_char, str1. rewrite append_assoc_str. reflexivity. Qed.

Lemma prefix_of_len_iff (t path : string) :
  prefix_of_len (String.length t) path = t <-> exists rest, path = append t rest.
Proof.
  unfold prefix_of_len. revert path. induction t as [|a t IH]; intros path; simpl.
  - destruct path; split; intros; eauto.
  - destruct path as [|b path]; simpl.
    + split; [discriminate | intros [rest H]; discriminate].
    + split.
      * intros H. injection H as -> H. apply IH in H. destruct H as [rest ->]. eauto.
      * intros [rest H]. injection H as -> ->. f_equal. apply IH. eauto.
Qed.

Lemma substring_app_len (x y : string) (m : nat) :
  substring (String.length x) m (append x y) = substring 0 m y.
Proof. induction x as [|c x IH]; simpl; [reflexivity|exact IH]. Qed.

Lemma substring_0_full (y : string) : substring 0 (String.length y) y = y.
Proof. induction y as [|c y IH]; simpl; [reflexivity|now rewrite IH]. Qed.

Lemma prefix_of_len_app (x y : string) : prefix_of_len (String.length x) (append x y) = x.
Proof. apply prefix_of_len_iff. eauto. Qed.

Lemma length_append_str (x y : string) :
  String.length (append x y) = String.length x + String.length y.
Proof. induction x as [|c x IH]; simpl; [reflexivity|now rewrite IH]. Qed.

Lemma suffix_from_app (x y : string) : suffix_from (String.length x) (append x y) = y.
Proof.
  unfold suffix_from. rewrite length_append_str, substring_app_len.
  replace (String.length x + String.length y - String.length x) with (String.length y) by lia.
  apply substring_0_full.
Qed.

Lemma rfind_char_app (c : ascii) (x y : string) :
  rfind_char c (append x y) =
  match rfind_char c y with
  | Some i => Some (String.length x + i)
  | None => rfind_char c x
  end.
Proof.
  induction x as [|d x IH]; simpl.
  - destruct (rfind_char c y); reflexivity.
  - rewrite IH. destruct (rfind_char c y); [reflexivity|].
    destruct (rfind_char c x); reflexivity.
Qed.

Lemma rfind_char_no_char (c : ascii) (s : string) : no_char c s = true -> rfind_char c s = None.
Proof.
  unfold no_char. induction s as [|d s IH]; simpl; [reflexivity|].
  intros H. apply andb_prop in H. destruct H as [Hd Hs]. rewrite IH by exact Hs.
  rewrite Ascii.eqb_sym. destruct (Ascii.eqb d c); [discriminate|reflexivity].
Qed.

Lemma rfind_char_some (c : ascii) (s : string) (i : nat) :
  rfind_char c s = Some i -> no_char c (suffix_from (S i) s) = true.
Proof.
  unfold no_char, suffix_from. revert i. induction s as [|d s IH]; intros i H; simpl in H.
  - discriminate.
  - destruct (rfind_char c s) as [j|] eqn:E.
    + injection H as <-. simpl. apply IH. reflexivity.
    + destruct (Ascii.eqb c d); [|discriminate]. injection H as <-. simpl.
      rewrite Nat.sub_0_r, substring_0_full.
      clear IH. induction s as [|e s IHs]; simpl in *; [reflexivity|].
      destruct (rfind_char c s); [discriminate|].
      rewrite IHs by reflexivity.
      destruct (Ascii.eqb c e) eqn:Ce; [discriminate|].
      rewrite Ascii.eqb_sym, Ce. reflexivity.
Qed.

(** ** Lemmas on paths *)

(** Characters allowed inside one path segment: neither '/' nor NUL. *)
Definition segment_chars_ok (s : string) : bool :=
  string_forall (fun c => negb (Ascii.eqb c chr_slash) && negb (Ascii.eqb c chr_nul)) s.

Lemma rfind_char_none (c : ascii) (s : string) : rfind_char c s = None -> no_char c s = true.
Proof.
  unfold no_char. induction s as [|d s IH]; simpl; [reflexivity|].
  destruct (rfind_char c s); [discriminate|].
  destruct (Ascii.eqb c d) eqn:E; [discriminate|]. intros _.
  rewrite Ascii.eqb_sym, E, IH by reflexivity. reflexivity.
Qed.

Lemma pdl_shift (s seg : string) (cur low : Z) :
  (low <= cur)%Z ->
  parentDirectoryLevels_scan s seg cur low =
  Z.min low (cur + parentDirectoryLevels_scan s seg 0 0).
Proof.
  revert seg cur low. induction s as [|c s IH]; intros seg cur low Hle;
    cbn [parentDirectoryLevels_scan].
  - destruct (String.eqb seg ".."); lia.
  - destruct (Ascii.eqb c chr_nul); [destruct (String.eqb seg ".."); lia|].
    destruct (Ascii.eqb c chr_slash).
    + destruct (is_empty seg || String.eqb seg ".").
      * exact (IH EmptyString cur low Hle).
      * destruct (String.eqb seg "..").
        -- rewrite (IH EmptyString (cur - 1)%Z (Z.min low (cur - 1)) ltac:(lia)).
           rewrite (IH EmptyString (0 - 1)%Z (Z.min 0 (0 - 1)) ltac:(lia)). lia.
        -- rewrite (IH EmptyString (cur + 1)%Z low ltac:(lia)).
           rewrite (IH EmptyString (0 + 1)%Z 0%Z ltac:(lia)). lia.
    + exact (IH _ cur low Hle).
Qed.

Lemma pdl_le (s seg : string) (cur low : Z) :
  (low <= cur)%Z -> (parentDirectoryLevels_scan s seg cur low <= low)%Z.
Proof. intros H. rewrite pdl_shift by exact H. lia. Qed.

Lemma pdl_accum (seg r acc : string) (cur low : Z) :
  segment_chars_ok seg = true ->
  parentDirectoryLevels_scan (append seg r) acc cur low =
  parentDirectoryLevels_scan r (append acc seg) cur low.
Proof.
  unfold segment_chars_ok. revert acc. induction seg as [|c seg IH]; intros acc H; simpl.
  - rewrite append_empty_r. reflexivity.
  - apply andb_prop in H. destruct H as [Hc H]. apply andb_prop in Hc. destruct Hc as [H1 H2].
    apply negb_true_iff in H1, H2. rewrite H1, H2. rewrite IH by exact H.
    rewrite push_char_app. reflexivity.
Qed.

Lemma pdl_no_dotdot (s seg : string) (cur low : Z) :
  (low <= cur)%Z -> ~ In ".." (parseDirectories_aux s seg) ->
  parentDirectoryLevels_scan s seg cur low = low.
Proof.
  revert seg cur low. induction s as [|c s IH]; intros seg cur low Hle H; simpl in *.
  - destruct (String.eqb_spec seg "..") as [->|_]; [exfalso; apply H; left; reflexivity|].
    reflexivity.
  - destruct (Ascii.eqb c chr_nul).
    + destruct (String.eqb_spec seg "..") as [->|_]; [exfalso; apply H; left; reflexivity|].
      reflexivity.
    + destruct (Ascii.eqb c chr_slash).
      * assert (Hs : ~ In ".." (parseDirectories_aux s EmptyString))
          by (intro Hin; apply H, in_or_app; right; exact Hin).
        destruct (is_empty seg || String.eqb seg ".").
        -- apply IH; assumption.
        -- destruct (String.eqb_spec seg "..") as [->|_].
           ++ exfalso. apply H. simpl. left. reflexivity.
           ++ apply IH; [lia | exact Hs].
      * apply IH; assumption.
Qed.

Lemma fold_left_fixed {A B : Type} (g : B -> A -> B) (l : list A) (acc : B) :
  (forall x, In x l -> g acc x = acc) -> List.fold_left g l acc = acc.
Proof.
  induction l as [|x l IH]; intros H; simpl; [reflexivity|].
  rewrite H by (left; reflexivity). apply IH. intros y Hy. apply H. right. exact Hy.
Qed.

Lemma pd_accum (seg r acc : string) :
  segment_chars_ok seg = true ->
  parseDirectories_aux (append seg r) acc = parseDirectories_aux r (append acc seg).
Proof.
  unfold segment_chars_ok. revert acc. induction seg as [|c seg IH]; intros acc H; simpl.
  - rewrite append_empty_r. reflexivity.
  - apply andb_prop in H. destruct H as [Hc H]. apply andb_prop in Hc. destruct Hc as [H1 H2].
    apply negb_true_iff in H1, H2. rewrite H1, H2. rewrite IH by exact H.
    rewrite push_char_app. reflexivity.
Qed.

Lemma pd_tokens (s acc tok : string) :
  segment_chars_ok acc = true -> In tok (parseDirectories_aux s acc) ->
  tok <> EmptyString /\ segment_chars_ok tok = true.
Proof.
  assert (Flush : forall a t, segment_chars_ok a = true ->
            In t (if is_empty a then [] else [a]) -> t <> EmptyString /\ segment_chars_ok t = true).
  { intros a t Ha Hin. destruct a as [|x a]; simpl in Hin; [contradiction|].
    destruct Hin as [<-|[]]. split; [discriminate|exact Ha]. }
  revert acc. induction s as [|c s IH]; intros acc Hacc Hin; simpl in Hin.
  - exact (Flush _ _ Hacc Hin).
  - destruct (Ascii.eqb c chr_nul) eqn:N; [exact (Flush _ _ Hacc Hin)|].
    destruct (Ascii.eqb c chr_slash) eqn:S.
    + apply in_app_or in Hin. destruct Hin as [Hin|Hin]; [exact (Flush _ _ Hacc Hin)|].
      exact (IH EmptyString eq_refl Hin).
    + apply (IH (push_char acc c)); [|exact Hin].
      unfold segment_chars_ok, push_char, str1 in *. rewrite string_forall_app, Hacc. simpl.
      rewrite N, S. reflexivity.
Qed.

Lemma pd_concat (segs : list string) :
  forallb (fun s => negb (is_empty s) && segment_chars_ok s) segs = true ->
  parseDirectories_aux (String.concat "/" segs) EmptyString = segs.
Proof.
  induction segs as [|s segs IH]; intros H; [reflexivity|].
  simpl in H. apply andb_prop in H. destruct H as [Hs H]. apply andb_prop in Hs.
  destruct Hs as [Hne Hok].
  destruct segs as [|t segs].
  - simpl. rewrite <- (append_empty_r s) at 1. rewrite pd_accum by exact Hok. simpl.
    destruct s; [discriminate|reflexivity].
  - change (String.concat "/" (s :: t :: segs))
      with (append s (append "/" (String.concat "/" (t :: segs)))).
    rewrite pd_accum by exact Hok. generalize (IH H).
    generalize (String.concat "/" (t :: segs)). intros rest E. simpl.
    rewrite E. destruct s; [discriminate|reflexivity].
Qed.

Lemma resolve_eq (cfg : Config) (host : Host) (path : string) :
  resolvePathFromPrefixMap cfg host path =
  resolve_with_pairs host (RECC_PREFIX_REPLACEMENT cfg) path.
Proof. unfold resolvePathFromPrefixMap. destruct (RECC_PREFIX_REPLACEMENT cfg); reflexivity. Qed.

(** ** Paths as segment lists, for the [lastNSegments] scan *)

(** ["/s1/s2/.../sm"] *)
Fixpoint slashed (segs : list string) : string :=
  match segs with
  | [] => EmptyString
  | s :: rest => String chr_slash (append s (slashed rest))
  end.

Lemma slashed_app (a b : list string) : slashed (a ++ b) = append (slashed a) (slashed b).
Proof.
  induction a as [|s a IH]; simpl; [reflexivity|]. rewrite IH, append_assoc_str. reflexivity.
Qed.

Lemma concat_slashed (s : string) (segs : list string) :
  String.concat "/" (s :: segs) = append s (slashed segs).
Proof.
  revert s. induction segs as [|t segs IH]; intros s.
  - simpl. symmetry. apply append_empty_r.
  - change (String.concat "/" (s :: t :: segs)) with (append s (append "/" (String.concat "/" (t :: segs)))).
    rewrite IH. reflexivity.
Qed.

Lemma get_app_r (x y : string) (k m : nat) :
  k = String.length x + m -> String.get k (append x y) = String.get m y.
Proof. intros ->. induction x as [|c x IH]; simpl; [reflexivity|exact IH]. Qed.

Lemma char_at_in_segment (c : ascii) (Q T : string) (k : nat) :
  no_char c Q = true -> k < String.length Q ->
  match String.get k (append Q T) with Some d => Ascii.eqb d c | None => false end = false.
Proof.
  revert k. induction Q as [|e Q IH]; intros k H Hk; simpl in Hk; [lia|].
  unfold no_char in H. simpl in H. apply andb_prop in H as [H1 H2].
  destruct k as [|k]; simpl.
  - destruct (Ascii.eqb e c); [discriminate|reflexivity].
  - apply IH; [exact H2|lia].
Qed.

Lemma scan_segment (path P Q T : string) (n seen : Z) (j : nat) :
  path = append P (String chr_slash (append Q T)) ->
  no_char chr_slash Q = true -> j <= String.length Q ->
  forall i len, i = String.length P + S j -> len = String.length path - i ->
  lastNSegments_scan path n i len seen =
  if Z.eqb (seen + 1) n then inl (append Q T)
  else lastNSegments_scan path n (String.length P) (String.length path - String.length P)
         (seen + 1).
Proof.
  intros Ep HQ. assert (Hl : String.length path = String.length P + S (String.length Q + String.length T))
    by (rewrite Ep, length_append_str; simpl; rewrite length_append_str; reflexivity).
  induction j as [|j IH]; intros Hj i len -> ->.
  - rewrite Nat.add_1_r. cbn [lastNSegments_scan].
    assert (Hc : char_at_is path (String.length P) chr_slash = true).
    { unfold char_at_is. rewrite Ep, (get_app_r P _ _ 0) by lia. simpl. reflexivity. }
    rewrite Hc. destruct (Z.eqb (seen + 1) n); [|f_equal; lia].
    f_equal. replace (append Q T) with
      (suffix_from (String.length (push_char P chr_slash)) path).
    + unfold suffix_from, push_char. rewrite length_append_str; simpl. f_equal; lia.
    + rewrite Ep. unfold push_char.
      replace (append P (String chr_slash (append Q T))) with
        (append (append P (str1 chr_slash)) (append Q T)) by (rewrite append_assoc_str; reflexivity).
      apply suffix_from_app.
  - replace (String.length P + S (S j)) with (S (String.length P + S j)) by lia.
    cbn [lastNSegments_scan].
    assert (Hc : char_at_is path (String.length P + S j) chr_slash = false).
    { unfold char_at_is. rewrite Ep, (get_app_r P _ _ (S j)) by lia. simpl.
      apply char_at_in_segment; [exact HQ|lia]. }
    rewrite Hc. apply IH; lia.
Qed.

Lemma scan_no_slash (path P R : string) (n seen : Z) (i len : nat) :
  path = append P R -> no_char chr_slash P = true -> i <= String.length P ->
  lastNSegments_scan path n i len seen = inr seen.
Proof.
  intros Ep HP. revert len. induction i as [|i IH]; intros len Hi; cbn [lastNSegments_scan];
    [reflexivity|].
  assert (Hc : char_at_is path i chr_slash = false).
  { unfold char_at_is. rewrite Ep. apply char_at_in_segment; [exact HP|lia]. }
  rewrite Hc. apply IH. lia.
Qed.

Lemma scan_segments_found (post : list string) :
  post <> [] -> Forall (fun s => no_char chr_slash s = true) post ->
  forall (path P T : string) (n seen : Z),
  path = append P (append (slashed post) T) -> n = (seen + Z.of_nat (length post))%Z ->
  lastNSegments_scan path n (String.length P + String.length (slashed post))
    (String.length path - (String.length P + String.length (slashed post))) seen =
  inl (append (String.concat "/" post) T).
Proof.
  induction post as [|s post' IH] using rev_ind; intros Hne Hf path P T n seen Ep En;
    [congruence|].
  apply Forall_app in Hf as [Hf' Hs]. inversion Hs as [|? ? Hs1 _]; subst n.
  rewrite slashed_app in *. simpl slashed in *. rewrite append_empty_r in *.
  assert (Ep' : path = append (append P (slashed post')) (String chr_slash (append s T))).
  { rewrite Ep, !append_assoc_str. reflexivity. }
  rewrite (scan_segment path (append P (slashed post')) s T _ seen (String.length s) Ep' Hs1
             (le_n _)) by (rewrite !length_append_str; simpl; lia).
  rewrite length_app in *. simpl length in *.
  destruct post' as [|p0 r].
  - simpl. rewrite Z.eqb_refl. reflexivity.
  - replace (Z.eqb (seen + 1) (seen + Z.of_nat (length (p0 :: r) + 1))) with false
      by (symmetry; apply Z.eqb_neq; simpl length; lia).
    rewrite length_append_str.
    rewrite (IH ltac:(discriminate) Hf' path P (String chr_slash (append s T)) _ (seen + 1)%Z)
      by (try (rewrite Ep, !append_assoc_str; reflexivity); lia).
    f_equal. rewrite <- app_comm_cons, !concat_slashed, slashed_app. simpl slashed.
    rewrite append_empty_r, !append_assoc_str. reflexivity.
Qed.

Lemma scan_segments_count (segs : list string) :
  Forall (fun s => no_char chr_slash s = true) segs ->
  forall (path P T : string) (n seen : Z),
  path = append P (append (slashed segs) T) ->
  (forall k, (1 <= k <= Z.of_nat (length segs))%Z -> (seen + k)%Z <> n) ->
  lastNSegments_scan path n (String.length P + String.length (slashed segs))
    (String.length path - (String.length P + String.length (slashed segs))) seen =
  lastNSegments_scan path n (String.length P) (String.length path - String.length P)
    (seen + Z.of_nat (length segs)).
Proof.
  induction segs as [|s segs' IH] using rev_ind; intros Hf path P T n seen Ep Hk.
  - simpl. rewrite Nat.add_0_r, Z.add_0_r. reflexivity.
  - apply Forall_app in Hf as [Hf' Hs]. inversion Hs as [|? ? Hs1 _].
    rewrite slashed_app in *. simpl slashed in *. rewrite append_empty_r in *.
    rewrite length_app in Hk. simpl length in Hk.
    assert (Ep' : path = append (append P (slashed segs')) (String chr_slash (append s T))).
    { rewrite Ep, !append_assoc_str. reflexivity. }
    rewrite (scan_segment path (append P (slashed segs')) s T _ seen (String.length s) Ep' Hs1
               (le_n _)) by (rewrite !length_append_str; simpl; lia).
    replace (Z.eqb (seen + 1) n) with false
      by (symmetry; apply Z.eqb_neq; apply (Hk 1%Z); lia).
    rewrite length_append_str.
    rewrite (IH Hf' path P (String chr_slash (append s T)) n (seen + 1)%Z).
    + rewrite length_app. simpl length. f_equal. lia.
    + rewrite Ep, !append_assoc_str. reflexivity.
    + intros k Hk'. replace (seen + 1 + k)%Z with (seen + (k + 1))%Z by lia. apply Hk. lia.
Qed.

Lemma strlen_no_nul (s : string) : no_char chr_nul s = true -> strlen s = String.length s.
Proof.
  unfold no_char. induction s as [|c s IH]; simpl; [reflexivity|].
  intros H; apply andb_prop in H; destruct H as [Hc Hs].
  unfold chr_nul in Hc. destruct (Ascii.eqb c _); [discriminate|].
  rewrite IH by exact Hs. reflexivity.
Qed.

Lemma lastNSegments_start (path X s : string) (n : Z) :
  n <> 0%Z -> no_char chr_nul path = true ->
  path = append X s -> s <> EmptyString -> no_char chr_slash s = true ->
  lastNSegments path n =
  match lastNSegments_scan path n (String.length path) 0 0 with
  | inl r => Ok r
  | inr slashesSeen =>
      if Z.eqb slashesSeen 0 && Z.eqb n 1 then Ok path else Throw "std::logic_error"
  end.
Proof.
  intros Hn Hz Ep Hs Hsl. unfold lastNSegments. cbv zeta.
  replace (Z.eqb n 0) with false by (symmetry; apply Z.eqb_neq; exact Hn).
  rewrite (strlen_no_nul path Hz). unfold prefix_of_len. rewrite substring_0_full.
  assert (Hl : String.length path = String.length X + String.length s)
    by (rewrite Ep; apply length_append_str).
  destruct s as [|c s']; [congruence|]. simpl in Hl.
  destruct (String.length path) as [|last] eqn:L; [lia|].
  assert (Hc : char_at_is path last chr_slash = false).
  { unfold char_at_is. rewrite Ep, (get_app_r X _ _ (String.length s')) by lia.
    rewrite <- (append_empty_r (String c s')).
    apply char_at_in_segment; [exact Hsl|simpl; lia]. }
  rewrite Hc. cbn [lastNSegments_scan]. rewrite Hc. reflexivity.
Qed.

Lemma segment_chars_no_slash (s : string) :
  segment_chars_ok s = true -> no_char chr_slash s = true.
Proof.
  unfold segment_chars_ok, no_char. induction s as [|c s IH]; simpl; [reflexivity|].
  destruct (Ascii.eqb c chr_slash), (Ascii.eqb c chr_nul); simpl; try discriminate; exact IH.
Qed.

Lemma segment_chars_no_nul (s : string) :
  segment_chars_ok s = true -> no_char chr_nul s = true.
Proof.
  unfold segment_chars_ok, no_char. induction s as [|c s IH]; simpl; [reflexivity|].
  destruct (Ascii.eqb c chr_slash), (Ascii.eqb c chr_nul); simpl; try discriminate; exact IH.
Qed.

Lemma slashed_no_nul (s0 : string) (segs : list string) :
  segment_chars_ok s0 = true -> Forall (fun s => segment_chars_ok s = true) segs ->
  no_char chr_nul (append s0 (slashed segs)) = true.
Proof.
  revert s0; induction segs as [|t segs IH]; intros s0 H0 Hf.
  - rewrite append_empty_r. apply segment_chars_no_nul; exact H0.
  - inversion Hf as [|? ? Ht Hf']; subst. simpl.
    pose proof (segment_chars_no_nul s0 H0) as N.
    unfold no_char in *. rewrite string_forall_app, N. simpl.
    apply IH; assumption.
Qed.

Lemma slashed_concat (segs : list string) :
  segs <> [] -> String chr_slash (String.concat "/" segs) = slashed segs.
Proof.
  destruct segs as [|s0 r]; [congruence|]. intros _. rewrite concat_slashed. reflexivity.
Qed.

Lemma slashed_last (init : list string) (l : string) :
  slashed (init ++ [l]) = append (push_char (slashed init) chr_slash) l.
Proof.
  rewrite slashed_app. simpl. rewrite append_empty_r. unfold push_char.
  rewrite append_assoc_str. reflexivity.
Qed.

Lemma scan_whole (P : string) (segs : list string) (n : Z) :
  Forall (fun s => no_char chr_slash s = true) segs ->
  let path := append P (slashed segs) in
  lastNSegments_scan path n (String.length path) 0 0 =
  if (0 <? n)%Z && (n <=? Z.of_nat (length segs))%Z
  then inl (String.concat "/" (skipn (length segs - Z.to_nat n) segs))
  else lastNSegments_scan path n (String.length P) (String.length path - String.length P)
         (Z.of_nat (length segs)).
Proof.
  intros Hf path.
  destruct ((0 <? n)%Z && (n <=? Z.of_nat (length segs))%Z) eqn:Hn.
  - apply andb_prop in Hn as [H1 H2]. apply Z.ltb_lt in H1. apply Z.leb_le in H2.
    set (k := length segs - Z.to_nat n).
    assert (Hsplit : segs = firstn k segs ++ skipn k segs) by (symmetry; apply firstn_skipn).
    assert (Hlen : length (skipn k segs) = Z.to_nat n) by (rewrite length_skipn; unfold k; lia).
    assert (Hne : skipn k segs <> []) by (intros E; rewrite E in Hlen; simpl in Hlen; lia).
    assert (Ep : path = append (append P (slashed (firstn k segs)))
                           (append (slashed (skipn k segs)) EmptyString)).
    { unfold path. rewrite append_empty_r, append_assoc_str, <- slashed_app, <- Hsplit.
      reflexivity. }
    assert (Hl : String.length path =
                 String.length (append P (slashed (firstn k segs))) +
                 String.length (slashed (skipn k segs)))
      by (rewrite Ep, append_empty_r, !length_append_str; lia).
    rewrite Hl at 1. replace 0 with (String.length path - String.length path) at 1 by lia.
    rewrite Hl at 2.
    rewrite (scan_segments_found (skipn k segs) Hne ltac:(rewrite Hsplit in Hf; apply Forall_app in Hf; exact (proj2 Hf)) path _ EmptyString n 0 Ep)
      by lia.
    rewrite append_empty_r. reflexivity.
  - assert (Ep : path = append P (append (slashed segs) EmptyString))
      by (unfold path; rewrite append_empty_r; reflexivity).
    assert (Hl : String.length path = String.length P + String.length (slashed segs))
      by (unfold path; apply length_append_str).
    rewrite Hl at 1. replace 0 with (String.length path - String.length path) at 1 by lia.
    rewrite Hl at 2.
    rewrite (scan_segments_count segs Hf path P EmptyString n 0 Ep).
    + reflexivity.
    + intros k Hk E. subst n. apply andb_false_iff in Hn as [H|H].
      * apply Z.ltb_ge in H. lia.
      * apply Z.leb_gt in H. lia.
Qed.

(** ** The remote environment (actionbuilder.cpp) *)

(** [std::map<std::string, std::string>]: an ascending association list. *)
Module StrMap.

Definition t := list (string * string).

(** [m[k] = v] *)
Fixpoint assign (k v : string) (m : t) : t :=
  match m with
  | [] => [(k, v)]
  | (k', v') :: rest =>
      match String.compare k k' with
      | Lt => (k, v) :: m
      | Eq => (k, v) :: rest
      | Gt => (k', v') :: assign k v rest
      end
  end.

(** [m.find(k)] *)
Fixpoint find (k : string) (m : t) : option string :=
  match m with
  | [] => None
  | (k', v') :: rest => if String.eqb k k' then Some v' else find k rest
  end.

Lemma find_assign_same (k v : string) (m : t) : find k (assign k v m) = Some v.
Proof.
  induction m as [|[k' v'] m IH]; simpl; [rewrite String.eqb_refl; reflexivity|].
  destruct (String.compare k k') eqn:E; simpl; rewrite ?String.eqb_refl; try reflexivity.
  destruct (String.eqb_spec k k'); [subst; rewrite str_compare_refl in E; discriminate|].
  exact IH.
Qed.

Lemma find_assign_other (k k2 v : string) (m : t) :
  k <> k2 -> find k (assign k2 v m) = find k m.
Proof.
  intros Hne. induction m as [|[k' v'] m IH]; simpl.
  - apply String.eqb_neq in Hne. rewrite Hne. reflexivity.
  - destruct (String.compare k2 k') eqn:E; simpl.
    + apply String.compare_eq_iff in E. subst k'.
      apply String.eqb_neq in Hne. rewrite Hne. reflexivity.
    + apply String.eqb_neq in Hne. rewrite Hne. reflexivity.
    + destruct (String.eqb k k'); [reflexivity|exact IH].
Qed.

Lemma find_assign (k k2 v : string) (m : t) :
  find k (assign k2 v m) = if String.eqb k k2 then Some v else find k m.
Proof.
  destruct (String.eqb_spec k k2) as [<-|Hne].
  - apply find_assign_same.
  - apply find_assign_other. exact Hne.
Qed.

End StrMap.

Definition is_gcc (pc : ParsedCommand) : bool := pc_bool pc d_isGcc.

(** [s.rfind(prefix, 0) == 0] *)
Definition starts_with (prefix s : string) : bool :=
  String.eqb (prefix_of_len (String.length prefix) s) prefix.

(** [ActionBuilder::populateRemoteEnvWithNonReccVars]: [env] is the
    null-terminated array of ["KEY=VALUE"] strings. *)
Fixpoint populateRemoteEnvWithNonReccVars (env : list string) (remoteEnv : StrMap.t)
  : res StrMap.t :=
  match env with
  | [] => Ok remoteEnv
  | envItem :: rest =>
      if starts_with "RECC_" envItem then populateRemoteEnvWithNonReccVars rest remoteEnv
      else
        match find_char chr_eq envItem with
        | None => Throw "std::runtime_error"
        | Some equalsPosition =>
            let key := prefix_of_len equalsPosition envItem in
            let value := suffix_from (S equalsPosition) envItem in
            populateRemoteEnvWithNonReccVars rest (StrMap.assign key value remoteEnv)
        end
  end.

(** The rewriting of a path-like variable in [prepareRemoteEnv]: each
    [pathPart.find(':', delim_prev)] ends the piece read since [delim_prev];
    a nonempty piece goes through [resolvePathFromPrefixMap] and, unless it is
    the last one, gets a ':' appended.  [piece] holds the characters read
    since the last ':', [pathMapEnv] the output. *)
Fixpoint pathMapEnv_aux (cfg : Config) (host : Host) (pathPart piece pathMapEnv : string)
  : string :=
  match pathPart with
  | EmptyString =>
      if is_empty piece then pathMapEnv
      else append pathMapEnv (resolvePathFromPrefixMap cfg host piece)
  | String c rest =>
      if Ascii.eqb c chr_colon then
        pathMapEnv_aux cfg host rest EmptyString
          (if is_empty piece then pathMapEnv
           else append pathMapEnv (push_char (resolvePathFromPrefixMap cfg host piece) chr_colon))
      else pathMapEnv_aux cfg host rest (push_char piece c) pathMapEnv
  end.

Definition pathMapEnv (cfg : Config) (host : Host) (pathPart : string) : string :=
  pathMapEnv_aux cfg host pathPart EmptyString EmptyString.

(** [RECC_ENV_TO_READ.insert({...})] *)
Definition set_insert_all (xs : list string) (s : list string) : list string :=
  fold_left (fun s x => StdSet.insert x s) xs s.

(** The variables [prepareRemoteEnv] puts into an empty [RECC_ENV_TO_READ]. *)
Definition default_env_to_read (command : ParsedCommand) (s : list string) : list string :=
  let s := set_insert_all ["PATH"; "LD_LIBRARY_PATH"; "LANG"; "LC_CTYPE";
                           "LC_MESSAGES"; "LC_ALL"] s in
  let s := if is_gcc command || is_clang command
           then set_insert_all ["CPATH"; "C_INCLUDE_PATH"; "CPLUS_INCLUDE_PATH";
                                "OBJC_INCLUDE_PATH"; "OBJCPLUS_INCLUDE_PATH";
                                "SOURCE_DATE_EPOCH"] s
           else s in
  let s := if is_gcc command
           then set_insert_all ["GCC_COMPARE_DEBUG"; "GCC_EXEC_PREFIX"; "COMPILER_PATH";
                                "LIBRARY_PATH"; "GCC_EXTRA_DIAGNOSTIC_OUTPUT";
                                "DEPENDENCIES_OUTPUT"; "GOMP_CPU_AFFINITY"; "GOMP_DEBUG";
                                "GOMP_STACKSIZE"; "GOMP_SPINCOUNT";
                                "GOMP_RTEMS_THREAD_POOLS"] s
           else s in
  let s := if is_gcc command || is_sun_studio command
           then set_insert_all ["SUNPRO_DEPENDENCIES"] s else s in
  let s := if is_sun_studio command
           then set_insert_all ["PARALLEL"; "STACKSIZE"] s else s in
  let s := if is_AIX command
           then set_insert_all ["LIBPATH"; "NLSPATH"; "OBJECT_MODE"; "XLC_USR_CONFIG"] s
           else s in
  set_insert_all ["OMP_CANCELLATION"; "OMP_DISPLAY_ENV"; "OMP_DYNAMIC";
                  "OMP_MAX_ACTIVE_LEVELS"; "OMP_MAX_TASK_PRIORITY"; "OMP_NESTED";
                  "OMP_NUM_TEAMS"; "OMP_NUM_THREADS"; "OMP_PROC_BIND"; "OMP_PLACES";
                  "OMP_STACKSIZE"; "OMP_SCHEDULE"; "OMP_TARGET_OFFLOAD";
                  "OMP_TEAMS_THREAD_LIMIT"; "OMP_THREAD_LIMIT"; "OMP_WAIT_POLICY"] s.

Definition pathLikeEnv : list string :=
  ["PATH"; "LD_LIBRARY_PATH"; "CPATH"; "C_INCLUDE_PATH"; "CPLUS_INCLUDE_PATH";
   "OBJC_INCLUDE_PATH"; "OBJCPLUS_INCLUDE_PATH"; "COMPILER_PATH"; "LIBRARY_PATH";
   "LIB_PATH"].

(** The value [prepareRemoteEnv] stores for a variable read with [getenv]. *)
Definition remote_env_value (cfg : Config) (host : Host) (envVar envVal : string) : string :=
  if mem_str envVar pathLikeEnv && negb (String.eqb envVal "")
  then pathMapEnv cfg host envVal
  else envVal.

(** [ActionBuilder::prepareRemoteEnv].  The global [RECC_ENV_TO_READ] is
    state: the call returns its new value beside the map.  [environ] is the
    process environment and [getenv] the lookup in it. *)
Definition prepareRemoteEnv (cfg : Config) (host : Host) (RECC_PRESERVE_ENV : bool)
  (RECC_ENV_TO_READ : list string) (RECC_REMOTE_ENV : StrMap.t)
  (environ : list string) (getenv : string -> option string) (command : ParsedCommand)
  : res (list string * StrMap.t) :=
  let* start :=
    if RECC_PRESERVE_ENV then
      let* remoteEnv := populateRemoteEnvWithNonReccVars environ [] in
      Ok (RECC_ENV_TO_READ, remoteEnv)
    else
      match RECC_ENV_TO_READ with
      | [] => Ok (default_env_to_read command RECC_ENV_TO_READ, [])
      | _ => Ok (RECC_ENV_TO_READ, [])
      end in
  let toRead := fst start in
  let remoteEnv :=
    fold_left (fun m envVar =>
                 match getenv envVar with
                 | Some envVal => StrMap.assign envVar (remote_env_value cfg host envVar envVal) m
                 | None => m
                 end) toRead (snd start) in
  let remoteEnv :=
    fold_left (fun m (overrideElem : string * string) =>
                 StrMap.assign (fst overrideElem) (snd overrideElem) m)
      RECC_REMOTE_ENV remoteEnv in
  Ok (toRead, remoteEnv).

Lemma strmap_find_app (k : string) (a b : StrMap.t) :
  StrMap.find k (a ++ b) = match StrMap.find k a with Some v => Some v | None => StrMap.find k b end.
Proof.
  induction a as [|[k' v'] a IH]; simpl; [reflexivity|]. destruct (String.eqb k k'); auto.
Qed.

Lemma strmap_find_fold_assign (kvs : StrMap.t) (m : StrMap.t) (k : string) :
  StrMap.find k (fold_left (fun m kv => StrMap.assign (fst kv) (snd kv) m) kvs m) =
  match StrMap.find k (rev kvs) with Some v => Some v | None => StrMap.find k m end.
Proof.
  revert m. induction kvs as [|[k1 v1] kvs IH]; intros m; simpl; [reflexivity|].
  rewrite IH, strmap_find_app. simpl. rewrite StrMap.find_assign.
  destruct (StrMap.find k (rev kvs)); [reflexivity|]. destruct (String.eqb k k1); reflexivity.
Qed.

Lemma strmap_find_not_in (k : string) (l : StrMap.t) :
  ~ In k (map fst l) -> StrMap.find k l = None.
Proof.
  induction l as [|[k' v'] l IH]; simpl; intros H; [reflexivity|].
  destruct (String.eqb_spec k k'); [subst; tauto|]. apply IH. tauto.
Qed.

Lemma strmap_find_rev (k : string) (l : StrMap.t) :
  NoDup (map fst l) -> StrMap.find k (rev l) = StrMap.find k l.
Proof.
  induction l as [|[k' v'] l IH]; simpl; intros H; [reflexivity|].
  inversion H as [|? ? Hn Hd]; subst.
  rewrite strmap_find_app, IH by exact Hd. simpl.
  destruct (String.eqb_spec k k'); [subst|].
  - rewrite strmap_find_not_in by exact Hn. reflexivity.
  - destruct (StrMap.find k l); reflexivity.
Qed.

Lemma prefix_of_len_prefix (m n : nat) (s : string) :
  m <= n -> prefix_of_len m (prefix_of_len n s) = prefix_of_len m s.
Proof.
  unfold prefix_of_len. revert m n. induction s as [|c s IH]; intros m n Hmn;
    destruct m as [|m]; destruct n as [|n]; simpl; try reflexivity; try lia.
  f_equal. apply IH. lia.
Qed.

Lemma length_prefix_of_len (n : nat) (s : string) : String.length (prefix_of_len n s) <= n.
Proof.
  unfold prefix_of_len. revert n. induction s as [|c s IH]; intros [|n]; simpl; try lia.
  specialize (IH n). lia.
Qed.

Lemma prefix_of_len_app_le (n : nat) (a b : string) :
  n <= String.length a -> prefix_of_len n (append a b) = prefix_of_len n a.
Proof.
  unfold prefix_of_len. revert n. induction a as [|c a IH]; intros [|n] H; simpl in *;
    try (destruct b; reflexivity); try lia.
  f_equal. apply IH. lia.
Qed.

Lemma prefix_of_len_app_gt (n : nat) (a b : string) :
  String.length a <= n -> prefix_of_len n (append a b) = append a (prefix_of_len (n - String.length a) b).
Proof.
  unfold prefix_of_len. revert n. induction a as [|c a IH]; intros n H; simpl in *.
  - rewrite Nat.sub_0_r. reflexivity.
  - destruct n as [|n]; [lia|]. simpl. f_equal. apply IH. lia.
Qed.

Lemma find_char_app_hit (c : ascii) (a b : string) :
  no_char c a = true -> find_char c (append a (String c b)) = Some (String.length a).
Proof.
  induction a as [|d a IH]; simpl; intros H.
  - rewrite Ascii.eqb_refl. reflexivity.
  - unfold no_char in H. simpl in H. apply andb_prop in H as [H1 H2].
    rewrite Ascii.eqb_sym. destruct (Ascii.eqb d c); [discriminate|].
    rewrite (IH H2). reflexivity.
Qed.

(** A name without '=' that does not start with ["RECC_"] gives a
    ["NAME=value"] entry that does not start with ["RECC_"]. *)
Lemma starts_with_recc_entry (k v : string) :
  no_char chr_eq k = true -> starts_with "RECC_" k = false ->
  starts_with "RECC_" (append k (String chr_eq v)) = false.
Proof.
  intros Hk Hs. unfold starts_with in *. simpl String.length in *.
  destruct (Nat.le_gt_cases 5 (String.length k)) as [Hle|Hgt].
  - rewrite prefix_of_len_app_le by exact Hle. exact Hs.
  - rewrite prefix_of_len_app_gt by lia.
    destruct (String.eqb_spec (append k (prefix_of_len (5 - String.length k) (String chr_eq v)))
                "RECC_") as [E|E]; [|reflexivity].
    exfalso.
    replace (5 - String.length k) with (S (4 - String.length k)) in E by lia.
    unfold prefix_of_len in E. simpl in E.
    assert (Hn : no_char chr_eq "RECC_" = true) by reflexivity.
    rewrite <- E in Hn. unfold no_char in Hn. rewrite string_forall_app in Hn.
    simpl in Hn. rewrite andb_false_r in Hn. discriminate.
Qed.

Lemma populate_app_ok (env1 env2 : list string) (m m1 : StrMap.t) :
  populateRemoteEnvWithNonReccVars env1 m = Ok m1 ->
  populateRemoteEnvWithNonReccVars (env1 ++ env2) m = populateRemoteEnvWithNonReccVars env2 m1.
Proof.
  revert m. induction env1 as [|item env1 IH]; intros m H; simpl in *.
  - injection H as <-. reflexivity.
  - destruct (starts_with "RECC_" item); [apply IH; exact H|].
    destruct (find_char chr_eq item); [apply IH; exact H|discriminate].
Qed.

(** [pathMapEnv_aux] over characters that are not ':' only extends the
    current piece. *)
Lemma pathMapEnv_aux_piece (cfg : Config) (host : Host) (p rest piece acc : string) :
  no_char chr_colon p = true ->
  pathMapEnv_aux cfg host (append p rest) piece acc =
  pathMapEnv_aux cfg host rest (append piece p) acc.
Proof.
  revert piece. induction p as [|c p IH]; intros piece H; simpl.
  - rewrite append_empty_r. reflexivity.
  - unfold no_char in H. simpl in H. apply andb_prop in H as [H1 H2].
    destruct (Ascii.eqb c chr_colon); [discriminate|].
    rewrite (IH _ H2). unfold push_char. rewrite append_assoc_str. reflexivity.
Qed.

Lemma filter_nonempty_nil (l : list string) :
  filter (fun p => negb (is_empty p)) l = [] -> forallb is_empty l = true.
Proof.
  induction l as [|p l IH]; simpl; [reflexivity|].
  destruct (is_empty p); simpl; [exact IH|discriminate].
Qed.

Lemma filter_nonempty_cons (l : list string) (f : string) (fs : list string) :
  filter (fun p => negb (is_empty p)) l = f :: fs -> forallb is_empty l = false.
Proof.
  induction l as [|p l IH]; simpl; [discriminate|].
  destruct (is_empty p); simpl; [exact IH|reflexivity].
Qed.

Lemma forallb_empty_last (l : list string) :
  forallb is_empty l = true -> is_empty (last l EmptyString) = true.
Proof.
  induction l as [|p l IH]; [reflexivity|]. intros H. simpl in H.
  apply andb_prop in H as [H1 H2]. destruct l as [|q r]; [exact H1|].
  exact (IH H2).
Qed.

Lemma filter_cons_eq {A : Type} (f : A -> bool) (x : A) (l : list A) :
  filter f (x :: l) = if f x then x :: filter f l else filter f l.
Proof. reflexivity. Qed.

Lemma pathMapEnv_aux_concat (cfg : Config) (host : Host) (ps : list string) :
  forall (p acc : string), Forall (fun x => no_char chr_colon x = true) (p :: ps) ->
  pathMapEnv_aux cfg host (String.concat ":" (p :: ps)) EmptyString acc =
  append acc
    (append (String.concat ":" (map (resolvePathFromPrefixMap cfg host)
                                  (filter (fun x => negb (is_empty x)) (p :: ps))))
       (if is_empty (last (p :: ps) EmptyString) && negb (forallb is_empty (p :: ps))
        then ":" else "")).
Proof.
  induction ps as [|q r IH]; intros p acc Hf; inversion Hf as [|? ? Hp Hr]; subst.
  - change (String.concat ":" [p]) with p.
    rewrite <- (append_empty_r p) at 1. rewrite (pathMapEnv_aux_piece cfg host p _ _ _ Hp).
    simpl. destruct p as [|c p']; simpl; rewrite ?append_empty_r; reflexivity.
  - change (String.concat ":" (p :: q :: r))
      with (append p (append ":" (String.concat ":" (q :: r)))).
    rewrite (pathMapEnv_aux_piece cfg host p _ _ _ Hp). simpl append at 1.
    cbn [pathMapEnv_aux]. rewrite Ascii.eqb_refl. rewrite (IH q _ Hr).
    change (append EmptyString p) with p.
    change (last (p :: q :: r) EmptyString) with (last (q :: r) EmptyString).
    rewrite (filter_cons_eq _ p).
    change (forallb is_empty (p :: q :: r)) with (is_empty p && forallb is_empty (q :: r)).
    destruct (is_empty p) eqn:Ep.
    + reflexivity.
    + cbn [negb andb].
      destruct (filter (fun x => negb (is_empty x)) (q :: r)) as [|f fs] eqn:F.
      * pose proof (filter_nonempty_nil _ F) as Hall. rewrite Hall.
        rewrite (forallb_empty_last _ Hall). simpl. unfold push_char.
        rewrite !append_assoc_str. reflexivity.
      * rewrite (filter_nonempty_cons _ _ _ F). simpl map.
        change (String.concat ":" (resolvePathFromPrefixMap cfg host p ::
                  resolvePathFromPrefixMap cfg host f :: map (resolvePathFromPrefixMap cfg host) fs))
          with (append (resolvePathFromPrefixMap cfg host p)
                  (append ":" (String.concat ":" (resolvePathFromPrefixMap cfg host f ::
                                 map (resolvePathFromPrefixMap cfg host) fs)))).
        unfold push_char. rewrite !append_assoc_str. reflexivity.
Qed.

Lemma length_prefix_of_len_le (n : nat) (s : string) :
  String.length (prefix_of_len n s) <= String.length s.
Proof.
  unfold prefix_of_len. revert n. induction s as [|c s IH]; intros [|n]; simpl; try lia.
  specialize (IH n). lia.
Qed.

Lemma find_fold_read (f : string -> string -> string) (getenv : string -> option string)
  (toRead : list string) (m0 : StrMap.t) (k : string) :
  StrMap.find k
    (fold_left (fun m envVar =>
                  match getenv envVar with
                  | Some envVal => StrMap.assign envVar (f envVar envVal) m
                  | None => m
                  end) toRead m0) =
  match (if mem_str k toRead then getenv k else None) with
  | Some v => Some (f k v)
  | None => StrMap.find k m0
  end.
Proof.
  revert m0. induction toRead as [|v rest IH]; intros m0; simpl; [reflexivity|].
  rewrite IH. unfold mem_str. simpl.
  destruct (String.eqb_spec k v) as [<-|Hne]; simpl.
  - destruct (getenv k) as [x|]; [rewrite StrMap.find_assign_same|];
      destruct (existsb (String.eqb k) rest); reflexivity.
  - destruct (getenv v); [rewrite (StrMap.find_assign_other k v _ _ Hne)|]; reflexivity.
Qed.

(** ** Lemmas on [parseStageOptionList] *)

Lemma psol_plain (x rest current : string) (quoted : bool) :
  string_forall (fun c => negb (Ascii.eqb c chr_quote) &&
                          (quoted || negb (Ascii.eqb c chr_comma))) x = true ->
  parseStageOptionList_aux (append x rest) quoted current =
  parseStageOptionList_aux rest quoted (append current x).
Proof.
  revert current. induction x as [|c x IH]; intros current H; simpl.
  - rewrite append_empty_r. reflexivity.
  - simpl in H. apply andb_prop in H as [H1 H2]. apply andb_prop in H1 as [Hq Hc].
    apply negb_true_iff in Hq. rewrite Hq.
    destruct quoted; simpl in Hc.
    + simpl. rewrite andb_false_r. rewrite (IH _ H2). unfold push_char.
      rewrite append_assoc_str. reflexivity.
    + apply negb_true_iff in Hc. rewrite Hc. simpl.
      rewrite (IH _ H2). unfold push_char. rewrite append_assoc_str. reflexivity.
Qed.

Lemma concat_one (sep x : string) : String.concat sep [x] = x.
Proof. reflexivity. Qed.

Lemma concat_cons_ne (sep x : string) (l : list string) :
  l <> [] -> String.concat sep (x :: l) = append x (append sep (String.concat sep l)).
Proof. destruct l; [congruence|reflexivity]. Qed.

Lemma psol_comma (rest current : string) :
  parseStageOptionList_aux (append "," rest) false current =
  current :: parseStageOptionList_aux rest false EmptyString.
Proof. reflexivity. Qed.

(** ** Lemmas on [Deps::dependencies_from_make_rules] *)

Definition make_names_ok (st : MakeState) : Prop :=
  Forall (fun f => f <> EmptyString /\ no_char chr_nl f = true) (ms_result st) /\
  no_char chr_nl (ms_current_filename st) = true.

Lemma no_char_push (c d : ascii) (s : string) :
  no_char c s = true -> Ascii.eqb d c = false -> no_char c (push_char s d) = true.
Proof.
  intros Hs Hd. unfold no_char, push_char in *. rewrite string_forall_app, Hs. simpl.
  rewrite Hd. reflexivity.
Qed.

Lemma make_step_names_ok (b : bool) (st : MakeState) (c : ascii) :
  make_names_ok st -> make_names_ok (make_step b st c).
Proof.
  destruct st as [r col bs cur]. unfold make_names_ok, make_step; simpl. intros [Hr Hc].
  assert (Hins : Forall (fun f => f <> EmptyString /\ no_char chr_nl f = true)
                   (if is_empty cur then r else StdSet.insert cur r)).
  { destruct cur as [|x cur']; [exact Hr|]. apply StdSet.Forall_insert; [|exact Hr].
    split; [discriminate|exact Hc]. }
  assert (Hnl : Ascii.eqb chr_space chr_nl = false) by reflexivity.
  destruct bs.
  - simpl. split; [exact Hr|].
    destruct (negb (Ascii.eqb c chr_nl) && col) eqn:E; [|exact Hc].
    apply andb_prop in E as [E _]. apply negb_true_iff in E. exact (no_char_push _ _ _ Hc E).
  - destruct (Ascii.eqb c chr_bslash); [split; assumption|].
    destruct (Ascii.eqb c chr_colon && negb col); [split; assumption|].
    destruct (Ascii.eqb c chr_nl) eqn:En; [split; [exact Hins|reflexivity]|].
    destruct (Ascii.eqb c chr_space).
    + destruct b; [|split; [exact Hins|reflexivity]].
      split; [exact Hr|]. destruct (negb (is_empty cur) && col); [|exact Hc].
      exact (no_char_push _ _ _ Hc En).
    + destruct col; [|split; assumption]. split; [exact Hr|]. exact (no_char_push _ _ _ Hc En).
Qed.

Lemma make_run_names_ok (b : bool) (st : MakeState) (s : string) :
  make_names_ok st -> make_names_ok (make_run b st s).
Proof.
  revert st. induction s as [|c s IH]; intros st H; simpl; [exact H|].
  apply IH. apply make_step_names_ok. exact H.
Qed.

Lemma make_run_no_colon (b bs : bool) (s : string) :
  no_char chr_colon s = true ->
  exists bs', make_run b (mkMakeState [] false bs EmptyString) s = mkMakeState [] false bs' EmptyString.
Proof.
  revert bs. induction s as [|c s IH]; intros bs H; simpl; [exists bs; reflexivity|].
  unfold no_char in H. simpl in H. apply andb_prop in H as [Hc H].
  apply negb_true_iff in Hc. rewrite Hc. simpl.
  destruct bs; [rewrite andb_false_r; apply IH; exact H|].
  destruct (Ascii.eqb c chr_bslash); [apply IH; exact H|].
  destruct (Ascii.eqb c chr_nl); [apply IH; exact H|].
  destruct (Ascii.eqb c chr_space); [destruct b|]; apply IH; exact H.
Qed.

(** A Sun make rule line [target ":" spaces dependency "\n"]. *)
Fixpoint spaces (n : nat) : string :=
  match n with O => EmptyString | S n' => String chr_space (spaces n') end.

Definition sun_line (line : string * nat * string) : string :=
  let '(target, n, dep) := line in
  append target (append ":" (append (spaces n) (append dep (String chr_nl EmptyString)))).

Definition sun_dep_ok (dep : string) : bool :=
  negb (is_empty dep) &&
  match front_char dep with Some c => negb (Ascii.eqb c chr_space) | None => false end &&
  string_forall (fun c => negb (Ascii.eqb c chr_bslash || Ascii.eqb c chr_nl)) dep.

Lemma make_run_sun_target (r : list string) (t : string) :
  target_ok t = true ->
  make_run true (mkMakeState r false false EmptyString) t = mkMakeState r false false EmptyString.
Proof.
  induction t as [|c t IH]; simpl; [reflexivity|].
  intro H; apply andb_prop in H; destruct H as [Hc Ht].
  destruct (Ascii.eqb c chr_colon), (Ascii.eqb c chr_bslash), (Ascii.eqb c chr_nl);
    try discriminate.
  destruct (Ascii.eqb c chr_space); apply IH; exact Ht.
Qed.

Lemma make_run_sun_spaces (r : list string) (n : nat) :
  make_run true (mkMakeState r true false EmptyString) (spaces n) =
  mkMakeState r true false EmptyString.
Proof. induction n as [|n IH]; simpl; [reflexivity|exact IH]. Qed.

Lemma make_run_sun_dep (r : list string) (cur d : string) :
  cur <> EmptyString ->
  string_forall (fun c => negb (Ascii.eqb c chr_bslash || Ascii.eqb c chr_nl)) d = true ->
  make_run true (mkMakeState r true false cur) d = mkMakeState r true false (append cur d).
Proof.
  revert cur. induction d as [|c d IH]; intros cur Hcur H; simpl.
  - rewrite append_empty_r. reflexivity.
  - apply andb_prop in H as [Hc H]. apply negb_true_iff, orb_false_iff in Hc as [Hb Hn].
    rewrite Hb, Hn. simpl.
    assert (Hne : is_empty cur = false) by (destruct cur; [congruence|reflexivity]).
    rewrite Hne. simpl.
    replace (append cur (String c d)) with (append (push_char cur c) d)
      by (unfold push_char; rewrite append_assoc_str; reflexivity).
    rewrite ?andb_false_r.
    destruct (Ascii.eqb c chr_space); (apply IH; [unfold push_char; destruct cur; simpl; congruence|exact H]).
Qed.

Lemma make_run_cons (b : bool) (st : MakeState) (c : ascii) (s : string) :
  make_run b st (String c s) = make_run b (make_step b st c) s.
Proof. reflexivity. Qed.

Lemma make_run_sun_line (r : list string) (line : string * nat * string) :
  target_ok (fst (fst line)) = true -> sun_dep_ok (snd line) = true ->
  make_run true (mkMakeState r false false EmptyString) (sun_line line) =
  mkMakeState (StdSet.insert (snd line) r) false false EmptyString.
Proof.
  destruct line as [[t n] d]. simpl. intros Ht Hd. unfold sun_dep_ok in Hd.
  apply andb_prop in Hd as [Hd Hall]. apply andb_prop in Hd as [Hne Hfront].
  rewrite make_run_app, (make_run_sun_target r t Ht). simpl.
  rewrite make_run_app, make_run_sun_spaces, make_run_app.
  destruct d as [|c d']; [discriminate|]. simpl in Hfront, Hall.
  apply negb_true_iff in Hfront. apply andb_prop in Hall as [Hc Hall].
  apply negb_true_iff, orb_false_iff in Hc as [Hb Hn].
  assert (Hstep : make_step true (mkMakeState r true false EmptyString) c =
                  mkMakeState r true false (push_char EmptyString c)).
  { unfold make_step. simpl. rewrite Hb, Hn, Hfront, andb_false_r. reflexivity. }
  rewrite (make_run_cons true _ c d'), Hstep.
  rewrite (make_run_sun_dep r (push_char EmptyString c) d') by (try discriminate; exact Hall).
  reflexivity.
Qed.


(** *** Joined and separate option arguments *)

Lemma find_char_app_miss (c : ascii) (a b : string) :
  no_char c a = true ->
  find_char c (append a b) = option_map (Nat.add (String.length a)) (find_char c b).
Proof.
  induction a as [|d a IH]; simpl; intros H.
  - destruct (find_char c b); reflexivity.
  - unfold no_char in H. simpl in H. apply andb_prop in H as [H1 H2].
    rewrite Ascii.eqb_sym. destruct (Ascii.eqb d c); [discriminate|].
    rewrite (IH H2). destruct (find_char c b); reflexivity.
Qed.

Lemma find_char_lt (c : ascii) (s : string) (k : nat) :
  find_char c s = Some k -> k < String.length s.
Proof.
  revert k; induction s as [|d s IH]; simpl; intros k H; [discriminate|].
  destruct (Ascii.eqb c d); [injection H as <-; lia|].
  destruct (find_char c s) as [j|] eqn:E; simpl in H; [|discriminate].
  injection H as <-. specialize (IH j eq_refl). lia.
Qed.

Lemma substring_app_shift (x y : string) (k m : nat) :
  substring (String.length x + k) m (append x y) = substring k m y.
Proof. induction x as [|c x IH]; simpl; [reflexivity|exact IH]. Qed.

Lemma suffix_from_app_shift (x y : string) (k : nat) :
  suffix_from (String.length x + k) (append x y) = suffix_from k y.
Proof.
  unfold suffix_from. rewrite length_append_str, substring_app_shift.
  replace (String.length x + String.length y - (String.length x + k))
    with (String.length y - k) by lia.
  reflexivity.
Qed.

Lemma eqb_app_nonempty (a s : string) : s <> EmptyString -> String.eqb (append a s) a = false.
Proof.
  intros Hs. apply String.eqb_neq. intros E.
  apply (f_equal String.length) in E. rewrite length_append_str in E.
  destruct s; [congruence|simpl in E; lia].
Qed.

(** The argument of a joined option [option ++ s]: the text after the first
    '=' of [s] if there is one, [s] otherwise. *)
Lemma joined_argument (option s : string) :
  no_char chr_eq option = true -> s <> EmptyString ->
  exists mo,
    substr_from (String.length option) (append option s) = Ok s /\
    match find_char chr_eq (append option s) with
    | Some equalPos => let* p := substr_from (S equalPos) (append option s) in
                       Ok (append option "=", p)
    | None => Ok (option, s)
    end =
    Ok (mo, match find_char chr_eq s with Some k => suffix_from (S k) s | None => s end) /\
    mo = match find_char chr_eq s with Some _ => append option "=" | None => option end /\
    match find_char chr_eq (append option s) with
    | Some equalPos => substr_from (S equalPos) (append option s)
    | None => Ok s
    end = Ok (match find_char chr_eq s with Some k => suffix_from (S k) s | None => s end).
Proof.
  intros Ho Hs.
  assert (Hsub : substr_from (String.length option) (append option s) = Ok s).
  { unfold substr_from. rewrite length_append_str.
    rewrite (proj2 (Nat.leb_le _ _)) by lia. rewrite suffix_from_app. reflexivity. }
  rewrite (find_char_app_miss _ _ _ Ho).
  destruct (find_char chr_eq s) as [k|] eqn:E; simpl.
  - pose proof (find_char_lt _ _ _ E) as Hk.
    assert (Hp : substr_from (S (String.length option + k)) (append option s) =
                 Ok (suffix_from (S k) s)).
    { unfold substr_from. rewrite length_append_str.
      rewrite (proj2 (Nat.leb_le _ _)) by lia.
      rewrite <- Nat.add_succ_r, suffix_from_app_shift. reflexivity. }
    exists (append option "="). rewrite Hp. simpl. auto.
  - exists option. auto.
Qed.

Lemma appendAndRemoveOption_state (cfg : Config) (host : Host) (wd : string)
  (toDeps : bool) (pc pc' : ParsedCommand) :
  appendAndRemoveOption cfg host wd false toDeps false false pc = Ok pc' ->
  pc_bool pc' = pc_bool pc /\ d_bstaticStack pc' = d_bstaticStack pc.
Proof.
  unfold appendAndRemoveOption, oc_front, oc_pop_front.
  destruct (d_originalCommand pc) as [|x r] eqn:E; cbn [rbind]; [discriminate|].
  destruct toDeps; cbn [push_back set_vec d_originalCommand]; rewrite E;
    intros H; injection H as <-; split; reflexivity.
Qed.

(** *** Compiler-name suffixes *)

Lemma append_nil_r_str (s : string) : append s EmptyString = s.
Proof. induction s as [|c s IH]; simpl; [reflexivity|now rewrite IH]. Qed.

Lemma get_app_l (x y : string) (k : nat) :
  k < String.length x -> String.get k (append x y) = String.get k x.
Proof.
  revert k; induction x as [|c x IH]; intros k Hk; simpl in Hk; [lia|].
  destruct k; simpl; [reflexivity|]. apply IH. lia.
Qed.

Lemma string_forall_get (P : ascii -> bool) (s : string) (k : nat) :
  string_forall P s = true -> k < String.length s ->
  exists d, String.get k s = Some d /\ P d = true.
Proof.
  revert k; induction s as [|c s IH]; intros k H Hk; simpl in Hk; [lia|].
  simpl in H. apply andb_prop in H as [H1 H2].
  destruct k; simpl; [eauto|]. apply IH; [exact H2|lia].
Qed.

Lemma strip_version_length_skip (a v s : string) (k : nat) :
  string_forall is_version_character v = true -> k <= String.length v ->
  (forall j, j < String.length v -> String.get (String.length a + j) s = String.get j v) ->
  strip_version_length (String.length a + k) s = strip_version_length (String.length a) s.
Proof.
  intros Hv Hk Hs. induction k as [|k IH]; [rewrite Nat.add_0_r; reflexivity|].
  rewrite Nat.add_succ_r. cbn [strip_version_length].
  destruct (string_forall_get _ v k Hv ltac:(lia)) as [d [Hd Pd]].
  rewrite (Hs k ltac:(lia)), Hd, Pd. apply IH. lia.
Qed.

Lemma strip_version_length_stop (a s : string) :
  a <> EmptyString ->
  (forall d, last_char a = Some d -> is_version_character d = false) ->
  String.get (String.length a - 1) s = String.get (String.length a - 1) a ->
  strip_version_length (String.length a) s = String.length a.
Proof.
  intros Ha Hl Hs. destruct a as [|c a']; [congruence|].
  pose proof (Hl) as Hl'. unfold last_char in Hl'.
  set (a := String c a') in *.
  replace (String.length a) with (S (String.length a - 1)) by (subst a; simpl; lia).
  cbn [strip_version_length]. rewrite Hs.
  destruct (String.get (String.length a - 1) a) as [d|] eqn:E; [|reflexivity].
  rewrite (Hl' d eq_refl). reflexivity.
Qed.

Lemma no_char_substring (c : ascii) (s t : string) (i n : nat) :
  no_char c s = true -> substring i n s <> String c t.
Proof.
  revert i n; induction s as [|d s IH]; intros i n H; simpl.
  - destruct i, n; discriminate.
  - unfold no_char in H; simpl in H. apply andb_prop in H as [H1 H2].
    destruct i as [|i].
    + destruct n as [|n]; [discriminate|]. intros E. injection E as E _. subst d.
      rewrite Ascii.eqb_refl in H1. discriminate.
    + apply IH. exact H2.
Qed.

(** The first [length base] characters of [base ++ rest]. *)
Lemma strip_to_base (base rest : string) :
  base <> EmptyString ->
  (forall d, last_char base = Some d -> is_version_character d = false) ->
  strip_version_length (String.length base) (append base rest) = String.length base.
Proof.
  intros Hb Hl. apply (strip_version_length_stop base); [exact Hb|exact Hl|].
  apply get_app_l. destruct base; [congruence|simpl; lia].
Qed.

Lemma strip_version_through (base v w : string) :
  string_forall is_version_character v = true ->
  strip_version_length (String.length base + String.length v) (append base (append v w)) =
  strip_version_length (String.length base) (append base (append v w)).
Proof.
  intros Hv. apply (strip_version_length_skip base v); [exact Hv|lia|].
  intros j Hj. rewrite (get_app_r base _ _ j eq_refl). apply get_app_l. exact Hj.
Qed.


(** *** Library paths *)

Lemma getline_split_aux_word (sep : ascii) (p s cur : string) :
  no_char sep p = true ->
  getline_split_aux sep (append p s) cur = getline_split_aux sep s (append cur p).
Proof.
  revert cur; induction p as [|c p IH]; intros cur H; simpl.
  - rewrite append_nil_r_str. reflexivity.
  - unfold no_char in H. simpl in H. apply andb_prop in H as [H1 H2].
    destruct (Ascii.eqb c sep); [discriminate|].
    rewrite (IH _ H2). unfold push_char, str1. rewrite append_assoc_str. reflexivity.
Qed.

Lemma getline_split_concat (sep : ascii) (pieces : list string) :
  pieces <> [] ->
  Forall (fun p => p <> EmptyString /\ no_char sep p = true) pieces ->
  getline_split sep (String.concat (String sep EmptyString) pieces) = pieces.
Proof.
  unfold getline_split. intros Hne Hf.
  assert (G : forall cur, is_empty cur = true ->
            getline_split_aux sep (String.concat (String sep EmptyString) pieces) cur = pieces).
  { induction Hf as [|p ps [Hp Hs] Hf IH]; intros cur Hc; [congruence|].
    destruct cur; [|discriminate].
    destruct ps as [|p2 ps'].
    - rewrite concat_one. rewrite <- (append_nil_r_str p) at 1.
      rewrite getline_split_aux_word by exact Hs. simpl.
      destruct p; [congruence|reflexivity].
    - rewrite concat_cons_ne by discriminate.
      rewrite getline_split_aux_word by exact Hs. simpl. rewrite Ascii.eqb_refl.
      f_equal. apply IH; [discriminate|reflexivity]. }
  apply G. reflexivity.
Qed.

Lemma parseLdLibraryPath_loop_dirs (cfg : Config) (host : Host) (wd option : string)
  (field : VecField) (toks : list string) (pc : ParsedCommand) :
  VecField_beq field d_command = false -> String.eqb option "-R" = false ->
  exists pc',
    parseLdLibraryPath_loop cfg host wd option field toks pc = Ok pc' /\
    pc_vec pc' field = pc_vec pc field ++ filter (isDirectory host) toks /\
    pc_vec pc' d_command =
      pc_vec pc d_command ++
      flat_map (fun t => [option; modifyPathForRemote cfg host t wd])
        (filter (isDirectory host) toks) /\
    d_originalCommand pc' = d_originalCommand pc /\ pc_bool pc' = pc_bool pc.
Proof.
  intros Hf HR. revert pc; induction toks as [|t toks IH]; intros pc; simpl.
  - exists pc. rewrite !app_nil_r. auto.
  - destruct (isDirectory host t) eqn:Ed.
    + destruct (IH (push_back field t (push_back d_command (modifyPathForRemote cfg host t wd)
                                         (push_back d_command option pc))))
        as [pc' [H1 [H2 [H3 [H4 H5]]]]].
      exists pc'. split; [exact H1|].
      cbn [push_back set_vec pc_vec d_originalCommand pc_bool] in H2, H3, H4, H5.
      rewrite H4, H5.
      destruct field; try discriminate; cbn [VecField_beq] in H2, H3; rewrite H2, H3;
        cbn [flat_map]; rewrite <- !app_assoc; auto.
    + rewrite HR. cbn [andb]. apply IH.
Qed.

(** * Claims *)

(** C1: for every rule table built from an initializer list and every token
    beginning with '-' or '+' whose '='-trimmed, space-stripped form is not a
    key, [matchCompilerOptions] returns the entry of the first key, in
    descending key-length order, that is a prefix of the token (the longest
    matching prefix). *)
Theorem C1_match_longest_prefix (init : list (string * Handler)) (tok : string) :
  (front_char tok = Some chr_dash \/ front_char tok = Some chr_plus) ->
  RulesMap.find (remove_chars c_isspace (trim_at_equal tok)) (RulesMap.of_list init) = None ->
  matchCompilerOptions tok (RulesMap.of_list init)
  = spec_prefix_dispatch tok (RulesMap.of_list init).
Proof.
  intros Hfront Hexact. unfold matchCompilerOptions.
  destruct Hfront as [Hf|Hf]; rewrite Hf; simpl; rewrite Hexact;
    apply scan_prefix_spec, RulesMap.rm_sorted_of_list.
Qed.

(** The rule tables' first-prefix dispatch on the spec's examples. *)
Lemma C1_match_longest_prefix_witness :
  matchCompilerOptions "-xassembler" GccRules = Some ("-x", parseOptionSetsGccLanguage) /\
  matchCompilerOptions "-MFfoo" GccRules = Some ("-MF", parseOptionRedirectsDepsOutput) /\
  matchCompilerOptions "-MFfoo" GccRules = spec_prefix_dispatch "-MFfoo" GccRules.
Proof.
  split; [vm_compute; reflexivity|]. split; [vm_compute; reflexivity|].
  apply C1_match_longest_prefix; [left; reflexivity|vm_compute; reflexivity].
Defined.

(** C8: for every argument vector and working directory, the result of
    [createParsedCommand] or of [createParsedLinkerCommand] is never both a
    compiler command and a linker command, and when it contains unsupported
    options it is neither. *)
Theorem C8_compile_link_exclusive (cfg : Config) (host : Host) (langs : list string)
  (cd : CompilerDefaults) (on_sun : bool) (command : list string) (wd : string)
  (pc : ParsedCommand) :
  createParsedCommand cfg host langs cd command wd = Ok pc \/
  createParsedLinkerCommand cfg host langs cd on_sun command wd = Ok pc ->
  is_compiler_command pc && is_linker_command pc = false /\
  (contains_unsupported_options pc = true ->
   is_compiler_command pc = false /\ is_linker_command pc = false).
Proof.
  unfold is_compiler_command, is_linker_command, contains_unsupported_options.
  intros [H|H].
  - unfold createParsedCommand in H. destruct command as [|c args].
    { injection H as <-. split; [reflexivity|discriminate]. }
    destruct (makeParsedCommand cfg host cd (c :: args) wd) as [p| |] eqn:M;
      cbn [rbind] in H; try discriminate.
    apply makeParsedCommand_flags in M; destruct M as [ML MC].
    destruct (find_rules (d_compiler p) _) as [rules|].
    + destruct (parseCommand cfg host langs p rules wd) as [p0| |] eqn:P;
        cbn [rbind] in H; try discriminate.
      apply parseCommand_flags in P; destruct P as [PL _]; unfold keeps_linker in PL.
      destruct (pc_bool p0 d_containsUnsupportedOptions) eqn:U;
        [injection H as <-; simpl; rewrite PL, ML; split; [now rewrite ?andb_false_r|auto]|].
      destruct (pc_vec p0 d_inputFiles).
      { injection H as <-; simpl; rewrite PL, ML; split; [now rewrite ?andb_false_r|auto]. }
      unfold is_compiler_command in H.
      destruct (pc_bool p0 d_compilerCommand) eqn:C0; simpl in H;
      destruct (pc_vec p0 d_preProcessorOptions); cbn [rbind] in H;
      try (destruct (parseCommand _ _ _ _ _ _); cbn [rbind] in H; try discriminate);
      injection H as <-; simpl; rewrite ?insert_all_bool; simpl;
      rewrite ?U, ?C0, ?PL, ?ML; (split; [reflexivity|discriminate]).
    + injection H as <-; simpl; rewrite ML, MC; split; [reflexivity|auto].
  - unfold createParsedLinkerCommand in H.
    destruct (makeParsedCommand cfg host cd command wd) as [p| |] eqn:M;
      cbn [rbind] in H; try discriminate.
    apply makeParsedCommand_flags in M; destruct M as [ML MC].
    destruct (parseCommand cfg host langs p _ wd) as [p0| |] eqn:P;
      cbn [rbind] in H; try discriminate.
    apply parseCommand_flags in P; destruct P as [_ P].
    destruct (P (LdRules_no_compile on_sun)) as [PL PC].
    destruct (pc_bool p0 d_containsUnsupportedOptions) eqn:U; simpl in H.
    + injection H as <-. rewrite PL, PC, ML, MC. split; [reflexivity|auto].
    + unfold is_compiler_command in H; rewrite PC, MC in H; simpl in H. injection H as <-. simpl.
      rewrite PC, MC, U. split; [reflexivity|discriminate].
Qed.

Lemma C8_compile_link_exclusive_witness :
  createParsedCommand example_config example_host example_languages example_defaults
    ["gcc"; "-c"; "foo.c"] "/w" = Ok (example_compile_pc ["gcc"; "-c"; "foo.c"]) /\
  is_compiler_command (example_compile_pc ["gcc"; "-c"; "foo.c"]) &&
  is_linker_command (example_compile_pc ["gcc"; "-c"; "foo.c"]) = false.
Proof.
  assert (E : createParsedCommand example_config example_host example_languages
                example_defaults ["gcc"; "-c"; "foo.c"] "/w" =
              Ok (example_compile_pc ["gcc"; "-c"; "foo.c"])) by (vm_compute; reflexivity).
  split; [exact E|].
  exact (proj1 (C8_compile_link_exclusive example_config example_host example_languages
                  example_defaults false ["gcc"; "-c"; "foo.c"] "/w"
                  (example_compile_pc ["gcc"; "-c"; "foo.c"]) (or_introl E))).
Defined.

(** C5 (amended): a token that is exactly "-", or that starts with '@', and
    that no parse rule matches, sets the unsupported flag, is removed on its
    own, and parsing continues with the remaining tokens exactly as if it
    had not been there. *)
Theorem C5_unsupported_token_skipped (cfg : Config) (host : Host) (langs : list string)
  (rules : RulesMap.t) (wd : string) (pc : ParsedCommand) (t : string) (rest : list string) :
  d_originalCommand pc = t :: rest ->
  matchCompilerOptions t rules = None ->
  t = "-" \/ front_char t = Some chr_at ->
  parseCommand cfg host langs pc rules wd =
  parseCommand cfg host langs
    (set_originalCommand rest (set_bool d_containsUnsupportedOptions true pc)) rules wd.
Proof.
  intros Hoc Hm Ht. unfold parseCommand at 1. rewrite Hoc. simpl. rewrite Hoc.
  unfold parseCommand_step. rewrite Hm.
  destruct Ht as [->|Ht].
  - simpl. unfold oc_pop_front. simpl. rewrite Hoc. reflexivity.
  - destruct (String.eqb_spec t "-") as [->|_].
    + simpl. unfold oc_pop_front. simpl. rewrite Hoc. reflexivity.
    + rewrite Ht. simpl. unfold oc_pop_front. simpl. rewrite Hoc. reflexivity.
Qed.

Lemma C5_unsupported_token_skipped_witness :
  d_originalCommand (set_originalCommand ["-"; "foo.c"] emptyParsedCommand) = ["-"; "foo.c"] /\
  parseCommand example_config example_host example_languages
    (set_originalCommand ["-"; "foo.c"] emptyParsedCommand) GccRules "/w" =
  parseCommand example_config example_host example_languages
    (set_originalCommand ["foo.c"]
       (set_bool d_containsUnsupportedOptions true
          (set_originalCommand ["-"; "foo.c"] emptyParsedCommand))) GccRules "/w".
Proof.
  split; [reflexivity|].
  apply (C5_unsupported_token_skipped example_config example_host example_languages
           GccRules "/w" (set_originalCommand ["-"; "foo.c"] emptyParsedCommand) "-" ["foo.c"]);
    [reflexivity | vm_compute; reflexivity | left; reflexivity].
Defined.

(** C5 counterexample: after "-" (or "@opts") the next token "foo.c" is
    still parsed and recorded as an input file. *)
Lemma C5_counterexample :
  let pc1 := example_compile_pc ["gcc"; "-"; "foo.c"] in
  let pc2 := example_compile_pc ["gcc"; "@opts"; "foo.c"] in
  contains_unsupported_options pc1 = true /\ pc_vec pc1 d_inputFiles = ["foo.c"] /\
  contains_unsupported_options pc2 = true /\ pc_vec pc2 d_inputFiles = ["foo.c"].
Proof. vm_compute. repeat split. Qed.

(** C6: with an empty prefix map, an empty project root and path rewriting
    on, [modifyPathForRemote] is idempotent, given that the library's
    [normalizePath] is. *)
Theorem C6_modifyPathForRemote_idempotent (cfg : Config) (host : Host) :
  RECC_PREFIX_REPLACEMENT cfg = [] ->
  RECC_PROJECT_ROOT cfg = "" ->
  RECC_NO_PATH_REWRITE cfg = false ->
  (forall p, normalizePath host (normalizePath host p) = normalizePath host p) ->
  forall p cwd,
    modifyPathForRemote cfg host (modifyPathForRemote cfg host p cwd) cwd =
    modifyPathForRemote cfg host p cwd.
Proof.
  intros Hmap Hroot Hrw Hidem p cwd.
  assert (Hred : forall q, modifyPathForRemote cfg host q cwd = normalizePath host q).
  { intro q. unfold modifyPathForRemote, modifyPathForRemote', rewritePathToRelative,
      resolvePathFromPrefixMap, hasPathPrefix.
    rewrite Hmap, Hroot, Hrw. reflexivity. }
  rewrite !Hred. apply Hidem.
Qed.

Lemma C6_modifyPathForRemote_idempotent_witness :
  modifyPathForRemote example_config example_host
    (modifyPathForRemote example_config example_host "src/./a.c" "/w") "/w" =
  modifyPathForRemote example_config example_host "src/./a.c" "/w".
Proof.
  apply C6_modifyPathForRemote_idempotent;
    [reflexivity | reflexivity | reflexivity | intro; reflexivity].
Defined.

(** C9: [lastNSegments("a/b", 2)] throws [std::logic_error] although the
    path has two segments, while ["/a/b"] gives ["a/b"]: the count of
    segments of a relative path misses the first one. *)
Theorem C9_lastNSegments_relative_path_throws :
  lastNSegments "a/b" 2 = Throw "std::logic_error" /\
  lastNSegments "/a/b" 2 = Ok "a/b" /\
  lastNSegments "x/a/b" 2 = Ok "a/b".
Proof. vm_compute. repeat split. Qed.

(** C10: for a compile command one of whose products is shorter than two
    characters, [get_file_info] throws [std::out_of_range] from
    [product.substr(product.size() - 2)]. *)
Theorem C10_get_file_info_short_product (host : Host) (pc : ParsedCommand)
  (products : list string) :
  is_linker_command pc = false ->
  determine_products pc = Ok products ->
  (exists p, In p products /\ String.length p < 2) ->
  get_file_info_products host pc = Throw "std::out_of_range".
Proof.
  intros Hl Hd Hshort. unfold get_file_info_products. rewrite Hl, Hd. cbn [rbind].
  rewrite product_loop_short by exact Hshort. reflexivity.
Qed.

Lemma C10_get_file_info_short_product_witness :
  get_products (example_compile_pc ["gcc"; "-c"; "foo.c"; "-o"; "a"]) = ["a"] /\
  get_file_info_products example_host (example_compile_pc ["gcc"; "-c"; "foo.c"; "-o"; "a"]) =
  Throw "std::out_of_range".
Proof.
  split; [vm_compute; reflexivity|].
  apply (C10_get_file_info_short_product example_host
           (example_compile_pc ["gcc"; "-c"; "foo.c"; "-o"; "a"]) ["a"]);
    [vm_compute; reflexivity | vm_compute; reflexivity |].
  exists "a"; split; [left; reflexivity | simpl; lia].
Defined.

(** C7 (amended): with no [-MD]/[-MMD], [-qmakedep], coverage or split-dwarf
    option, [determine_products] rejects a command with an input of
    unrecognized suffix ([std::invalid_argument]); otherwise its result is
    empty when there is no header, source or object input, and else it is
    the [-o] products when there are any, [a.out] for a linker command, and
    otherwise [h.gch] for each header input [h] and the base name of each
    source input with its suffix replaced by [.o]. *)
Theorem C7_determine_products_base (pc : ParsedCommand) :
  pc_bool pc d_md_option_set = false ->
  pc_bool pc d_qmakedep_option_set = false ->
  pc_bool pc d_coverage_option_set = false ->
  pc_bool pc d_split_dwarf_option_set = false ->
  let inputs := pc_vec pc d_inputFiles in
  (forallb (recognized_input pc) inputs = false ->
   determine_products pc = Throw "std::invalid_argument") /\
  (forallb (recognized_input pc) inputs = true ->
   exists result, determine_products pc = Ok result /\
   forall x, In x result <->
     (header_inputs pc inputs <> [] \/ source_inputs pc inputs <> [] \/
      object_inputs pc inputs <> []) /\
     match get_products pc with
     | _ :: _ => In x (get_products pc)
     | [] =>
         if is_linker_command pc then x = "a.out"
         else (exists h, In h (header_inputs pc inputs) /\ x = append h ".gch") \/
              (exists s, In s (source_inputs pc inputs) /\
                         x = stripDirectory (replaceSuffix s ".o"))
     end).
Proof.
  intros Hmd Hq Hcov Hsd inputs. split.
  - intro Hf. unfold determine_products. fold inputs.
    rewrite (classify_inputs_fail pc inputs _ Hf). reflexivity.
  - intro Ht. destruct (classify_inputs_ok pc inputs [] [] [] Ht)
      as (h & s & o & E & Hh & Hs & Ho).
    unfold determine_products. fold inputs. rewrite E. cbn [rbind].
    rewrite Hmd, Hq, Hcov, Hsd. simpl.
    assert (Hh' : forall x, In x h <-> In x (header_inputs pc inputs))
      by (intro x; rewrite Hh; simpl; tauto).
    assert (Hs' : forall x, In x s <-> In x (source_inputs pc inputs))
      by (intro x; rewrite Hs; simpl; tauto).
    assert (Ho' : forall x, In x o <-> In x (object_inputs pc inputs))
      by (intro x; rewrite Ho; simpl; tauto).
    pose proof (nil_iff_same _ _ Hh') as Nh.
    pose proof (nil_iff_same _ _ Hs') as Ns.
    pose proof (nil_iff_same _ _ Ho') as No.
    assert (Hbase : forall x,
      In x (match get_products pc with
            | _ :: _ => insert_list (get_products pc) []
            | [] => if is_linker_command pc then ["a.out"]
                    else insert_list (List.map (fun s => stripDirectory (replaceSuffix s ".o")) s)
                           (insert_list (List.map (fun h => append h ".gch") h) [])
            end) <->
      match get_products pc with
      | _ :: _ => In x (get_products pc)
      | [] =>
          if is_linker_command pc then x = "a.out"
          else (exists h, In h (header_inputs pc inputs) /\ x = append h ".gch") \/
               (exists s, In s (source_inputs pc inputs) /\
                          x = stripDirectory (replaceSuffix s ".o"))
      end).
    { intro x. destruct (get_products pc) as [|p ps].
      - destruct (is_linker_command pc); simpl.
        + intuition congruence.
        + rewrite !insert_list_In, !in_map_iff. simpl.
          split.
          * intros [(y & <- & Hy)|[(y & <- & Hy)|[]]];
              [right; exists y; split; [apply Hs'; exact Hy|reflexivity]
              |left; exists y; split; [apply Hh'; exact Hy|reflexivity]].
          * intros [(y & Hy & ->)|(y & Hy & ->)];
              [right; left; exists y; split; [reflexivity|apply Hh'; exact Hy]
              |left; exists y; split; [reflexivity|apply Hs'; exact Hy]].
      - rewrite insert_list_In. simpl. tauto. }
    destruct h as [|h1 h], s as [|s1 s], o as [|o1 o];
      eexists; (split; [reflexivity|]); intro x;
      try (rewrite Hbase; split; [intro Hx; split; [|exact Hx] | intros [_ Hx]; exact Hx]);
      simpl; intuition discriminate.
Qed.

Lemma C7_determine_products_base_witness :
  exists result,
    determine_products (example_compile_pc ["gcc"; "-c"; "src/foo.c"]) = Ok result /\
    In "foo.o" result.
Proof.
  destruct (proj2 (C7_determine_products_base (example_compile_pc ["gcc"; "-c"; "src/foo.c"])
                     ltac:(vm_compute; reflexivity) ltac:(vm_compute; reflexivity)
                     ltac:(vm_compute; reflexivity) ltac:(vm_compute; reflexivity))
                  ltac:(vm_compute; reflexivity)) as [result [E H]].
  exists result. split; [exact E|]. apply H. vm_compute.
  split; [right; left; discriminate|].
  right. exists "src/foo.c". split; [left; reflexivity|reflexivity].
Defined.

(** C7 counterexample: the Sun Studio compile command [CC -c foo.il -o foo.o]
    has only an auxiliary input (every input recognized) and the product
    [foo.o] from [-o], yet [determine_products] returns the empty set. *)
Lemma C7_counterexample :
  let pc := example_compile_pc ["CC"; "-c"; "foo.il"; "-o"; "foo.o"] in
  is_compiler_command pc = true /\ contains_unsupported_options pc = false /\
  forallb (recognized_input pc) (pc_vec pc d_inputFiles) = true /\
  get_products pc = ["foo.o"] /\ determine_products pc = Ok [].
Proof. vm_compute. repeat split. Qed.

(** C4 (amended): for a rule [target ":" f1 ... fn] whose target has no
    ':', '\' or newline, whose filenames are nonempty and hold no space, '\'
    or newline, and whose separators are any mix of spaces and
    backslash-newline continuations (also before the first filename and after
    the last, with an optional final newline), [dependencies_from_make_rules]
    (not Sun format) returns the set of [joined_names]: only the space
    character separates names, and a filename whose separator holds no space
    (only continuations, or nothing) is glued onto the name before it.  So
    when at least one space stands between two filenames the result is
    exactly the set [{f1, ..., fn}], whatever the layout of the separators. *)
Theorem C4_make_rule_dependencies (target : string) (items : list (list SepPiece * string))
  (trail : list SepPiece) (final_newline : bool) :
  target_ok target = true ->
  forallb (fun '(_, f) => filename_ok f) items = true ->
  dependencies_from_make_rules (make_rule target items trail final_newline) false =
  StdSet.of_list (joined_names items) /\
  (forallb (fun '(s, _) => has_space s) (List.tl items) = true ->
   dependencies_from_make_rules (make_rule target items trail final_newline) false =
   StdSet.of_list (List.map snd items)).
Proof.
  intros Ht Hf. unfold dependencies_from_make_rules, make_rule.
  rewrite make_run_app, make_run_target by exact Ht. simpl.
  split.
  { rewrite !make_run_app.
    destruct (make_run_items_joined items [] EmptyString Hf) as (R' & c' & E & F).
    rewrite E, make_run_trail, F. reflexivity. }
  intro Hs.
  destruct items as [|[s1 f1] rest].
  - simpl. rewrite make_run_app. apply (make_run_trail [] EmptyString trail final_newline).
  - simpl in Hf, Hs. apply andb_prop in Hf; destruct Hf as [Hf1 Hf].
    unfold filename_ok in Hf1; apply andb_prop in Hf1; destruct Hf1 as [Hne Hchars].
    simpl render_items. rewrite !make_run_app, make_run_sep.
    replace (if has_space s1
             then mkMakeState (make_final (mkMakeState [] true false EmptyString)) true false EmptyString
             else mkMakeState [] true false EmptyString)
      with (mkMakeState [] true false EmptyString) by (destruct (has_space s1); reflexivity).
    rewrite make_run_filename by exact Hchars.
    destruct (make_run_items rest [] (append EmptyString f1) Hf Hs) as (R' & c' & E & F).
    rewrite E, make_run_trail, F. simpl.
    unfold make_final; simpl. destruct f1; [discriminate|reflexivity].
Qed.

Lemma C4_make_rule_dependencies_witness :
  dependencies_from_make_rules
    (make_rule "foo.o" [([Space], "b.h"); ([Continuation], "c.h");
                        ([Continuation; Space; Space], "a.h")] [Space] true)
    false = ["a.h"; "b.hc.h"] /\
  dependencies_from_make_rules
    (make_rule "foo.o" [([Space], "b.h"); ([Continuation; Space; Space], "a.h")] [Space] true)
    false = ["a.h"; "b.h"].
Proof.
  split.
  - pose proof (C4_make_rule_dependencies "foo.o"
           [([Space], "b.h"); ([Continuation], "c.h"); ([Continuation; Space; Space], "a.h")]
           [Space] true eq_refl eq_refl) as H.
    destruct H as [H _]. rewrite H. vm_compute. reflexivity.
  - pose proof (C4_make_rule_dependencies "foo.o"
           [([Space], "b.h"); ([Continuation; Space; Space], "a.h")] [Space] true
           eq_refl eq_refl) as H.
    destruct H as [_ H]. rewrite (H eq_refl). vm_compute. reflexivity.
Defined.

(** C4 counterexample: a tab between two filenames, or a backslash-newline
    with no space beside it, does not separate them. *)
Lemma C4_counterexample :
  dependencies_from_make_rules "foo.o: a.h b.h" false = ["a.h"; "b.h"] /\
  dependencies_from_make_rules
    (append "foo.o: a.h" (String (ascii_of_nat 9) "b.h")) false =
    [append "a.h" (String (ascii_of_nat 9) "b.h")] /\
  dependencies_from_make_rules
    (append "foo.o: a.h" (String chr_bslash (String chr_nl "b.h"))) false = ["a.hb.h"].
Proof. vm_compute. repeat split. Qed.

(** C3: the two version switches of the built messages. The Command carries
    the outputs in [output_paths] exactly when the configured REAPI version is
    at least 2.1, and in the split [output_files] / [output_directories]
    fields otherwise; the Action carries a copy of the Command's platform
    exactly when the configured version is at least 2.2. *)
Theorem C3_reapi_version_switches {Digest : Type} (make_digest : Command -> Digest)
  (cfg : Config) (host : Host) (ver : nat * nat) (uncacheable : bool) (salt : string)
  (command products outputDirectories : list string)
  (remoteEnv platform : list (string * string)) (wd : string) (directoryDigest : Digest) :
  let '(c, _, a) := buildActionTail make_digest cfg host ver uncacheable salt command
                      products outputDirectories remoteEnv platform wd directoryDigest in
  let paths := configured_reapi_version_equal_to_or_newer_than ver (2, 1) in
  cmd_output_paths c = (if paths then products ++ outputDirectories else []) /\
  cmd_output_files c = (if paths then [] else products) /\
  cmd_output_directories c = (if paths then [] else outputDirectories) /\
  action_platform a =
    (if configured_reapi_version_equal_to_or_newer_than ver (2, 2)
     then Some (cmd_platform c) else None).
Proof.
  unfold buildActionTail, generateCommandProto, populateCommandProto; simpl.
  repeat split.
Qed.

(** C2: a nonempty [RECC_ACTION_SALT] changes only the Action's salt. Against
    the run with an empty salt, the Command, its digest, the input-root
    digest, [do_not_cache] and the platform are the same, the salted Action is
    the unsalted one with its salt field set, the unsalted Action leaves the
    salt at its unset value [""], and for a collision-free Action digest the
    two Action digests differ. *)
Theorem C2_salt_changes_only_action {Digest : Type} (make_digest : Command -> Digest)
  (action_digest : Action Digest -> Digest)
  (Hinj : forall a1 a2, action_digest a1 = action_digest a2 -> a1 = a2)
  (cfg : Config) (host : Host) (ver : nat * nat) (uncacheable : bool) (salt : string)
  (Hsalt : salt <> EmptyString)
  (command products outputDirectories : list string)
  (remoteEnv platform : list (string * string)) (wd : string) (directoryDigest : Digest) :
  let '(c1, d1, a1) := buildActionTail make_digest cfg host ver uncacheable salt command
                         products outputDirectories remoteEnv platform wd directoryDigest in
  let '(c0, d0, a0) := buildActionTail make_digest cfg host ver uncacheable EmptyString
                         command products outputDirectories remoteEnv platform wd
                         directoryDigest in
  c1 = c0 /\ d1 = d0 /\
  action_command_digest a1 = action_command_digest a0 /\
  action_input_root_digest a1 = action_input_root_digest a0 /\
  action_do_not_cache a1 = action_do_not_cache a0 /\
  action_platform a1 = action_platform a0 /\
  action_salt a0 = EmptyString /\ action_salt a1 = salt /\
  a1 = mkAction (action_command_digest a0) (action_input_root_digest a0)
         (action_do_not_cache a0) salt (action_platform a0) /\
  a1 <> a0 /\ action_digest a1 <> action_digest a0.
Proof.
  unfold buildActionTail; simpl.
  assert (Hs : (if is_empty salt then EmptyString else salt) = salt)
    by (destruct salt; [contradiction | reflexivity]).
  rewrite Hs.
  assert (Hne : forall p q : option (list (string * string)),
    @mkAction Digest
      (make_digest (generateCommandProto cfg host ver command products outputDirectories
                      remoteEnv platform wd)) directoryDigest uncacheable salt p <>
    mkAction
      (make_digest (generateCommandProto cfg host ver command products outputDirectories
                      remoteEnv platform wd)) directoryDigest uncacheable EmptyString q)
    by (intros p q E; injection E as E _; exact (Hsalt E)).
  repeat split; try apply Hne.
  intro E; apply Hinj in E; exact (Hne _ _ E).
Qed.

Lemma C2_salt_changes_only_action_witness :
  let '(c1, d1, a1) := buildActionTail blob_of_command example_config example_host (2, 2)
                         false "verify:local" ["gcc"; "-c"; "foo.c"] ["foo.o"] []
                         [] [("OSFamily", "linux")] "/w" (BStr "root") in
  let '(c0, d0, a0) := buildActionTail blob_of_command example_config example_host (2, 2)
                         false EmptyString ["gcc"; "-c"; "foo.c"] ["foo.o"] []
                         [] [("OSFamily", "linux")] "/w" (BStr "root") in
  c1 = c0 /\ d1 = d0 /\
  action_command_digest a1 = action_command_digest a0 /\
  action_input_root_digest a1 = action_input_root_digest a0 /\
  action_do_not_cache a1 = action_do_not_cache a0 /\
  action_platform a1 = action_platform a0 /\
  action_salt a0 = EmptyString /\ action_salt a1 = "verify:local" /\
  a1 = mkAction (action_command_digest a0) (action_input_root_digest a0)
         (action_do_not_cache a0) "verify:local" (action_platform a0) /\
  a1 <> a0 /\ blob_of_action a1 <> blob_of_action a0.
Proof.
  exact (C2_salt_changes_only_action blob_of_command blob_of_action blob_of_action_inj
           example_config example_host (2, 2) false "verify:local"
           ltac:(discriminate) ["gcc"; "-c"; "foo.c"] ["foo.o"] []
           [] [("OSFamily", "linux")] "/w" (BStr "root")).
Defined.

(** * Further properties of the code *)

(** [FileUtils::hasPathPrefix path prefix] holds exactly when [prefix] is
    nonempty and [path] is [prefix] itself or continues it at a directory
    boundary: either [prefix] ends in '/' or the rest of [path] starts with
    '/'. So "/foo" is not a path prefix of "/foobar". *)
Theorem hasPathPrefix_iff_boundary (path prefix : string) :
  hasPathPrefix path prefix = true <->
  prefix <> EmptyString /\
  (path = prefix \/
   exists rest, path = append prefix rest /\
                (last_char prefix = Some chr_slash \/ front_char rest = Some chr_slash)).
Proof.
  unfold hasPathPrefix.
  destruct (is_empty prefix) eqn:Ep.
  { destruct prefix; [|discriminate]. split; [discriminate|intros [H _]; now contradiction H]. }
  assert (Hne : prefix <> EmptyString) by (intros ->; discriminate).
  destruct (String.eqb_spec path prefix) as [->|Hneq].
  { split; [intros _; split; [exact Hne|left; reflexivity] | reflexivity]. }
  assert (Slash : forall rest, append (push_char prefix chr_slash) rest =
                               append prefix (String chr_slash rest))
    by (intros; apply push_char_app).
  destruct (last_char prefix) as [c|] eqn:Elast;
    [destruct (Ascii.eqb_spec c chr_slash) as [->|Hc]|];
    rewrite String.eqb_eq, prefix_of_len_iff.
  - split.
    + intros [rest ->]. split; [exact Hne|right]. exists rest. split; [reflexivity|left; reflexivity].
    + intros [_ [H|[rest [-> _]]]]; [contradiction|exists rest; reflexivity].
  - split.
    + intros [rest ->]. split; [exact Hne|right]. exists (String chr_slash rest).
      split; [apply Slash|right; reflexivity].
    + intros [_ [H|[rest [-> [H|H]]]]]; [contradiction| |].
      * injection H as H. contradiction.
      * destruct rest as [|d rest]; [discriminate|]. injection H as ->.
        exists rest. symmetry. apply Slash.
  - split.
    + intros [rest ->]. split; [exact Hne|right]. exists (String chr_slash rest).
      split; [apply Slash|right; reflexivity].
    + intros [_ [H|[rest [-> [H|H]]]]]; [contradiction|discriminate|].
      destruct rest as [|d rest]; [discriminate|]. injection H as ->.
      exists rest. symmetry. apply Slash.
Qed.

(** [FileUtils::parentDirectoryLevels] is never negative; a leading "../"
    adds one level, and a leading "./" or "/" changes nothing. *)
Theorem parentDirectoryLevels_leading (p : string) :
  (0 <= parentDirectoryLevels p)%Z /\
  parentDirectoryLevels (append "../" p) = (parentDirectoryLevels p + 1)%Z /\
  parentDirectoryLevels (append "./" p) = parentDirectoryLevels p /\
  parentDirectoryLevels (append "/" p) = parentDirectoryLevels p.
Proof.
  unfold parentDirectoryLevels.
  pose proof (pdl_le p EmptyString 0 0 ltac:(lia)) as Hle.
  split; [lia|]. split; [|split; reflexivity].
  cbn [append parentDirectoryLevels_scan push_char str1 Ascii.eqb is_empty String.eqb
       chr_nul chr_slash orb].
  simpl. rewrite (pdl_shift p EmptyString (-1) (Z.min 0 (-1)) ltac:(lia)). lia.
Qed.

(** A leading ordinary segment (nonempty, neither "." nor "..", with no '/'
    or NUL) followed by '/' takes one level off what the rest needs, down
    to zero. *)
Theorem parentDirectoryLevels_leading_segment (seg p : string) :
  segment_chars_ok seg = true -> seg <> EmptyString -> seg <> "." -> seg <> ".." ->
  parentDirectoryLevels (append seg (String chr_slash p)) =
  Z.max 0 (parentDirectoryLevels p - 1).
Proof.
  intros Hok Hne Hdot Hdd. unfold parentDirectoryLevels.
  rewrite pdl_accum by exact Hok. cbn [append parentDirectoryLevels_scan].
  pose proof (pdl_le p EmptyString 0 0 ltac:(lia)) as Hle.
  replace (Ascii.eqb chr_slash chr_nul) with false by reflexivity.
  replace (Ascii.eqb chr_slash chr_slash) with true by reflexivity.
  apply String.eqb_neq in Hdot, Hdd. rewrite Hdot, Hdd.
  replace (is_empty seg) with false by (destruct seg; [contradiction|reflexivity]).
  simpl. rewrite (pdl_shift p EmptyString 1 0 ltac:(lia)). lia.
Qed.

Lemma parentDirectoryLevels_leading_segment_witness :
  parentDirectoryLevels "src/../../x" = 1%Z /\
  parentDirectoryLevels (append "src" (String chr_slash "../../x")) =
  Z.max 0 (parentDirectoryLevels "../../x" - 1).
Proof.
  split; [vm_compute; reflexivity|].
  apply parentDirectoryLevels_leading_segment;
    [vm_compute; reflexivity|discriminate|discriminate|discriminate].
Defined.

(** When no dependency path and no product has a ".." segment,
    [ActionBuilder::commonAncestorPath] is the empty path, whatever the
    working directory. *)
Theorem commonAncestorPath_no_dotdot (dependencies : list (string * string))
  (products : list string) (workingDirectory : string) :
  (forall dep, In dep dependencies -> ~ In ".." (parseDirectories (snd dep))) ->
  (forall product, In product products -> ~ In ".." (parseDirectories product)) ->
  commonAncestorPath dependencies products workingDirectory = Ok EmptyString.
Proof.
  intros Hd Hp. unfold commonAncestorPath.
  rewrite (fold_left_fixed _ dependencies 0%Z).
  - rewrite fold_left_fixed; [reflexivity|].
    intros x Hx. unfold parentDirectoryLevels.
    rewrite pdl_no_dotdot by (lia || exact (Hp x Hx)). reflexivity.
  - intros x Hx. unfold parentDirectoryLevels.
    rewrite pdl_no_dotdot by (lia || exact (Hd x Hx)). reflexivity.
Qed.

Lemma commonAncestorPath_no_dotdot_witness :
  commonAncestorPath [("/usr/include/stdio.h", "include/stdio.h")] ["out/foo.o"] "/src/w"
  = Ok EmptyString.
Proof.
  apply commonAncestorPath_no_dotdot.
  - intros dep [<-|[]]. vm_compute. intros [H|[H|[]]]; discriminate.
  - intros product [<-|[]]. vm_compute. intros [H|[H|[]]]; discriminate.
Defined.

(** [FileUtils::parseDirectories] returns only nonempty segments without '/'
    or NUL, and gives back the segments joined by '/', with or without a
    leading '/'. *)
Theorem parseDirectories_segments (path : string) (segs : list string) :
  (forall tok, In tok (parseDirectories path) ->
     tok <> EmptyString /\ segment_chars_ok tok = true) /\
  (forallb (fun s => negb (is_empty s) && segment_chars_ok s) segs = true ->
   parseDirectories (String.concat "/" segs) = segs /\
   parseDirectories (String chr_slash (String.concat "/" segs)) = segs).
Proof.
  split.
  - intros tok. apply pd_tokens. reflexivity.
  - intros H. unfold parseDirectories. split; [exact (pd_concat segs H)|].
    simpl. exact (pd_concat segs H).
Qed.

(** [FileUtils::stripDirectory] never returns a '/'; it returns what follows
    the last '/', and a name without '/' unchanged. *)
Theorem stripDirectory_last_segment (d b : string) :
  no_char chr_slash (stripDirectory d) = true /\
  (no_char chr_slash b = true ->
   stripDirectory (append d (String chr_slash b)) = b /\ stripDirectory b = b).
Proof.
  split.
  - unfold stripDirectory. destruct (rfind_char chr_slash d) as [i|] eqn:E.
    + exact (rfind_char_some _ _ _ E).
    + exact (rfind_char_none _ _ E).
  - intros Hb. unfold stripDirectory. rewrite (rfind_char_no_char _ _ Hb). split; [|reflexivity].
    rewrite rfind_char_app. simpl. rewrite (rfind_char_no_char _ _ Hb).
    replace (append d (String chr_slash b)) with (append (append d (str1 chr_slash)) b)
      by (rewrite append_assoc_str; reflexivity).
    replace (S (String.length d + 0)) with (String.length (append d (str1 chr_slash)))
      by (rewrite length_append_str; simpl; lia).
    apply suffix_from_app.
Qed.

(** [FileUtils::replaceSuffix] cuts at the last '.' of the whole path, even
    one in a directory name, and appends the suffix; a path without '.' gets
    the suffix appended. *)
Theorem replaceSuffix_last_dot (a e suffix : string) :
  no_char chr_dot e = true ->
  replaceSuffix (append a (String chr_dot e)) suffix = append a suffix /\
  replaceSuffix e suffix = append e suffix.
Proof.
  intros He. unfold replaceSuffix. rewrite (rfind_char_no_char _ _ He). split; [|reflexivity].
  rewrite rfind_char_app. simpl. rewrite (rfind_char_no_char _ _ He). simpl.
  rewrite Nat.add_0_r, prefix_of_len_app. reflexivity.
Qed.

Lemma replaceSuffix_last_dot_witness :
  replaceSuffix "build.dir/out" ".d" = "build.d" /\ replaceSuffix "dir/out" ".d" = "dir/out.d".
Proof.
  exact (replaceSuffix_last_dot "build" "dir/out" ".d" eq_refl).
Defined.

(** [FileUtils::resolvePathFromPrefixMap] leaves a path alone when no key
    of [RECC_PREFIX_REPLACEMENT] is a path prefix of it. *)
Theorem resolvePathFromPrefixMap_no_match (cfg : Config) (host : Host) (path : string) :
  (forall kv, In kv (RECC_PREFIX_REPLACEMENT cfg) -> hasPathPrefix path (fst kv) = false) ->
  resolvePathFromPrefixMap cfg host path = path.
Proof.
  rewrite resolve_eq. induction (RECC_PREFIX_REPLACEMENT cfg) as [|[from to] l IH]; intros H;
    simpl; [reflexivity|].
  rewrite (H (from, to) (or_introl eq_refl) : hasPathPrefix path from = false). apply IH. intros kv Hkv. apply H. right. exact Hkv.
Qed.

Lemma resolvePathFromPrefixMap_no_match_witness :
  resolvePathFromPrefixMap (mkConfig [("/opt/tools", "/tools")] "" false false) example_host
    "/opt/toolsx/bin" = "/opt/toolsx/bin".
Proof.
  apply resolvePathFromPrefixMap_no_match. intros kv [<-|[]]. vm_compute. reflexivity.
Defined.

(** The first key of [RECC_PREFIX_REPLACEMENT] that is a path prefix of the
    path decides: the path becomes the normalized value, '/', and the rest
    of the path after the key. *)
Theorem resolvePathFromPrefixMap_first_match (cfg : Config) (host : Host) (path from to : string)
  (pre post : list (string * string)) :
  RECC_PREFIX_REPLACEMENT cfg = pre ++ (from, to) :: post ->
  (forall kv, In kv pre -> hasPathPrefix path (fst kv) = false) ->
  hasPathPrefix path from = true ->
  resolvePathFromPrefixMap cfg host path =
  normalizePath host (append (push_char to chr_slash) (suffix_from (String.length from) path)).
Proof.
  intros E Hpre Hm. rewrite resolve_eq, E. clear E. induction pre as [|[f t] pre IH]; simpl.
  - rewrite Hm. reflexivity.
  - rewrite (Hpre (f, t) (or_introl eq_refl) : hasPathPrefix path f = false). apply IH. intros kv Hkv. apply Hpre. right. exact Hkv.
Qed.

Lemma resolvePathFromPrefixMap_first_match_witness :
  resolvePathFromPrefixMap (mkConfig [("/a/b", "/x"); ("/a", "/y")] "" false false) example_host
    "/a/b/c.h" = "/x//c.h".
Proof.
  exact (resolvePathFromPrefixMap_first_match (mkConfig [("/a/b", "/x"); ("/a", "/y")] "" false false)
           example_host "/a/b/c.h" "/a/b" "/x" [] [("/a", "/y")] eq_refl
           (fun kv H => match H with end) eq_refl).
Defined.

(** [FileUtils::lastNSegments] on an absolute path ["/s1/.../sm"] whose
    segments hold no '/' or NUL and whose last segment is nonempty: for
    [1 <= n <= m]
    it returns the last [n] segments joined by '/', for [n = 0] the empty
    string, and for any other [n] (negative, or more than [m]) it throws
    [std::logic_error]. *)
Theorem lastNSegments_absolute_path (segs : list string) (n : Z) :
  Forall (fun s => segment_chars_ok s = true) segs ->
  last segs EmptyString <> EmptyString ->
  lastNSegments (String chr_slash (String.concat "/" segs)) n =
  if Z.eqb n 0 then Ok EmptyString
  else if (0 <? n)%Z && (n <=? Z.of_nat (length segs))%Z
  then Ok (String.concat "/" (skipn (length segs - Z.to_nat n) segs))
  else Throw "std::logic_error".
Proof.
  intros Hc Hl.
  assert (Hf : Forall (fun s => no_char chr_slash s = true) segs)
    by (eapply Forall_impl; [|exact Hc]; intros a; apply segment_chars_no_slash).
  assert (Hz : no_char chr_nul (slashed segs) = true)
    by exact (slashed_no_nul EmptyString segs eq_refl Hc).
  destruct (exists_last (l := segs) ltac:(intros E; subst; apply Hl; reflexivity))
    as [init [l Einit]].
  assert (Ll : l = last segs EmptyString) by (rewrite Einit, last_last; reflexivity).
  assert (Hlf : no_char chr_slash l = true)
    by (rewrite Einit in Hf; apply Forall_app in Hf as [_ Hf]; inversion Hf; assumption).
  rewrite (slashed_concat segs) by (intros E; rewrite E in Hl; apply Hl; reflexivity).
  destruct (Z.eqb n 0) eqn:Hn0; [apply Z.eqb_eq in Hn0; subst; reflexivity|].
  apply Z.eqb_neq in Hn0.
  rewrite (lastNSegments_start _ (push_char (slashed init) chr_slash) l n Hn0 Hz)
    by first [rewrite Einit; apply slashed_last | rewrite Ll; exact Hl | exact Hlf].
  pose proof (scan_whole EmptyString segs n Hf) as W. simpl append in W. rewrite W. clear W.
  destruct ((0 <? n)%Z && (n <=? Z.of_nat (length segs))%Z); [reflexivity|].
  simpl. destruct segs as [|s0 r]; [exfalso; apply Hl; reflexivity|].
  simpl length. replace (Z.eqb (Z.of_nat (S (length r))) 0) with false by (symmetry; apply Z.eqb_neq; lia).
  reflexivity.
Qed.

Lemma lastNSegments_absolute_path_witness :
  lastNSegments "/usr/include/sys/types.h" 2 = Ok "sys/types.h" /\
  lastNSegments "/usr/include/sys/types.h" 5 = Throw "std::logic_error".
Proof.
  split.
  - exact (lastNSegments_absolute_path ["usr"; "include"; "sys"; "types.h"] 2
             ltac:(repeat constructor) ltac:(discriminate)).
  - exact (lastNSegments_absolute_path ["usr"; "include"; "sys"; "types.h"] 5
             ltac:(repeat constructor) ltac:(discriminate)).
Defined.

(** [FileUtils::lastNSegments] on a relative path ["s0/s1/.../sm"] whose
    segments hold no '/' or NUL and whose last segment is nonempty never
    counts the first segment: for [1 <= n <= m] it returns the last [n]
    segments, a one-segment path comes back whole for [n = 1], and any other
    nonzero [n], including [m + 1] (all the segments), throws
    [std::logic_error]. *)
Theorem lastNSegments_relative_path (s0 : string) (segs : list string) (n : Z) :
  segment_chars_ok s0 = true ->
  Forall (fun s => segment_chars_ok s = true) segs ->
  last (s0 :: segs) EmptyString <> EmptyString ->
  lastNSegments (String.concat "/" (s0 :: segs)) n =
  if Z.eqb n 0 then Ok EmptyString
  else if (0 <? n)%Z && (n <=? Z.of_nat (length segs))%Z
  then Ok (String.concat "/" (skipn (length segs - Z.to_nat n) segs))
  else if Nat.eqb (length segs) 0 && Z.eqb n 1 then Ok s0
  else Throw "std::logic_error".
Proof.
  intros Hc0 Hc Hl.
  pose proof (slashed_no_nul s0 segs Hc0 Hc) as Hz.
  pose proof (segment_chars_no_slash s0 Hc0) as H0.
  assert (Hf : Forall (fun s => no_char chr_slash s = true) segs)
    by (eapply Forall_impl; [|exact Hc]; intros a; apply segment_chars_no_slash).
  rewrite concat_slashed.
  destruct (Z.eqb n 0) eqn:Hn0; [apply Z.eqb_eq in Hn0; subst; reflexivity|].
  apply Z.eqb_neq in Hn0.
  destruct segs as [|s1 r] eqn:Es.
  - simpl in Hl, Hz |- *. rewrite append_empty_r in Hz |- *.
    rewrite (lastNSegments_start s0 EmptyString s0 n Hn0 Hz eq_refl Hl H0).
    rewrite (scan_no_slash s0 s0 EmptyString n 0 _ 0 (eq_sym (append_empty_r s0)) H0 (le_n _)).
    try change (Z.of_nat 0) with 0%Z.
    destruct (Z.ltb_spec 0 n), (Z.leb_spec n 0); simpl; try lia; reflexivity.
  - rewrite <- Es in *.
    destruct (exists_last (l := segs) ltac:(rewrite Es; discriminate)) as [init [l Einit]].
    assert (Hlf : no_char chr_slash l = true)
      by (rewrite Einit in Hf; apply Forall_app in Hf as [_ Hf]; inversion Hf; assumption).
    assert (Hln : l <> EmptyString).
    { intros E. apply Hl. rewrite Es in Einit |- *.
      change (last (s0 :: s1 :: r) EmptyString) with (last (s1 :: r) EmptyString).
      rewrite Einit, last_last. exact E. }
    rewrite (lastNSegments_start _ (append s0 (push_char (slashed init) chr_slash)) l n Hn0 Hz)
      by (try (rewrite Einit, slashed_last, append_assoc_str; reflexivity); assumption).
    pose proof (scan_whole s0 segs n Hf) as W. simpl in W. rewrite W. clear W.
    destruct ((0 <? n)%Z && (n <=? Z.of_nat (length segs))%Z); [reflexivity|].
    rewrite (scan_no_slash _ s0 (slashed segs) n _ _ _ eq_refl H0 (le_n _)).
    rewrite Es. simpl length.
    replace (Z.eqb (Z.of_nat (S (length r))) 0) with false by (symmetry; apply Z.eqb_neq; lia).
    reflexivity.
Qed.

Lemma lastNSegments_relative_path_witness :
  lastNSegments "src/lib/a.c" 2 = Ok "lib/a.c" /\
  lastNSegments "src/lib/a.c" 3 = Throw "std::logic_error" /\
  lastNSegments "a.c" 1 = Ok "a.c".
Proof.
  split; [|split].
  - exact (lastNSegments_relative_path "src" ["lib"; "a.c"] 2
             eq_refl ltac:(repeat constructor) ltac:(discriminate)).
  - exact (lastNSegments_relative_path "src" ["lib"; "a.c"] 3
             eq_refl ltac:(repeat constructor) ltac:(discriminate)).
  - exact (lastNSegments_relative_path "a.c" [] 1 eq_refl ltac:(constructor) ltac:(discriminate)).
Defined.

(** [ActionBuilder::populateRemoteEnvWithNonReccVars] throws
    [std::runtime_error] exactly when some entry that does not start with
    ["RECC_"] has no '='; otherwise it returns a map (it never fails in
    another way). *)
Theorem populateRemoteEnvWithNonReccVars_throws (env : list string) (m : StrMap.t) :
  (populateRemoteEnvWithNonReccVars env m = Throw "std::runtime_error" <->
   Exists (fun item => starts_with "RECC_" item = false /\ find_char chr_eq item = None) env) /\
  (~ Exists (fun item => starts_with "RECC_" item = false /\ find_char chr_eq item = None) env ->
   exists m', populateRemoteEnvWithNonReccVars env m = Ok m').
Proof.
  revert m. induction env as [|item rest IH]; intros m; simpl.
  - split; [split; [discriminate|intros H; inversion H]|]. intros _. exists m. reflexivity.
  - rewrite Exists_cons. destruct (starts_with "RECC_" item) eqn:Es.
    + destruct (IH m) as [IH1 IH2]. split.
      * rewrite IH1. split; [tauto|]. intros [[H _]|H]; [discriminate|exact H].
      * intros Hn. apply IH2. tauto.
    + destruct (find_char chr_eq item) as [p|] eqn:Ef.
      * destruct (IH (StrMap.assign (prefix_of_len p item) (suffix_from (S p) item) m))
          as [IH1 IH2]. split.
        -- rewrite IH1. split; [tauto|]. intros [[_ H]|H]; [discriminate|exact H].
        -- intros Hn. apply IH2. tauto.
      * split; [split; [intros _; left; split; reflexivity|reflexivity]|].
        intros Hn. exfalso. apply Hn. left. split; reflexivity.
Qed.

Lemma populateRemoteEnvWithNonReccVars_throws_witness :
  populateRemoteEnvWithNonReccVars ["PATH=/bin"; "RECC_SERVER"; "BROKEN"] [] =
  Throw "std::runtime_error".
Proof.
  apply (proj2 (proj1 (populateRemoteEnvWithNonReccVars_throws
                         ["PATH=/bin"; "RECC_SERVER"; "BROKEN"] []))).
  right. right. left. split; reflexivity.
Defined.

(** Entries ["KEY=VALUE"] whose keys have no '=' and do not start with
    ["RECC_"] are split at their first '=' and copied: afterwards each key
    holds the value of its last entry (a value may contain '='), and every
    other key keeps what the map had. *)
Theorem populateRemoteEnvWithNonReccVars_pairs (kvs : list (string * string)) (m : StrMap.t) :
  Forall (fun kv => no_char chr_eq (fst kv) = true /\ starts_with "RECC_" (fst kv) = false) kvs ->
  exists m', populateRemoteEnvWithNonReccVars
               (map (fun kv => append (fst kv) (String chr_eq (snd kv))) kvs) m = Ok m' /\
  forall k, StrMap.find k m' =
            match StrMap.find k (rev kvs) with Some v => Some v | None => StrMap.find k m end.
Proof.
  intros Hf. exists (fold_left (fun m kv => StrMap.assign (fst kv) (snd kv) m) kvs m).
  split; [|intros k; apply strmap_find_fold_assign].
  revert m. induction Hf as [|[k v] kvs [Hk Hs] Hf IH]; intros m; simpl in *; [reflexivity|].
  rewrite (starts_with_recc_entry k v Hk Hs), (find_char_app_hit _ _ _ Hk).
  rewrite prefix_of_len_app.
  replace (suffix_from (S (String.length k)) (append k (String chr_eq v))) with v.
  - apply IH.
  - replace (append k (String chr_eq v)) with (append (append k (str1 chr_eq)) v)
      by (rewrite append_assoc_str; reflexivity).
    replace (S (String.length k)) with (String.length (append k (str1 chr_eq)))
      by (rewrite length_append_str; simpl; lia).
    symmetry. apply suffix_from_app.
Qed.

Lemma populateRemoteEnvWithNonReccVars_pairs_witness :
  exists m', populateRemoteEnvWithNonReccVars
               (map (fun kv => append (fst kv) (String chr_eq (snd kv)))
                    [("CC", "gcc"); ("FLAGS", "-DX=1"); ("CC", "clang")]) [] = Ok m' /\
  forall k, StrMap.find k m' =
            match StrMap.find k (rev [("CC", "gcc"); ("FLAGS", "-DX=1"); ("CC", "clang")]) with
            | Some v => Some v | None => StrMap.find k [] end.
Proof.
  exact (populateRemoteEnvWithNonReccVars_pairs [("CC", "gcc"); ("FLAGS", "-DX=1"); ("CC", "clang")] []
           ltac:(repeat constructor)).
Defined.

(** [ActionBuilder::populateRemoteEnvWithNonReccVars] never sets a key that
    starts with ["RECC_"]. *)
Theorem populateRemoteEnvWithNonReccVars_skips_recc (env : list string) (m m' : StrMap.t) :
  populateRemoteEnvWithNonReccVars env m = Ok m' ->
  forall k, starts_with "RECC_" k = true -> StrMap.find k m' = StrMap.find k m.
Proof.
  revert m. induction env as [|item rest IH]; intros m H k Hk; simpl in H.
  - injection H as <-. reflexivity.
  - destruct (starts_with "RECC_" item) eqn:Es; [exact (IH m H k Hk)|].
    destruct (find_char chr_eq item) as [p|]; [|discriminate].
    rewrite (IH _ H k Hk). apply StrMap.find_assign_other. intros ->.
    unfold starts_with in Hk, Es. simpl String.length in Hk, Es.
    apply String.eqb_eq in Hk.
    destruct (Nat.le_gt_cases 5 p) as [Hle|Hgt].
    + rewrite prefix_of_len_prefix in Hk by exact Hle. rewrite Hk, String.eqb_refl in Es.
      discriminate.
    + pose proof (length_prefix_of_len_le 5 (prefix_of_len p item)) as L1.
      pose proof (length_prefix_of_len p item) as L2.
      rewrite Hk in L1. simpl in L1. lia.
Qed.

Lemma populateRemoteEnvWithNonReccVars_skips_recc_witness :
  StrMap.find "RECC_SERVER" [("CC", "gcc")] = StrMap.find "RECC_SERVER" [].
Proof.
  exact (populateRemoteEnvWithNonReccVars_skips_recc ["RECC_SERVER=localhost:50051"; "CC=gcc"]
           [] [("CC", "gcc")] eq_refl "RECC_SERVER" eq_refl).
Defined.

(** The rewriting of a ':'-separated path-like variable in
    [ActionBuilder::prepareRemoteEnv] drops the empty entries, passes each
    other entry through [resolvePathFromPrefixMap] and joins them with ':';
    a trailing empty entry leaves a trailing ':' when some entry was kept. *)
Theorem pathMapEnv_pieces (cfg : Config) (host : Host) (pieces : list string) :
  Forall (fun p => no_char chr_colon p = true) pieces ->
  pathMapEnv cfg host (String.concat ":" pieces) =
  append (String.concat ":" (map (resolvePathFromPrefixMap cfg host)
                                (filter (fun p => negb (is_empty p)) pieces)))
    (if is_empty (last pieces EmptyString) && negb (forallb is_empty pieces) then ":" else "").
Proof.
  intros Hf. destruct pieces as [|p ps]; [reflexivity|].
  unfold pathMapEnv. rewrite (pathMapEnv_aux_concat cfg host ps p EmptyString Hf). reflexivity.
Qed.

Lemma pathMapEnv_pieces_witness :
  pathMapEnv (mkConfig [("/opt", "/remote")] "" false false) example_host "/opt/bin::/usr/bin:" =
  "/remote//bin:/usr/bin:".
Proof.
  exact (pathMapEnv_pieces (mkConfig [("/opt", "/remote")] "" false false) example_host
           ["/opt/bin"; ""; "/usr/bin"; ""] ltac:(repeat constructor)).
Defined.

(** [ActionBuilder::prepareRemoteEnv]: a [RECC_REMOTE_ENV] entry always wins;
    otherwise a variable is set only when it is in the set of variables to
    read and [getenv] finds it (path-like ones rewritten), and else keeps the
    value [RECC_PRESERVE_ENV] copied from the environment.  The defaults are
    put into [RECC_ENV_TO_READ] only when it is empty and the environment is
    not preserved, and the global keeps them for later calls. *)
Theorem prepareRemoteEnv_lookup (cfg : Config) (host : Host) (RECC_PRESERVE_ENV : bool)
  (RECC_ENV_TO_READ : list string) (RECC_REMOTE_ENV : StrMap.t) (environ : list string)
  (getenv : string -> option string) (command : ParsedCommand) (m0 : StrMap.t) :
  NoDup (map fst RECC_REMOTE_ENV) ->
  (if RECC_PRESERVE_ENV then populateRemoteEnvWithNonReccVars environ [] = Ok m0
   else m0 = []) ->
  let toRead :=
    if RECC_PRESERVE_ENV then RECC_ENV_TO_READ
    else match RECC_ENV_TO_READ with
         | [] => default_env_to_read command []
         | _ => RECC_ENV_TO_READ
         end in
  exists m,
    prepareRemoteEnv cfg host RECC_PRESERVE_ENV RECC_ENV_TO_READ RECC_REMOTE_ENV environ
      getenv command = Ok (toRead, m) /\
    forall k, StrMap.find k m =
      match StrMap.find k RECC_REMOTE_ENV with
      | Some v => Some v
      | None =>
          match (if mem_str k toRead then getenv k else None) with
          | Some envVal => Some (remote_env_value cfg host k envVal)
          | None => StrMap.find k m0
          end
      end.
Proof.
  intros Hnd H0 toRead. unfold prepareRemoteEnv.
  assert (E : exists start,
             (if RECC_PRESERVE_ENV then
                let* remoteEnv := populateRemoteEnvWithNonReccVars environ [] in
                Ok (RECC_ENV_TO_READ, remoteEnv)
              else
                match RECC_ENV_TO_READ with
                | [] => Ok (default_env_to_read command RECC_ENV_TO_READ, [])
                | _ => Ok (RECC_ENV_TO_READ, [])
                end) = Ok start /\ start = (toRead, m0)).
  { unfold toRead. destruct RECC_PRESERVE_ENV.
    - rewrite H0. simpl. eexists. split; reflexivity.
    - subst m0. destruct RECC_ENV_TO_READ; eexists; split; reflexivity. }
  destruct E as [start [-> ->]]. simpl.
  eexists. split; [reflexivity|]. intros k.
  rewrite strmap_find_fold_assign, strmap_find_rev by exact Hnd.
  destruct (StrMap.find k RECC_REMOTE_ENV); [reflexivity|].
  apply find_fold_read.
Qed.

Lemma prepareRemoteEnv_lookup_witness :
  let getenv := fun name =>
    if String.eqb name "PATH" then Some "/opt/bin::/usr/bin"
    else if String.eqb name "CPATH" then Some "/opt/include"
    else if String.eqb name "LANG" then Some "en_US.UTF-8" else None in
  let command := set_bool d_isGcc true emptyParsedCommand in
  let cfg := mkConfig [("/opt", "/remote")] "" false false in
  exists m,
    prepareRemoteEnv cfg example_host false [] [("LANG", "C")] [] getenv command =
      Ok (default_env_to_read command [], m) /\
    forall k, StrMap.find k m =
      match StrMap.find k [("LANG", "C")] with
      | Some v => Some v
      | None =>
          match (if mem_str k (default_env_to_read command []) then getenv k else None) with
          | Some envVal => Some (remote_env_value cfg example_host k envVal)
          | None => StrMap.find k []
          end
      end.
Proof.
  intros getenv command cfg.
  exact (prepareRemoteEnv_lookup cfg example_host false [] [("LANG", "C")] [] getenv command []
           ltac:(repeat constructor; simpl; tauto) eq_refl).
Defined.

(** [ParseRuleHelper::parseStageOptionList] splits at the commas outside
    quotes and drops the quotes: items joined by ',', each either free of
    ',' and '\'' or free of '\'' and wrapped in a pair of '\'', come back as
    the items, commas inside quotes kept. *)
Theorem parseStageOptionList_round_trip (items : list (bool * string)) :
  items <> [] ->
  Forall (fun it : bool * string => string_forall (fun c => negb (Ascii.eqb c chr_quote) &&
                                            (fst it || negb (Ascii.eqb c chr_comma)))
                                  (snd it) = true) items ->
  parseStageOptionList
    (String.concat "," (map (fun it : bool * string => if fst it then append "'" (append (snd it) "'")
                                       else snd it) items)) =
  map snd items.
Proof.
  intros Hne Hf. unfold parseStageOptionList.
  destruct items as [|it0 its]; [congruence|]. clear Hne.
  assert (Key : forall it rest,
             string_forall (fun c => negb (Ascii.eqb c chr_quote) &&
                                     (fst it || negb (Ascii.eqb c chr_comma))) (snd it) = true ->
             parseStageOptionList_aux
               (append (if fst it then append "'" (append (snd it) "'") else snd it) rest)
               false EmptyString =
             parseStageOptionList_aux rest false (snd it)).
  { intros [[|] x] rest Hx; simpl in Hx |- *.
    - rewrite append_assoc_str, (psol_plain x _ _ true Hx). reflexivity.
    - rewrite (psol_plain x _ _ false Hx). reflexivity. }
  revert it0 Hf. induction its as [|it1 its IH]; intros it0 Hf;
    inversion Hf as [|? ? H0 Hr]; subst.
  - simpl map. rewrite concat_one.
    rewrite <- (append_empty_r (if fst it0 then _ else _)), (Key it0 _ H0). reflexivity.
  - rewrite (map_cons _ it0), concat_cons_ne by discriminate.
    rewrite (Key it0 _ H0), psol_comma, (IH it1 Hr). reflexivity.
Qed.

Lemma parseStageOptionList_round_trip_witness :
  parseStageOptionList "-MD,-MF,'a,b.d'" = ["-MD"; "-MF"; "a,b.d"].
Proof.
  exact (parseStageOptionList_round_trip [(false, "-MD"); (false, "-MF"); (true, "a,b.d")]
           ltac:(discriminate) ltac:(repeat constructor)).
Defined.

(** [Deps::dependencies_from_make_rules], in either format, returns only
    nonempty names without a newline, and nothing at all for a text without
    ':'. *)
Theorem dependencies_from_make_rules_names (rules : string) (is_sun_format : bool) :
  Forall (fun f => f <> EmptyString /\ no_char chr_nl f = true)
    (dependencies_from_make_rules rules is_sun_format) /\
  (no_char chr_colon rules = true -> dependencies_from_make_rules rules is_sun_format = []).
Proof.
  split.
  - unfold dependencies_from_make_rules, make_final.
    destruct (make_run_names_ok is_sun_format (mkMakeState [] false false EmptyString) rules
                (conj (Forall_nil _) eq_refl)) as [Hr Hc].
    destruct (ms_current_filename _) as [|x cur] eqn:E; [exact Hr|].
    apply StdSet.Forall_insert; [|exact Hr]. split; [discriminate|exact Hc].
  - intros H. unfold dependencies_from_make_rules.
    destruct (make_run_no_colon is_sun_format false rules H) as [bs E]. rewrite E. reflexivity.
Qed.

Lemma dependencies_from_make_rules_names_witness :
  no_char chr_colon "foo.o bar.h" = true /\
  dependencies_from_make_rules "foo.o bar.h" false = [].
Proof.
  split; [reflexivity|].
  apply (proj2 (dependencies_from_make_rules_names "foo.o bar.h" false)). reflexivity.
Defined.

(** In the Sun format, [Deps::dependencies_from_make_rules] reads one
    dependency per line [target ":" spaces dependency "\n"]: the dependency
    is kept whole, spaces and ':' included, and the result is the set of the
    lines' dependencies. *)
Theorem dependencies_from_make_rules_sun_lines (lines : list (string * nat * string)) :
  Forall (fun line => target_ok (fst (fst line)) = true /\ sun_dep_ok (snd line) = true) lines ->
  dependencies_from_make_rules (String.concat "" (map sun_line lines)) true =
  StdSet.of_list (map snd lines).
Proof.
  intros Hf. unfold dependencies_from_make_rules, StdSet.of_list.
  assert (G : forall r, make_run true (mkMakeState r false false EmptyString)
                          (String.concat "" (map sun_line lines)) =
                        mkMakeState (fold_left (fun s x => StdSet.insert x s) (map snd lines) r)
                          false false EmptyString).
  { induction Hf as [|line lines [Ht Hd] Hf IH]; intros r; [reflexivity|].
    destruct lines as [|line2 lines'].
    - simpl map. rewrite concat_one, (make_run_sun_line r line Ht Hd). reflexivity.
    - rewrite (map_cons _ line), concat_cons_ne by discriminate.
      rewrite make_run_app, (make_run_sun_line r line Ht Hd). simpl append. apply IH. }
  rewrite G. reflexivity.
Qed.

Lemma dependencies_from_make_rules_sun_lines_witness :
  dependencies_from_make_rules
    "foo.o: /usr/include/stdio.h
foo.o:   /home/me/My Documents/foo.h
" true = ["/home/me/My Documents/foo.h"; "/usr/include/stdio.h"].
Proof.
  exact (dependencies_from_make_rules_sun_lines
           [("foo.o", 1, "/usr/include/stdio.h"); ("foo.o", 3, "/home/me/My Documents/foo.h")]
           ltac:(repeat constructor)).
Defined.

(** [ParseRuleHelper::parseGccOption] reads an option joined to its path
    ([-ofoo], [-I=dir]) and the same option followed by its path as a
    separate token ([-o foo]) alike: with an '=' the path is what follows
    the first '='. Both forms consume their tokens and record the same
    products, dependency products and include directories; the joined form
    keeps the option, with its '=', in front of the rewritten path in the
    command. *)
Theorem parseGccOption_joined_separate (cfg : Config) (host : Host)
  (wd option s : string) (toDeps isOutput depsOutput : bool)
  (rest : list string) (pc : ParsedCommand) :
  no_char chr_eq option = true -> s <> EmptyString ->
  let p := match find_char chr_eq s with Some k => suffix_from (S k) s | None => s end in
  let mo := match find_char chr_eq s with Some _ => append option "=" | None => option end in
  exists pA pB,
    parseGccOption cfg host wd option toDeps isOutput depsOutput
      (set_originalCommand (append option s :: rest) pc) = Ok pA /\
    parseGccOption cfg host wd option toDeps isOutput depsOutput
      (set_originalCommand (option :: p :: rest) pc) = Ok pB /\
    d_originalCommand pA = rest /\ d_originalCommand pB = rest /\
    (forall g, pc_set pA g = pc_set pB g) /\
    get_products pA =
      (if isOutput && negb depsOutput
       then StdSet.insert (modifyPathForRemote cfg host p wd) (get_products pc)
       else get_products pc) /\
    pc_vec pA d_command =
      pc_vec pc d_command ++ [append mo (modifyPathForRemote cfg host p wd)] /\
    pc_vec pB d_command =
      pc_vec pc d_command ++ [option; modifyPathForRemote cfg host p wd].
Proof.
  intros Ho Hs p mo.
  destruct (joined_argument option s Ho Hs) as [mo' [Hsub [Hmo [Emo _]]]].
  fold p in Hmo. fold mo in Emo. subst mo'.
  unfold parseGccOption. cbn [oc_front set_originalCommand d_originalCommand rbind].
  rewrite (eqb_app_nonempty _ _ Hs), String.eqb_refl, Hsub. cbn [rbind].
  rewrite Hmo. cbn [rbind].
  unfold appendAndRemoveOption. cbn [oc_front set_originalCommand d_originalCommand rbind].
  destruct (isDirectory host (normalizePath host p)) eqn:Ed, isOutput, depsOutput, toDeps;
    (do 2 eexists; split; [reflexivity|]; split;
     [cbn [rbind oc_pop_front oc_front push_back set_vec set_insert set_originalCommand
           d_originalCommand];
      rewrite ?Ed; reflexivity|];
     repeat split; try reflexivity;
     try (intros g; destruct g; reflexivity);
     cbn [pc_vec push_back set_vec set_insert set_originalCommand andb negb VecField_beq];
     rewrite <- app_assoc; reflexivity).
Qed.

Lemma parseGccOption_joined_separate_witness :
  exists pA,
    parseGccOption example_config example_host "/w" "-o" false true false
      (set_originalCommand ["-oa=b.o"] emptyParsedCommand) = Ok pA /\
    get_products pA = ["b.o"] /\ pc_vec pA d_command = ["-o=b.o"].
Proof.
  pose proof (parseGccOption_joined_separate example_config example_host "/w" "-o" "a=b.o"
                false true false [] emptyParsedCommand eq_refl ltac:(discriminate)) as H.
  cbv zeta in H. destruct H as [pA [pB [H1 [_ [_ [_ [_ [H6 [H7 _]]]]]]]]].
  exists pA. split; [exact H1|]. vm_compute in H6, H7. vm_compute. split; assumption.
Defined.

(** [ParseRule::parseLdLibrary] reads [-lfoo], [--library=foo] and [-l foo]
    alike: the library name is what follows the option, or the first '='
    if there is one. Both forms consume their tokens, copy them to the
    command, and record the name in the static libraries when [-Bstatic]
    is in force and in the shared libraries otherwise. *)
Theorem parseLdLibrary_joined_separate (cfg : Config) (host : Host)
  (wd option s : string) (rest : list string) (pc : ParsedCommand) :
  no_char chr_eq option = true -> s <> EmptyString ->
  let lib := match find_char chr_eq s with Some k => suffix_from (S k) s | None => s end in
  lib <> EmptyString ->
  let field := if pc_bool pc d_bstatic then d_staticLibraries else d_libraries in
  exists pA pB,
    parseLdLibrary_def cfg host wd option (set_originalCommand (append option s :: rest) pc)
      = Ok pA /\
    parseLdLibrary_def cfg host wd option (set_originalCommand (option :: lib :: rest) pc)
      = Ok pB /\
    d_originalCommand pA = rest /\ d_originalCommand pB = rest /\
    pc_bool pA = pc_bool pc /\ pc_bool pB = pc_bool pc /\
    (forall g, pc_set pA g = pc_set pB g) /\
    (forall g, pc_set pA g =
               if SetField_beq field g then StdSet.insert lib (pc_set pc g) else pc_set pc g) /\
    pc_vec pA d_command = pc_vec pc d_command ++ [append option s] /\
    pc_vec pB d_command = pc_vec pc d_command ++ [option; lib].
Proof.
  intros Ho Hs lib Hl field.
  destruct (joined_argument option s Ho Hs) as [mo [Hsub [_ [_ Hlib]]]].
  fold lib in Hlib.
  unfold parseLdLibrary_def, appendAndRemoveOption.
  cbn [oc_front set_originalCommand d_originalCommand rbind].
  rewrite (eqb_app_nonempty _ _ Hs), String.eqb_refl, Hsub. cbn [rbind].
  rewrite Hlib. cbn [rbind oc_pop_front oc_front push_back set_vec set_originalCommand
                     d_originalCommand].
  destruct lib as [|c l]; [congruence|].
  cbn [is_empty pc_bool set_originalCommand push_back set_vec].
  subst field. destruct (pc_bool pc d_bstatic);
    (do 2 eexists; split; [reflexivity|]; split; [reflexivity|];
     repeat split; try reflexivity;
     try (intros g; destruct g; reflexivity);
     cbn [pc_vec push_back set_vec set_insert set_originalCommand VecField_beq];
     rewrite <- app_assoc; reflexivity).
Qed.

Lemma parseLdLibrary_joined_separate_witness :
  exists pA,
    parseLdLibrary_def example_config example_host "/w" "--library"
      (set_originalCommand ["--library=m"] emptyParsedCommand) = Ok pA /\
    pc_set pA d_libraries = ["m"] /\ pc_set pA d_staticLibraries = [].
Proof.
  pose proof (parseLdLibrary_joined_separate example_config example_host "/w" "--library" "=m"
                [] emptyParsedCommand eq_refl ltac:(discriminate) ltac:(discriminate)) as H.
  cbv zeta in H. destruct H as [pA [pB [H1 [_ [_ [_ [_ [_ [_ [H8 _]]]]]]]]]].
  exists pA. split; [exact H1|]. rewrite !H8. vm_compute. split; reflexivity.
Defined.

(** [ParseRule::parseLdLibrary] with an empty library name ([-l=],
    [--library=]) marks the command as unsupported and copies the rest of
    the command unparsed; no library is recorded. *)
Theorem parseLdLibrary_empty_name (cfg : Config) (host : Host)
  (wd option s : string) (rest : list string) (pc : ParsedCommand) :
  no_char chr_eq option = true -> s <> EmptyString ->
  match find_char chr_eq s with Some k => suffix_from (S k) s | None => s end = EmptyString ->
  exists pA,
    parseLdLibrary_def cfg host wd option (set_originalCommand (append option s :: rest) pc)
      = Ok pA /\
    contains_unsupported_options pA = true /\
    d_originalCommand pA = [] /\
    pc_set pA = pc_set pc /\
    pc_vec pA d_command = pc_vec pc d_command ++ [append option s] ++ rest.
Proof.
  intros Ho Hs He.
  destruct (joined_argument option s Ho Hs) as [mo [Hsub [_ [_ Hlib]]]].
  rewrite He in Hlib.
  unfold parseLdLibrary_def, appendAndRemoveOption.
  cbn [oc_front set_originalCommand d_originalCommand rbind].
  rewrite (eqb_app_nonempty _ _ Hs), Hsub. cbn [rbind].
  rewrite Hlib. cbn [rbind oc_pop_front oc_front push_back set_vec set_originalCommand
                     d_originalCommand is_empty].
  eexists. split; [reflexivity|]. repeat split.
  cbn [parseOptionIsUnsupported_def pc_vec append_vec push_back set_vec set_bool
       set_originalCommand d_originalCommand VecField_beq].
  rewrite <- app_assoc. reflexivity.
Qed.

Lemma parseLdLibrary_empty_name_witness :
  exists pA,
    parseLdLibrary_def example_config example_host "/w" "-l"
      (set_originalCommand ["-l="; "-lm"] emptyParsedCommand) = Ok pA /\
    contains_unsupported_options pA = true /\ pc_set pA d_libraries = [] /\
    pc_vec pA d_command = ["-l="; "-lm"].
Proof.
  destruct (parseLdLibrary_empty_name example_config example_host "/w" "-l" "=" ["-lm"]
              emptyParsedCommand eq_refl ltac:(discriminate) eq_refl)
    as [pA [H1 [H2 [_ [H4 H5]]]]].
  exists pA. split; [exact H1|]. split; [exact H2|]. rewrite H4, H5. split; reflexivity.
Defined.

(** [ParseRule::parseLdOptionState]: [--pop-state] after [--push-state]
    restores the [-Bstatic]/[-Bdynamic] state in force at the push, and
    the stack, whatever [-Bstatic] or [-Bdynamic] came in between. *)
Theorem parseLdOptionState_push_pop (cfg : Config) (host : Host) (wd : string)
  (pc pc1 pc2 pc3 : ParsedCommand) :
  parseLdOptionState_def cfg host wd "--push-state" pc = Ok pc1 ->
  pc2 = pc1 \/ parseLdOptionStatic_def cfg host wd pc1 = Ok pc2 \/
    parseLdOptionDynamic_def cfg host wd pc1 = Ok pc2 ->
  parseLdOptionState_def cfg host wd "--pop-state" pc2 = Ok pc3 ->
  pc_bool pc3 d_bstatic = pc_bool pc d_bstatic /\ d_bstaticStack pc3 = d_bstaticStack pc.
Proof.
  intros H1 H2 H3.
  unfold parseLdOptionState_def in H1. cbn [String.eqb Ascii.eqb Bool.eqb] in H1.
  apply appendAndRemoveOption_state in H1 as [B1 S1].
  cbn [set_bstaticStack pc_bool d_bstaticStack] in B1, S1.
  assert (S2 : d_bstaticStack pc2 = d_bstaticStack pc ++ [pc_bool pc d_bstatic]).
  { destruct H2 as [->|[H2|H2]]; [exact S1| |];
      unfold parseLdOptionStatic_def, parseLdOptionDynamic_def in H2;
      apply appendAndRemoveOption_state in H2 as [_ S2]; rewrite S2; exact S1. }
  unfold parseLdOptionState_def in H3. cbn [String.eqb Ascii.eqb Bool.eqb] in H3.
  rewrite S2, rev_app_distr in H3. cbn [rev app] in H3.
  apply appendAndRemoveOption_state in H3 as [B3 S3].
  rewrite B3, S3. cbn [set_bstaticStack set_bool pc_bool d_bstaticStack BoolField_beq].
  rewrite rev_involutive. split; reflexivity.
Qed.

Lemma parseLdOptionState_push_pop_witness :
  let pc := set_originalCommand ["--push-state"; "-Bstatic"; "--pop-state"] emptyParsedCommand in
  exists pc1 pc2 pc3,
    parseLdOptionState_def example_config example_host "/w" "--push-state" pc = Ok pc1 /\
    parseLdOptionStatic_def example_config example_host "/w" pc1 = Ok pc2 /\
    pc_bool pc2 d_bstatic = true /\
    parseLdOptionState_def example_config example_host "/w" "--pop-state" pc2 = Ok pc3 /\
    pc_bool pc3 d_bstatic = false /\ d_bstaticStack pc3 = [].
Proof.
  intros pc.
  pose (get := fun r : res ParsedCommand => match r with Ok x => x | _ => emptyParsedCommand end).
  pose (pc1 := get (parseLdOptionState_def example_config example_host "/w" "--push-state" pc)).
  pose (pc2 := get (parseLdOptionStatic_def example_config example_host "/w" pc1)).
  pose (pc3 := get (parseLdOptionState_def example_config example_host "/w" "--pop-state" pc2)).
  assert (E1 : parseLdOptionState_def example_config example_host "/w" "--push-state" pc = Ok pc1)
    by (vm_compute; reflexivity).
  assert (E2 : parseLdOptionStatic_def example_config example_host "/w" pc1 = Ok pc2)
    by (vm_compute; reflexivity).
  assert (E3 : parseLdOptionState_def example_config example_host "/w" "--pop-state" pc2 = Ok pc3)
    by (vm_compute; reflexivity).
  destruct (parseLdOptionState_push_pop example_config example_host "/w" pc pc1 pc2 pc3
              E1 (or_intror (or_introl E2)) E3) as [B S].
  exists pc1, pc2, pc3. split; [exact E1|]. split; [exact E2|].
  split; [vm_compute; reflexivity|]. split; [exact E3|].
  rewrite B, S. split; reflexivity.
Defined.

(** [ParseRule::parseLdOptionState]: [--pop-state] with nothing pushed
    marks the command as unsupported and copies the rest of the command
    unparsed; the [-Bstatic] state is left as it was. *)
Theorem parseLdOptionState_pop_empty (cfg : Config) (host : Host) (wd : string)
  (pc : ParsedCommand) :
  d_bstaticStack pc = [] ->
  exists pc',
    parseLdOptionState_def cfg host wd "--pop-state" pc = Ok pc' /\
    contains_unsupported_options pc' = true /\ d_originalCommand pc' = [] /\
    pc_bool pc' d_bstatic = pc_bool pc d_bstatic /\
    pc_vec pc' d_command = pc_vec pc d_command ++ d_originalCommand pc.
Proof.
  intros H. unfold parseLdOptionState_def. cbn [String.eqb Ascii.eqb Bool.eqb].
  rewrite H. cbn [rev]. eexists. split; [reflexivity|]. repeat split.
Qed.

Lemma parseLdOptionState_pop_empty_witness :
  exists pc',
    parseLdOptionState_def example_config example_host "/w" "--pop-state"
      (set_originalCommand ["--pop-state"; "-lm"] emptyParsedCommand) = Ok pc' /\
    contains_unsupported_options pc' = true /\ pc_vec pc' d_command = ["--pop-state"; "-lm"].
Proof.
  destruct (parseLdOptionState_pop_empty example_config example_host "/w"
              (set_originalCommand ["--pop-state"; "-lm"] emptyParsedCommand) eq_refl)
    as [pc' [H1 [H2 [_ [_ H5]]]]].
  exists pc'. split; [exact H1|]. split; [exact H2|]. rewrite H5. reflexivity.
Defined.

(** [ParsedCommand::commandBasename] for a name outside [CCompilers]: a
    trailing [_r] or [_r] and one more character is dropped, then any
    trailing digits, '.' and '-'. So [base], [base ++ v], [base ++ v ++ "_r"]
    and [base ++ v ++ "_r" ++ c] all give [base], for a version text [v]
    and a [base] without '_' that does not end in a version character. *)
Theorem strip_compiler_suffixes_forms (base v : string) (c : ascii) :
  base <> EmptyString -> no_char "_" base = true ->
  (forall d, last_char base = Some d -> is_version_character d = false) ->
  string_forall is_version_character v = true ->
  strip_compiler_suffixes (append base v) = base /\
  strip_compiler_suffixes (append base (append v "_r")) = base /\
  strip_compiler_suffixes (append base (append v (String "_" (String "r" (String c EmptyString)))))
    = base.
Proof.
  intros Hb Hu Hl Hv.
  assert (Hlen : 0 < String.length base) by (destruct base; [congruence|simpl; lia]).
  assert (Hvu : no_char "_" v = true).
  { clear - Hv. induction v as [|d v IH]; [reflexivity|].
    simpl in Hv. apply andb_prop in Hv as [H1 H2]. unfold no_char in IH |- *. simpl.
    rewrite (IH H2), andb_true_r. destruct (Ascii.eqb d "_") eqn:E; [|reflexivity].
    apply Ascii.eqb_eq in E. subst d. discriminate. }
  assert (Hbase : forall rest L,
             L = String.length base + String.length v ->
             prefix_of_len (strip_version_length L (append base (append v rest)))
               (append base (append v rest)) = base).
  { intros rest L ->. rewrite strip_version_through by exact Hv.
    rewrite strip_to_base by assumption. apply prefix_of_len_app. }
  unfold strip_compiler_suffixes. rewrite !length_append_str. cbn [String.length].
  split; [|split].
  - assert (Hbv : no_char "_" (append base v) = true).
    { unfold no_char in Hu, Hvu |- *. rewrite string_forall_app, Hu, Hvu. reflexivity. }
    destruct (Nat.ltb 2 _); cbn [andb].
    { destruct (String.eqb (suffix_from _ (append base v)) "_r") eqn:E.
      { apply String.eqb_eq in E. exfalso. unfold suffix_from in E.
        exact (no_char_substring _ _ _ _ _ Hbv E). }
      destruct (Nat.ltb 3 _); cbn [andb].
      { destruct (String.eqb (substring _ 2 (append base v)) "_r") eqn:E2.
        { apply String.eqb_eq in E2. exfalso. exact (no_char_substring _ _ _ _ _ Hbv E2). }
        pose proof (Hbase EmptyString _ eq_refl) as H. rewrite append_nil_r_str in H. exact H. }
      pose proof (Hbase EmptyString _ eq_refl) as H. rewrite append_nil_r_str in H. exact H. }
    destruct (Nat.ltb 3 _); cbn [andb].
    { destruct (String.eqb (substring _ 2 (append base v)) "_r") eqn:E2.
      { apply String.eqb_eq in E2. exfalso. exact (no_char_substring _ _ _ _ _ Hbv E2). }
      pose proof (Hbase EmptyString _ eq_refl) as H. rewrite append_nil_r_str in H. exact H. }
    pose proof (Hbase EmptyString _ eq_refl) as H. rewrite append_nil_r_str in H. exact H.
  - rewrite (proj2 (Nat.ltb_lt 2 _)) by lia. cbn [andb].
    replace (String.length base + (String.length v + 2) - 2)
      with (String.length (append base v)) by (rewrite length_append_str; lia).
    rewrite <- (append_assoc_str base v "_r"), suffix_from_app, String.eqb_refl.
    rewrite (append_assoc_str base v "_r").
    rewrite length_append_str. apply Hbase. reflexivity.
  - rewrite (proj2 (Nat.ltb_lt 2 _)) by lia. cbn [andb].
    replace (String.length base + (String.length v + 3) - 2)
      with (String.length (append base v) + 1) by (rewrite length_append_str; lia).
    rewrite <- (append_assoc_str base v), suffix_from_app_shift.
    cbn [suffix_from substring String.length]. cbn [String.eqb Ascii.eqb Bool.eqb].
    rewrite (proj2 (Nat.ltb_lt 3 _)) by lia. cbn [andb].
    replace (String.length base + (String.length v + 3) - 3)
      with (String.length (append base v) + 0) by (rewrite length_append_str; lia).
    rewrite substring_app_shift. cbn [substring String.eqb Ascii.eqb Bool.eqb].
    rewrite (append_assoc_str base v). rewrite length_append_str, Nat.add_0_r.
    apply Hbase. reflexivity.
Qed.

Lemma strip_compiler_suffixes_forms_witness :
  strip_compiler_suffixes "gcc-4.8" = "gcc" /\
  strip_compiler_suffixes "xlc++12_r" = "xlc++" /\
  strip_compiler_suffixes "xlc_r7" = "xlc".
Proof.
  destruct (strip_compiler_suffixes_forms "gcc" "-4.8" "7"
              ltac:(discriminate) eq_refl ltac:(intros d Hd; injection Hd as <-; reflexivity)
              eq_refl) as [H1 _].
  destruct (strip_compiler_suffixes_forms "xlc++" "12" "7"
              ltac:(discriminate) eq_refl ltac:(intros d Hd; injection Hd as <-; reflexivity)
              eq_refl) as [_ [H2 _]].
  destruct (strip_compiler_suffixes_forms "xlc" "" "7"
              ltac:(discriminate) eq_refl ltac:(intros d Hd; injection Hd as <-; reflexivity)
              eq_refl) as [_ [_ H3]].
  exact (conj H1 (conj H2 H3)).
Defined.

(** [ParseRule::parseLdLibraryPath] reads [-L/a:/b], [-L=/a:/b] and
    [-L /a:/b] alike (and the same for [-rpath], [-rpath-link] and their
    spellings): of the ':'-separated entries, those that are directories
    are recorded, in order, in the member chosen by the option, and each is
    passed to the command as the option and the rewritten path; the other
    entries are dropped from the command. Outside [-R], no entry makes the
    command unsupported. *)
Theorem parseLdLibraryPath_dirs (cfg : Config) (host : Host) (wd option : string)
  (pieces : list string) (tokens rest : list string) (pc : ParsedCommand) :
  String.eqb option "-R" = false ->
  pieces <> [] -> Forall (fun p => p <> EmptyString /\ no_char chr_colon p = true) pieces ->
  String.eqb (prefix_of_len 1 (String.concat ":" pieces)) "=" = false ->
  tokens = [append option (String.concat ":" pieces)] \/
  tokens = [append option (String "=" (String.concat ":" pieces))] \/
  tokens = [option; String.concat ":" pieces] ->
  let field :=
    if String.eqb option "-rpath-link" || String.eqb option "--rpath-link"
    then d_rpathLinkDirs
    else if mem_str option ["-rpath"; "--rpath"; "-R"] then d_rpathDirs
    else d_libraryDirs in
  let dirs := filter (isDirectory host) pieces in
  exists pc',
    parseLdLibraryPath_def cfg host wd option (set_originalCommand (tokens ++ rest) pc) = Ok pc' /\
    d_originalCommand pc' = rest /\
    pc_vec pc' field = pc_vec pc field ++ dirs /\
    pc_vec pc' d_command =
      pc_vec pc d_command ++ flat_map (fun t => [option; modifyPathForRemote cfg host t wd]) dirs /\
    contains_unsupported_options pc' = contains_unsupported_options pc.
Proof.
  intros HR Hne Hf Heq Htok field dirs.
  set (P := String.concat ":" pieces) in *.
  assert (HP : P <> EmptyString).
  { subst P. destruct Hf as [|p ps [Hp _] _]; [congruence|].
    destruct ps as [|p2 ps]; [rewrite concat_one; exact Hp|].
    rewrite concat_cons_ne by discriminate. destruct p; [congruence|discriminate]. }
  assert (Hsplit : getline_split chr_colon P = pieces) by (apply getline_split_concat; assumption).
  assert (Hfield : VecField_beq field d_command = false).
  { subst field. destruct (_ || _); [reflexivity|]. destruct (mem_str _ _); reflexivity. }
  assert (Hempty : is_empty P = false) by (destruct P; [congruence|reflexivity]).
  assert (Hloop : forall pc0, d_originalCommand pc0 = rest ->
            exists pc', parseLdLibraryPath_loop cfg host wd option field pieces pc0 = Ok pc' /\
              d_originalCommand pc' = rest /\
              pc_vec pc' field = pc_vec pc0 field ++ dirs /\
              pc_vec pc' d_command =
                pc_vec pc0 d_command ++
                flat_map (fun t => [option; modifyPathForRemote cfg host t wd]) dirs /\
              contains_unsupported_options pc' = contains_unsupported_options pc0).
  { intros pc0 H0.
    destruct (parseLdLibraryPath_loop_dirs cfg host wd option field pieces pc0 Hfield HR)
      as [pc' [H1 [H2 [H3 [H4 H5]]]]].
    exists pc'. unfold contains_unsupported_options. rewrite H5, H4, H0. auto. }
  unfold parseLdLibraryPath_def.
  destruct Htok as [ -> | [ -> | -> ] ]; cbn [app oc_front oc_pop_front set_originalCommand d_originalCommand rbind].
  - rewrite (eqb_app_nonempty _ _ HP).
    unfold substr_from. rewrite length_append_str, (proj2 (Nat.leb_le _ _)) by lia.
    rewrite suffix_from_app. cbn [rbind]. rewrite Heq, Hempty. fold field. rewrite Hsplit.
    match goal with
    | |- context [parseLdLibraryPath_loop _ _ _ _ _ _ ?x] =>
        destruct (Hloop x eq_refl) as [pc' Hp]; exists pc'; exact Hp
    end.
  - rewrite (eqb_app_nonempty option (String "=" P) ltac:(discriminate)).
    unfold substr_from. rewrite length_append_str, (proj2 (Nat.leb_le _ _)) by lia.
    rewrite suffix_from_app. cbn [rbind prefix_of_len substring String.eqb Ascii.eqb Bool.eqb andb].
    replace (suffix_from 1 (String "=" P)) with P
      by (unfold suffix_from; cbn [String.length substring]; rewrite Nat.sub_1_r; cbn [Nat.pred];
          symmetry; apply substring_0_full).
    replace (substring 0 0 P) with EmptyString by (destruct P; reflexivity).
    cbn [String.eqb]. rewrite Hempty. fold field. rewrite Hsplit.
    match goal with
    | |- context [parseLdLibraryPath_loop _ _ _ _ _ _ ?x] =>
        destruct (Hloop x eq_refl) as [pc' Hp]; exists pc'; exact Hp
    end.
  - rewrite String.eqb_refl. cbn [rbind].
    rewrite Hempty. fold field. rewrite Hsplit.
    match goal with
    | |- context [parseLdLibraryPath_loop _ _ _ _ _ _ ?x] =>
        destruct (Hloop x eq_refl) as [pc' Hp]; exists pc'; exact Hp
    end.
Qed.

Lemma parseLdLibraryPath_dirs_witness :
  let host := mkHost (fun p => p) (fun p _ => p) (fun p => String.eqb p "/usr/lib")
                (fun _ => false) (fun p => p) (fun _ => false) (fun p => p) "/tmp/recc-deps" in
  exists pc',
    parseLdLibraryPath_def example_config host "/w" "-L"
      (set_originalCommand (["-L/usr/lib:/nonexistent"] ++ []) emptyParsedCommand) = Ok pc' /\
    pc_vec pc' d_libraryDirs = ["/usr/lib"] /\ pc_vec pc' d_command = ["-L"; "/usr/lib"].
Proof.
  intros host.
  destruct (parseLdLibraryPath_dirs example_config host "/w" "-L" ["/usr/lib"; "/nonexistent"]
              ["-L/usr/lib:/nonexistent"] [] emptyParsedCommand eq_refl ltac:(discriminate)
              ltac:(repeat constructor; discriminate) eq_refl (or_introl eq_refl))
    as [pc' [H1 [_ [H3 [H4 _]]]]].
  exists pc'. split; [exact H1|]. simpl in H3, H4. rewrite H3, H4. split; reflexivity.
Defined.

(** [ParsedCommand::commandBasename] on a compiler name caught in a cycle of
    symbolic links among [CCompilers] names throws [std::system_error]
    (ELOOP) once its budget of links is used up, instead of looping. *)
Theorem commandBasename_symlink_cycle (host : Host) (cd : CompilerDefaults)
  (cycle : list string) :
  (forall p, In p cycle ->
     let basename := match rfind_char chr_slash p with
                     | Some lastSlash => suffix_from (S lastSlash) p
                     | None => p
                     end in
     let absolutePath := getPathToCommand host p in
     mem_str basename (CCompilers cd) = true /\
     negb (is_empty absolutePath) && isSymlink host absolutePath = true /\
     In (resolveSymlink host absolutePath) cycle) ->
  forall budget p, In p cycle -> commandBasename_aux host cd budget p = Throw "std::system_error".
Proof.
  intros Hc budget. induction budget as [|budget IH]; intros p Hp;
    destruct (Hc p Hp) as [Hm [Hs Hn]]; simpl in Hm, Hs, Hn;
    cbn [commandBasename_aux]; rewrite Hm, Hs; [reflexivity|].
  apply IH. exact Hn.
Qed.

Lemma commandBasename_symlink_cycle_witness :
  let host := mkHost (fun p => p) (fun p _ => p) (fun _ => false) (fun _ => false)
                (fun p => if String.eqb p "cc" then "/usr/bin/cc" else p)
                (fun p => String.eqb p "/usr/bin/cc") (fun _ => "cc") "/tmp/recc-deps" in
  commandBasename host example_defaults "cc" = Throw "std::system_error".
Proof.
  intros host. unfold commandBasename.
  apply (commandBasename_symlink_cycle host example_defaults ["cc"; "/usr/bin/cc"]);
    [|left; reflexivity].
  intros p [<-|[<-|[]]]; vm_compute; auto.
Defined.
